(** * proto-ai-backend: chunked upload, image validation and job options

    A shallow embedding of the TypeScript sources of the backend:
    - [src/config/env.ts]                       (module [Config])
    - [src/types/index.ts]                      (module [Types])
    - [src/services/imageProcessingService.ts]  (module [ImageProcessing])
    - [src/services/queueService.ts]            (module [QueueService])
    - the object store and cache services       (module [Services])
    - the validation middleware                 (module [Middleware])
    - the chunked upload controller             (module [ChunkedUpload])
    - the image controller                      (module [ImageController])

    JavaScript values are modelled as the code has them: integers that the
    code only uses as integers are [Z]; numbers that come out of floating
    point arithmetic are IEEE binary64 [float]s; buffers are lists of
    bytes; arrays are lists of slots that may be holes; an [await] that can
    reject is an [Outcome]; the database, the object store, the cache and
    the in-memory chunk map are an explicit [State] threaded through the
    handlers. *)

From Stdlib Require Import ZArith Floats String Ascii List Bool Lia.
From stdpp Require Import gmap strings list pretty.

Local Open Scope Z_scope.
#[local] Set Warnings "-inexact-float".

(** ** JavaScript runtime primitives *)

Module Js.

Definition Buffer := list Byte.byte.

(** What a [throw] carries: an [Error] object with its message, or any
    other value ([error instanceof Error] is false). *)
Inductive Thrown :=
| ErrorObj (message : string)
| NonError.

(** [error instanceof Error ? error.message : "Unknown error"] *)
Definition errorMessage (e : Thrown) : string :=
  match e with
  | ErrorObj m => m
  | NonError => "Unknown error"
  end.

(** The settled state of a promise, or the result of a block that may
    throw. *)
Inductive Outcome (A : Type) :=
| Ok (a : A)
| Throw (e : Thrown).
Arguments Ok {A} a.
Arguments Throw {A} e.

Definition isOk {A} (o : Outcome A) : bool :=
  match o with Ok _ => true | Throw _ => false end.

(** *** Numbers *)

(** The double nearest to an integer. *)
Definition num_of_Z (z : Z) : float :=
  SF2Prim (SpecFloat.binary_normalize prec emax z 0 false).

(** A number is falsy when it is [0], [-0] or [NaN]. *)
Definition num_truthy (x : float) : bool :=
  negb (PrimFloat.is_zero x || PrimFloat.is_nan x).

(** [x || 0] on an optional number. *)
Definition num_or0 (o : option float) : float :=
  match o with
  | Some x => if num_truthy x then x else 0%float
  | None => 0%float
  end.

(** [x || 0] on an optional integer. *)
Definition int_or0 (o : option Z) : Z :=
  match o with
  | Some x => if x =? 0 then 0 else x
  | None => 0
  end.

(** [Math.max(a, b)]: [NaN] if either is, and [+0] above [-0]. *)
Definition Math_max (a b : float) : float :=
  if PrimFloat.is_nan a || PrimFloat.is_nan b then PrimFloat.nan
  else if PrimFloat.ltb a b then b
  else if PrimFloat.ltb b a then a
  else if PrimFloat.is_zero a && PrimFloat.get_sign a then b
  else a.

(** [Math.round(x)]: the integer nearest to [x], ties towards [+inf];
    [floor(x + 1/2)] computed exactly on the mantissa and exponent. *)
Definition Math_round (x : float) : float :=
  match Prim2SF x with
  | S754_finite s m e =>
      if 0 <=? e then x
      else
        let sm := if s then Z.neg m else Z.pos m in
        let q := (2 * sm + 2 ^ (- e)) / 2 ^ (1 - e) in
        if q =? 0 then (if s then PrimFloat.neg_zero else PrimFloat.zero)
        else num_of_Z q
  | _ => x
  end.

(** [Math.pow(x, 2)] *)
Definition Math_pow2 (x : float) : float := PrimFloat.mul x x.

(** *** Strings *)

Definition lower_ascii (c : ascii) : ascii :=
  let n := nat_of_ascii c in
  if (65 <=? n)%nat && (n <=? 90)%nat then ascii_of_nat (n + 32) else c.

(** [s.toLowerCase()] on the ASCII letters (no other character lowers to
    an ASCII letter of the suffixes and formats tested here). *)
Fixpoint toLowerCase (s : string) : string :=
  match s with
  | EmptyString => EmptyString
  | String c r => String (lower_ascii c) (toLowerCase r)
  end.

Fixpoint startsWith (p s : string) : bool :=
  match p, s with
  | EmptyString, _ => true
  | String a p', String b s' => Ascii.eqb a b && startsWith p' s'
  | String _ _, EmptyString => false
  end.

Fixpoint rev_string (acc s : string) : string :=
  match s with
  | EmptyString => acc
  | String c r => rev_string (String c acc) r
  end.

(** [s.endsWith(suffix)] *)
Definition endsWith (s suffix : string) : bool :=
  startsWith (rev_string EmptyString suffix) (rev_string EmptyString s).

(** [list.includes(s)] on an array of strings. *)
Definition includes (l : list string) (s : string) : bool :=
  existsb (String.eqb s) l.

(** A string is falsy when it is empty. *)
Definition str_truthy (s : string) : bool := negb (String.eqb s "").

Definition is_js_whitespace (c : ascii) : bool :=
  let n := nat_of_ascii c in
  (n =? 32)%nat || ((9 <=? n)%nat && (n <=? 13)%nat).

Fixpoint skip_whitespace (s : string) : string :=
  match s with
  | String c r => if is_js_whitespace c then skip_whitespace r else s
  | EmptyString => s
  end.

Definition digit_value (c : ascii) : option Z :=
  let n := nat_of_ascii c in
  if (48 <=? n)%nat && (n <=? 57)%nat then Some (Z.of_nat (n - 48))
  else if (97 <=? n)%nat && (n <=? 122)%nat then Some (Z.of_nat (n - 87))
  else if (65 <=? n)%nat && (n <=? 90)%nat then Some (Z.of_nat (n - 55))
  else None.

(** The longest prefix of digits of the radix, as a number; [None] when
    there is no digit. *)
Fixpoint parse_digits (radix : Z) (acc : option Z) (s : string) : option Z :=
  match s with
  | EmptyString => acc
  | String c r =>
      match digit_value c with
      | Some d =>
          if d <? radix
          then parse_digits radix (Some (radix * default 0 acc + d)) r
          else acc
      | None => acc
      end
  end.

(** The integer a number denotes after rounding to binary64 (to nearest,
    ties to even): the integer itself up to [2^53] in size, and [2^1024]
    for [Infinity], which compares with every finite number as
    [Infinity] does. *)
Definition round_binary64 (z : Z) : Z :=
  match SpecFloat.binary_normalize prec emax z 0 false with
  | S754_finite s m e =>
      let v := Z.shiftl (Z.pos m) e in
      if s then - v else v
  | S754_infinity s => if s then - 2 ^ 1024 else 2 ^ 1024
  | _ => 0
  end.

(** [Number.parseInt(s)] with no radix: leading white space, a sign, a
    [0x] prefix for radix 16, then digits, and the number they denote
    rounded to binary64; [None] is [NaN]. *)
Definition parseInt (s : string) : option Z :=
  let s1 := skip_whitespace s in
  let '(neg, s2) :=
    match s1 with
    | String "-" r => (true, r)
    | String "+" r => (false, r)
    | _ => (false, s1)
    end in
  let '(radix, s3) :=
    match s2 with
    | String "0" (String "x" r) => (16, r)
    | String "0" (String "X" r) => (16, r)
    | _ => (10, s2)
    end in
  (fun v : Z => round_binary64 (if neg then - v else v))
    <$> parse_digits radix None s3.

(** *** Arrays with holes

    A JavaScript array is a length and the elements that exist below it;
    an index below the length with no element is a hole.  An element is
    a value, and [undefined] is a value: an array of [A] that may hold
    [undefined] is a [JsArray (option A)], with [None] for [undefined]. *)

Inductive Slot (A : Type) :=
| Hole
| Elem (v : A).
Arguments Hole {A}.
Arguments Elem {A} v.

Definition JsArray (A : Type) := list (Slot A).

(** [new Array(n)]: [n] holes; a [RangeError] unless [n] is an integer in
    [0, 2^32). *)
Definition new_Array {A} (n : Z) : Outcome (JsArray A) :=
  if (0 <=? n) && (n <? 2 ^ 32)
  then Ok (replicate (Z.to_nat n) Hole)
  else Throw (ErrorObj "Invalid array length").

(** [arr[i] = v].  An index at or past the length extends the array with
    holes up to it.  A negative index names an ordinary property, not an
    element: the elements and the length are unchanged. *)
Definition array_set {A} (arr : JsArray A) (i : Z) (v : A) : JsArray A :=
  if i <? 0 then arr
  else
    let n := Z.to_nat i in
    if (n <? List.length arr)%nat then <[n := Elem v]> arr
    else arr ++ replicate (n - List.length arr) Hole ++ [Elem v].

(** [arr[i]] for an index below the length: [undefined] at a hole. *)
Definition read_slot {A} (s : Slot (option A)) : option A :=
  match s with
  | Elem v => v
  | Hole => None
  end.

(** [arr.every(p)]: [p] is called only for the elements that exist; holes
    are skipped (ECMA-262, Array.prototype.every: the callback runs only
    when the property at the index is present). *)
Definition every {A} (p : A -> bool) (arr : JsArray A) : bool :=
  forallb (fun slot => match slot with Elem v => p v | Hole => true end) arr.

(** [x !== undefined] *)
Definition is_defined {A} (x : option A) : bool :=
  match x with Some _ => true | None => false end.

(** [Buffer.concat(list)]: reads [list[i].length] for every index below
    the length, so a hole or an [undefined] element throws a [TypeError];
    otherwise the bytes of the buffers in index order. *)
Fixpoint buffers_of (arr : JsArray (option Buffer)) : option (list Buffer) :=
  match arr with
  | [] => Some []
  | s :: r =>
      match read_slot s with
      | Some b => cons b <$> buffers_of r
      | None => None
      end
  end.

Definition Buffer_concat (arr : JsArray (option Buffer)) : Outcome Buffer :=
  match buffers_of arr with
  | Some bs => Ok (concat bs)
  | None =>
      Throw (ErrorObj "Cannot read properties of undefined (reading 'length')")
  end.

End Js.

(** ** Configuration ([src/config/env.ts]) *)

Module Config.
Import Js.

(** [process.env] *)
Definition Env := string -> option string.

(** A zod [z.string().default(d)] field: the default when the variable
    is not set. *)
Definition env_default (env : Env) (name d : string) : string :=
  default d (env name).

(** [imageConfig]: every bound is [Number.parseInt] of its variable, so a
    bound may be [NaN] ([None]). *)
Record ImageConfig := {
  minWidth : option Z;
  minHeight : option Z;
  maxWidth : option Z;
  maxHeight : option Z;
  maxFileSize : option Z;
}.

Definition imageConfig (env : Env) : ImageConfig := {|
  minWidth := parseInt (env_default env "MIN_IMAGE_WIDTH" "300");
  minHeight := parseInt (env_default env "MIN_IMAGE_HEIGHT" "300");
  maxWidth := parseInt (env_default env "MAX_IMAGE_WIDTH" "4000");
  maxHeight := parseInt (env_default env "MAX_IMAGE_HEIGHT" "4000");
  maxFileSize := parseInt (env_default env "MAX_FILE_SIZE" "10485760");
|}.

(** [a < b] and [a > b] against a bound that may be [NaN]: a comparison
    with [NaN] is false. *)
Definition lt_bound (a : Z) (b : option Z) : bool :=
  match b with Some b => a <? b | None => false end.
Definition gt_bound (a : Z) (b : option Z) : bool :=
  match b with Some b => b <? a | None => false end.
End Config.

(** ** External collaborators

    What the image codec, the face-detection provider, the hash primitive,
    the converter, the clock and the infrastructure answer during one
    request.  The handlers are functions of these answers. *)

Module External.
Import Js.

(** [sharp(buffer).metadata()] *)
Record SharpMetadata := {
  sharp_width : option Z;
  sharp_height : option Z;
  sharp_format : option string;
}.

(** The part of a Rekognition [DetectFaces] response the code reads. *)
Record BoundingBox := { Width : option float; Height : option float }.
Record FaceDetail := { BoundingBox_of : option BoundingBox }.
Record DetectFacesResponse := { FaceDetails : option (list FaceDetail) }.

(** [imageProcessingService.convertToFormat] is called by both upload
    handlers but is not defined in the service under src/: as the sources
    stand, the call throws a [TypeError] and the handlers' [catch] keeps
    the buffer and the MIME type.  It is kept as a parameter of the world,
    so that what is proved holds of any definition of it; an answer is the
    buffer it was given or a new one, which the callers tell apart by
    reference ([!==]). *)
Inductive Converted :=
| SameBuffer
| NewBuffer (b : Buffer).

Inductive Target := to_jpeg | to_png.

(** The calls to infrastructure that can fail. *)
Inductive ExtCall :=
| Db_image_findFirst
| Db_image_create
| Db_uploadSession_findUnique
| Db_uploadSession_create
| Db_uploadSession_update
| S3_putObject
| S3_getSignedUrl
| Redis_set.

Record World := {
  sharp_metadata : Buffer -> Outcome SharpMetadata;
  sharp_grayscale_raw : Buffer -> Outcome Buffer;
  rekognition_send : Buffer -> Outcome DetectFacesResponse;
  sha256_hex : Buffer -> string;
  base64_decode : string -> Buffer;
  convertToFormat : Buffer -> Target -> Outcome Converted;
  Date_now : Z;
  signedUrl : string -> string;
  fault : ExtCall -> option Thrown;
  NODE_ENV : option string;
}.
End External.

(** ** Shared types ([src/types/index.ts]) *)

Module Types.

(** The rejection reasons [validateImage] pushes, one constructor per
    message template, carrying the values the template interpolates. *)
Inductive ValidationError :=
| ImageTooSmall (minWidth minHeight : option Z) (width height : Z)
    (* "Image too small. Minimum size: ..., got: ..." *)
| ImageTooLarge (maxWidth maxHeight : option Z) (width height : Z)
    (* "Image too large. Maximum size: ..., got: ..." *)
| InvalidFormat (allowed : list string) (got : string)
    (* "Invalid format. Allowed: ..., got: ..." *)
| FileTooLarge (maxFileSize : option Z) (size : Z)
    (* "File too large. Maximum size: ... bytes, got: ..." *)
| Blurry (blurScore : float)
    (* "Image appears to be blurry (blur score: ...)..." *)
| NoFaceDetected
    (* "No face detected in the image. ..." *)
| MultipleFaces (faceCount : Z)
    (* "Multiple faces detected (n). Only one face is allowed. ..." *)
| FaceTooSmall (faceSize : float)
    (* "Face too small relative to image (..%). ..." *)
| FaceTooLarge (faceSize : float)
    (* "Face too large relative to image (..%). ..." *)
| FaceDetectionUnavailable
    (* "Face detection service unavailable. Please try again later." *)
| ProcessingError (message : string).
    (* "Image processing error: ..." *)

Record ImageMetadata := {
  width : Z;
  height : Z;
  size : Z;
  format : string;
  blurScore : option float;
  faceCount : option Z;
  faceSize : option float;
  hash : option string;
}.

Record ValidationResult := {
  isValid : bool;
  errors : list ValidationError;
  metadata : option ImageMetadata;
}.

(** [validationResult.metadata?.field] *)
Definition meta {A} (f : ImageMetadata -> option A) (r : ValidationResult)
  : option A :=
  match metadata r with Some m => f m | None => None end.

Record ChunkUploadRequest := {
  sessionId : option string;
  filename : string;
  mimeType : string;
  totalChunks : Z;
  chunkIndex : Z;
  chunkData : string;
}.

Record UploadProgress := {
  uploaded : Z;
  total : Z;
  percentage : float;
}.
End Types.

(** ** The relational store (Prisma client)

    The rows carry the columns the code reads and writes; a query rejects
    when the infrastructure fails it. *)

Module Prisma.
Import Js External.

Inductive ImageStatus := PENDING | PROCESSING | VALIDATED | REJECTED | ERROR.
Inductive UploadStatus := IN_PROGRESS | COMPLETED | FAILED | EXPIRED.

Module Image.
(** The [data] of [prisma.image.create]. *)
Record data := {
  filename : string;
  originalName : string;
  mimeType : string;
  size : Z;
  width : Z;
  height : Z;
  s3Key : string;
  status : ImageStatus;
  hash : option string;
  blurScore : option float;
  faceCount : option Z;
  faceSize : option float;
  validationResults : bool * list Types.ValidationError;
}.
Record t := {
  id : string;
  columns : data;
  createdAt : Z;
  updatedAt : Z;
}.
End Image.

Module UploadSession.
(** The columns of a row; its primary key [id] is the key of the table. *)
Record columns := {
  filename : string;
  totalChunks : Z;
  uploadedChunks : Z;
  status : UploadStatus;
  s3Key : option string;
  createdAt : Z;
  expiresAt : Z;
}.
Record t := {
  id : string;
  row : columns;
}.
Definition set_uploadedChunks (n : Z) (s : columns) : columns :=
  {| filename := filename s; totalChunks := totalChunks s;
     uploadedChunks := n; status := status s; s3Key := s3Key s;
     createdAt := createdAt s; expiresAt := expiresAt s |}.
Definition set_status (st : UploadStatus) (s : columns) : columns :=
  {| filename := filename s; totalChunks := totalChunks s;
     uploadedChunks := uploadedChunks s; status := st; s3Key := s3Key s;
     createdAt := createdAt s; expiresAt := expiresAt s |}.
Definition set_s3Key (k : string) (s : columns) : columns :=
  {| filename := filename s; totalChunks := totalChunks s;
     uploadedChunks := uploadedChunks s; status := status s;
     s3Key := Some k; createdAt := createdAt s; expiresAt := expiresAt s |}.
End UploadSession.

Record Db := {
  images : list Image.t;
  uploadSessions : gmap string UploadSession.columns;
}.

Definition with_images (l : list Image.t) (db : Db) : Db :=
  {| images := l; uploadSessions := uploadSessions db |}.
Definition with_uploadSessions (m : gmap string UploadSession.columns)
    (db : Db) : Db :=
  {| images := images db; uploadSessions := m |}.

(** A call to the store rejects when the infrastructure fails it. *)
Definition guarded {A} (w : World) (c : ExtCall) (a : A) : Outcome A :=
  match fault w c with
  | Some e => Throw e
  | None => Ok a
  end.

Definition hash_is (h : string) (r : Image.t) : bool :=
  match Image.hash (Image.columns r) with
  | Some h' => String.eqb h h'
  | None => false
  end.

(** [prisma.image.findFirst({ where: { hash } })] *)
Definition image_findFirst (w : World) (db : Db) (h : string)
  : Outcome (option Image.t) :=
  guarded w Db_image_findFirst (find (hash_is h) (images db)).

(** [prisma.image.create({ data })]: the store assigns an unused id and
    the timestamps. *)
Definition image_create (w : World) (db : Db) (d : Image.data)
  : Outcome (Image.t * Db) :=
  let row := {| Image.id := fresh (Image.id <$> images db);
                Image.columns := d;
                Image.createdAt := Date_now w;
                Image.updatedAt := Date_now w |} in
  guarded w Db_image_create (row, with_images (images db ++ [row]) db).

(** [prisma.uploadSession.findUnique({ where: { id } })] *)
Definition uploadSession_findUnique (w : World) (db : Db) (sid : string)
  : Outcome (option UploadSession.t) :=
  guarded w Db_uploadSession_findUnique
    ((fun c => {| UploadSession.id := sid; UploadSession.row := c |})
       <$> uploadSessions db !! sid).

(** Modelled from the spec: the column defaults of the Prisma schema,
    which is not part of the sources (a session starts IN_PROGRESS with no
    chunk received).
    [prisma.uploadSession.create({ data: { filename, totalChunks,
    expiresAt } })]: the store assigns an unused id. *)
Definition uploadSession_create (w : World) (db : Db)
    (fname : string) (total expires : Z)
  : Outcome (UploadSession.t * Db) :=
  let sid := fresh (dom (uploadSessions db)) in
  let c := {| UploadSession.filename := fname;
              UploadSession.totalChunks := total;
              UploadSession.uploadedChunks := 0;
              UploadSession.status := IN_PROGRESS;
              UploadSession.s3Key := None;
              UploadSession.createdAt := Date_now w;
              UploadSession.expiresAt := expires |} in
  guarded w Db_uploadSession_create
    ({| UploadSession.id := sid; UploadSession.row := c |},
     with_uploadSessions (<[sid := c]> (uploadSessions db)) db).

(** [prisma.uploadSession.update({ where: { id }, data })]: rejects when
    no row has the id. *)
Definition uploadSession_update (w : World) (db : Db) (sid : string)
    (f : UploadSession.columns -> UploadSession.columns) : Outcome Db :=
  match fault w Db_uploadSession_update with
  | Some e => Throw e
  | None =>
      match uploadSessions db !! sid with
      | Some c =>
          Ok (with_uploadSessions (<[sid := f c]> (uploadSessions db)) db)
      | None => Throw (ErrorObj "Record to update not found.")
      end
  end.
End Prisma.

(** ** [src/services/imageProcessingService.ts] *)

Module ImageProcessing.
Import Js Config External Types.

(** *** [calculateBlurScore] *)

(** [grayscale[i]] as an operand of [+]: a byte as a number, and
    [undefined] outside the buffer, which arithmetic turns into [NaN]. *)
Definition pixel (grayscale : Buffer) (i : Z) : float :=
  if i <? 0 then PrimFloat.nan
  else
    match grayscale !! Z.to_nat i with
    | Some b => num_of_Z (Z.of_N (Byte.to_N b))
    | None => PrimFloat.nan
    end.

Definition laplacian (grayscale : Buffer) (width idx : Z) : float :=
  (pixel grayscale (idx - width) + pixel grayscale (idx + width)
   + pixel grayscale (idx - 1) + pixel grayscale (idx + 1)
   - 4 * pixel grayscale idx)%float.

(** The values of [for (let k = 1; k < n - 1; k++)]. *)
Definition interior (n : Z) : list Z :=
  (fun k => Z.of_nat k + 1) <$> seq 0 (Z.to_nat (n - 2)).

(** The two nested loops over the interior pixels, row by row. *)
Definition over_interior {S} (step : S -> float -> S)
    (grayscale : Buffer) (width height : Z) (init : S) : S :=
  fold_left
    (fun acc y =>
       fold_left
         (fun acc x => step acc (laplacian grayscale width (y * width + x)))
         (interior width) acc)
    (interior height) init.

Definition calculateBlurScore (w : World) (buffer : Buffer) : Outcome float :=
  match sharp_grayscale_raw w buffer with
  | Throw _ => Ok 0%float
  | Ok grayscale =>
      match sharp_metadata w buffer with
      | Throw _ => Ok 0%float
      | Ok imageInfo =>
          let width := int_or0 (sharp_width imageInfo) in
          let height := int_or0 (sharp_height imageInfo) in
          let '(mean, count) :=
            over_interior
              (fun '(mean, count) l => ((mean + l)%float, count + 1))
              grayscale width height (0%float, 0) in
          let mean := (mean / num_of_Z count)%float in
          let variance :=
            over_interior
              (fun variance l => (variance + Math_pow2 (l - mean))%float)
              grayscale width height 0%float in
          Ok (variance / num_of_Z count)%float
      end
  end.

(** *** [detectFaces] *)

Record FaceData := { fd_faceCount : Z; fd_faceSize : float }.

Definition maxFaceSize_step (maxFaceSize : float) (face : FaceDetail)
  : float :=
  match BoundingBox_of face with
  | Some box =>
      let faceSize := (num_or0 (Width box) * num_or0 (Height box))%float in
      Math_max maxFaceSize faceSize
  | None => maxFaceSize
  end.

Definition detectFaces (w : World) (buffer : Buffer) : Outcome FaceData :=
  match rekognition_send w buffer with
  | Ok response =>
      let faces := default [] (FaceDetails response) in
      Ok {| fd_faceCount := Z.of_nat (List.length faces);
            fd_faceSize := fold_left maxFaceSize_step faces 0%float |}
  | Throw _ => Ok {| fd_faceCount := 0; fd_faceSize := 0%float |}
  end.

(** *** [generateImageHash] *)

Definition generateImageHash (w : World) (buffer : Buffer) : string :=
  sha256_hex w buffer.

(** *** [validateImage] *)

Definition allowedFormats : list string := ["jpeg"; "jpg"; "png"; "heic"]%string.

Definition push {A} (l : list A) (x : A) : list A := l ++ [x].

Definition set_blurScore (x : float) (m : ImageMetadata) : ImageMetadata :=
  {| width := width m; height := height m; size := size m;
     format := format m; blurScore := Some x; faceCount := faceCount m;
     faceSize := faceSize m; hash := hash m |}.
Definition set_faces (n : Z) (x : float) (m : ImageMetadata)
  : ImageMetadata :=
  {| width := width m; height := height m; size := size m;
     format := format m; blurScore := blurScore m; faceCount := Some n;
     faceSize := Some x; hash := hash m |}.
Definition set_hash (h : string) (m : ImageMetadata) : ImageMetadata :=
  {| width := width m; height := height m; size := size m;
     format := format m; blurScore := blurScore m; faceCount := faceCount m;
     faceSize := faceSize m; hash := Some h |}.

(** [imageInfo.format || "unknown"] *)
Definition format_or_unknown (o : option string) : string :=
  match o with
  | Some s => if str_truthy s then s else "unknown"%string
  | None => "unknown"%string
  end.

(** Steps 1 to 3: the dimension bounds and the format allow-list. *)
Definition basic_errors (cfg : ImageConfig) (m : ImageMetadata)
  : list ValidationError :=
  let errors := [] in
  let errors :=
    if lt_bound (width m) (minWidth cfg) || lt_bound (height m) (minHeight cfg)
    then push errors
           (ImageTooSmall (minWidth cfg) (minHeight cfg) (width m) (height m))
    else errors in
  let errors :=
    if gt_bound (width m) (maxWidth cfg) || gt_bound (height m) (maxHeight cfg)
    then push errors
           (ImageTooLarge (maxWidth cfg) (maxHeight cfg) (width m) (height m))
    else errors in
  if negb (includes allowedFormats (toLowerCase (format m)))
  then push errors (InvalidFormat allowedFormats (format m))
  else errors.

(** [format.toLowerCase() === "heic" || format.toLowerCase() === "heif"] *)
Definition is_heic_format (fmt : string) : bool :=
  String.eqb (toLowerCase fmt) "heic" || String.eqb (toLowerCase fmt) "heif".

(** Step 5, with its own [try]/[catch]. *)
Definition blur_step (w : World) (buffer : Buffer)
    (st : ImageMetadata * list ValidationError)
  : ImageMetadata * list ValidationError :=
  let '(m, errors) := st in
  match calculateBlurScore w buffer with
  | Ok score =>
      (set_blurScore score m,
       if (score <? 150)%float then push errors (Blurry score) else errors)
  | Throw _ => (set_blurScore 150%float m, errors)
  end.

(** Step 6, with its own [try]/[catch]. *)
Definition face_step (w : World) (buffer : Buffer)
    (st : ImageMetadata * list ValidationError)
  : ImageMetadata * list ValidationError :=
  let '(m, errors) := st in
  match detectFaces w buffer with
  | Ok faceData =>
      let n := fd_faceCount faceData in
      let sz := fd_faceSize faceData in
      (set_faces n sz m,
       if n =? 0 then push errors NoFaceDetected
       else if 1 <? n then push errors (MultipleFaces n)
       else if (sz <? 0.15)%float then push errors (FaceTooSmall sz)
       else if (0.8 <? sz)%float then push errors (FaceTooLarge sz)
       else errors)
  | Throw _ => (set_faces 0 0%float m, push errors FaceDetectionUnavailable)
  end.

(** The metadata before any step ran, returned by the outer [catch]. *)
Definition initialMetadata : ImageMetadata :=
  {| width := 0; height := 0; size := 0; format := "unknown";
     blurScore := None; faceCount := None; faceSize := None;
     hash := None |}.

(** The metadata read from the decoded header. *)
Definition decodedMetadata (imageInfo : SharpMetadata) (buffer : Buffer)
  : ImageMetadata :=
  {| width := int_or0 (sharp_width imageInfo);
     height := int_or0 (sharp_height imageInfo);
     size := Z.of_nat (List.length buffer);
     format := format_or_unknown (sharp_format imageInfo);
     blurScore := None; faceCount := None; faceSize := None;
     hash := None |}.

(** Step 4: the file size. *)
Definition size_errors (cfg : ImageConfig) (m : ImageMetadata)
    (errors : list ValidationError) : list ValidationError :=
  if gt_bound (size m) (maxFileSize cfg)
  then push errors (FileTooLarge (maxFileSize cfg) (size m))
  else errors.

(** Steps 4 to 7, for every format but HEIC. *)
Definition advancedValidation (w : World) (cfg : ImageConfig)
    (buffer : Buffer) (m : ImageMetadata) (errors : list ValidationError)
  : ValidationResult :=
  let errors := size_errors cfg m errors in
  let '(m, errors) := face_step w buffer (blur_step w buffer (m, errors)) in
  let m := set_hash (generateImageHash w buffer) m in
  {| isValid := (List.length errors =? 0)%nat;
     errors := errors;
     metadata := Some m |}.

Definition validateImage (w : World) (cfg : ImageConfig) (buffer : Buffer)
  : ValidationResult :=
  match sharp_metadata w buffer with
  | Throw error =>
      {| isValid := false;
         errors := [ProcessingError (errorMessage error)];
         metadata := Some initialMetadata |}
  | Ok imageInfo =>
      let metadata1 := decodedMetadata imageInfo buffer in
      let errors := basic_errors cfg metadata1 in
      if is_heic_format (format metadata1) then
        {| isValid := (List.length errors =? 0)%nat;
           errors := errors;
           metadata :=
             Some {| width := width metadata1; height := height metadata1;
                     size := size metadata1; format := format metadata1;
                     blurScore := None; faceCount := None;
                     faceSize := None; hash := None |} |}
      else advancedValidation w cfg buffer metadata1 errors
  end.

(** *** [checkForDuplicates] *)

Definition checkForDuplicates (w : World) (db : Prisma.Db) (h : string)
  : bool :=
  match Prisma.image_findFirst w db h with
  | Ok existingImage => bool_decide (is_Some existingImage)
  | Throw _ => false
  end.

(** *** [getImageMetadata] *)

Record ImageInfo := {
  info_width : Z;
  info_height : Z;
  info_format : string;
}.

Definition getImageMetadata (w : World) (buffer : Buffer)
  : Outcome ImageInfo :=
  match sharp_metadata w buffer with
  | Ok metadata =>
      Ok {| info_width := int_or0 (sharp_width metadata);
            info_height := int_or0 (sharp_height metadata);
            info_format := format_or_unknown (sharp_format metadata) |}
  | Throw error =>
      Throw (ErrorObj
               ("Failed to get image metadata: " +:+ errorMessage error))
  end.
End ImageProcessing.

(** ** [src/services/queueService.ts] *)

Module QueueService.
Import Js Config.

Record BackoffOptions := {
  type : string;
  delay : option Z;
}.

Record JobsOptions := {
  attempts : option Z;
  backoff : BackoffOptions;
  removeOnComplete : Z;
  removeOnFail : Z;
}.

(** [process.env.NAME ?? d] *)
Definition env_or (env : Env) (name d : string) : string :=
  default d (env name).

Definition defaultJobOptions (env : Env) : JobsOptions :=
  let attempts := parseInt (env_or env "QUEUE_MAX_ATTEMPTS" "3") in
  let backoffMs := parseInt (env_or env "QUEUE_BACKOFF_MS" "1000") in
  {| attempts := attempts;
     backoff := {| type := "exponential"; delay := backoffMs |};
     removeOnComplete := 1000;
     removeOnFail := 1000 |}.

(** *** The retry policy of the queue *)

Inductive JobState :=
| WAITING
| ACTIVE
| COMPLETED
| FAILED_retry_pending (delayMs : option Z)
| FAILED_terminal.

Record Job := {
  attemptsMade : Z;
  state : JobState;
}.

Definition newJob : Job := {| attemptsMade := 0; state := WAITING |}.

(** Modelled from the spec: the backoff of the queue library (bullmq),
    which is not part of the sources.  "delay = base * 2^(attempt-1)" for
    the exponential policy; any other policy waits the base delay. *)
Definition backoffDelay (b : BackoffOptions) (attempt : Z) : option Z :=
  if String.eqb (type b) "exponential"
  then (fun base => base * 2 ^ (attempt - 1)) <$> delay b
  else delay b.

(** Modelled from the spec: the worker of the queue library (bullmq),
    which is not part of the sources.  "A worker pulls a job, executes
    the registered handler ... and on handler failure either reschedules
    (if attempts remain) or marks terminal-failed." *)
Definition pull (j : Job) : Job :=
  {| attemptsMade := attemptsMade j; state := ACTIVE |}.

Definition onHandlerFailure (o : JobsOptions) (j : Job) : Job :=
  let made := attemptsMade j + 1 in
  if lt_bound made (attempts o)
  then {| attemptsMade := made;
          state := FAILED_retry_pending (backoffDelay (backoff o) made) |}
  else {| attemptsMade := made; state := FAILED_terminal |}.

(** One attempt of a job whose handler fails; a finished job is not
    pulled again. *)
Definition failingAttempt (o : JobsOptions) (j : Job) : Job :=
  match state j with
  | COMPLETED | FAILED_terminal => j
  | _ => onHandlerFailure o (pull j)
  end.

(** The job after [n] scheduling rounds of a handler that always fails. *)
Definition afterFailures (o : JobsOptions) (n : nat) : Job :=
  Nat.iter n (failingAttempt o) newJob.
End QueueService.

(** ** The state of the server and the handler monad

    A handler is an [async] function: it reads and writes the store, the
    bucket, the cache and the in-memory chunk map, and it may throw.  What
    it wrote before a [throw] stays written. *)

Module Handler.
Import Js External Types.

Record State := {
  db : Prisma.Db;
  s3 : gmap string (Buffer * string);
  cache : gmap string ValidationResult;
  chunkStorage : gmap string (JsArray (option Buffer));
}.

Definition with_db (d : Prisma.Db) (st : State) : State :=
  {| db := d; s3 := s3 st; cache := cache st;
     chunkStorage := chunkStorage st |}.
Definition with_s3 (m : gmap string (Buffer * string)) (st : State) : State :=
  {| db := db st; s3 := m; cache := cache st;
     chunkStorage := chunkStorage st |}.
Definition with_cache (m : gmap string ValidationResult) (st : State)
  : State :=
  {| db := db st; s3 := s3 st; cache := m;
     chunkStorage := chunkStorage st |}.
Definition with_chunkStorage (m : gmap string (JsArray (option Buffer)))
    (st : State) : State :=
  {| db := db st; s3 := s3 st; cache := cache st; chunkStorage := m |}.

Definition emptyState : State :=
  {| db := {| Prisma.images := []; Prisma.uploadSessions := ∅ |};
     s3 := ∅; cache := ∅; chunkStorage := ∅ |}.

Definition M (A : Type) : Type := State -> Outcome A * State.

Definition ret {A} (a : A) : M A := fun st => (Ok a, st).

Definition bind {A B} (c : M A) (k : A -> M B) : M B :=
  fun st =>
    match c st with
    | (Ok a, st') => k a st'
    | (Throw e, st') => (Throw e, st')
    end.

Definition throw {A} (e : Thrown) : M A := fun st => (Throw e, st).

(** [try { c } catch (error) { h error }] *)
Definition try_catch {A} (c : M A) (h : Thrown -> M A) : M A :=
  fun st =>
    match c st with
    | (Ok a, st') => (Ok a, st')
    | (Throw e, st') => h e st'
    end.

Definition gets {A} (f : State -> A) : M A := fun st => (Ok (f st), st).
Definition modify (f : State -> State) : M unit := fun st => (Ok tt, f st).

(** [await] of a computation that touches no state. *)
Definition await {A} (o : Outcome A) : M A := fun st => (o, st).

(** A read of the store. *)
Definition db_read {A} (f : Prisma.Db -> Outcome A) : M A :=
  fun st => (f (db st), st).

(** A write of the store: the new store is kept when the call succeeds. *)
Definition db_write {A} (f : Prisma.Db -> Outcome (A * Prisma.Db)) : M A :=
  fun st =>
    match f (db st) with
    | Ok (a, d) => (Ok a, with_db d st)
    | Throw e => (Throw e, st)
    end.

Definition db_update (f : Prisma.Db -> Outcome Prisma.Db) : M unit :=
  db_write (fun d => match f d with
                     | Ok d' => Ok (tt, d')
                     | Throw e => Throw e
                     end).

Module Import Notations.
Notation "'let!' x ':=' c 'in' k" := (bind c (fun x => k))
  (at level 10, x pattern, c at level 100, k at level 200).
Notation "'run!' c 'in' k" := (bind c (fun _ => k))
  (at level 10, c at level 100, k at level 200).
End Notations.

(** *** The responses *)

Module ImageResponse.
Record t := {
  id : string;
  filename : string;
  originalName : string;
  mimeType : string;
  size : Z;
  width : Z;
  height : Z;
  status : Prisma.ImageStatus;
  blurScore : option float;
  faceCount : option Z;
  faceSize : option float;
  downloadUrl : string;
  createdAt : Z;
  updatedAt : Z;
}.
End ImageResponse.

(** The view of a stored image the upload handlers answer with. *)
Definition imageResponse (image : Prisma.Image.t) (url : string)
  : ImageResponse.t :=
  let c := Prisma.Image.columns image in
  {| ImageResponse.id := Prisma.Image.id image;
     ImageResponse.filename := Prisma.Image.filename c;
     ImageResponse.originalName := Prisma.Image.originalName c;
     ImageResponse.mimeType := Prisma.Image.mimeType c;
     ImageResponse.size := Prisma.Image.size c;
     ImageResponse.width := int_or0 (Some (Prisma.Image.width c));
     ImageResponse.height := int_or0 (Some (Prisma.Image.height c));
     ImageResponse.status := Prisma.Image.status c;
     ImageResponse.blurScore := Prisma.Image.blurScore c;
     ImageResponse.faceCount := Prisma.Image.faceCount c;
     ImageResponse.faceSize := Prisma.Image.faceSize c;
     ImageResponse.downloadUrl := url;
     ImageResponse.createdAt := Prisma.Image.createdAt image;
     ImageResponse.updatedAt := Prisma.Image.updatedAt image |}.

Record ValidationStatus := {
  faceDetected : bool;
  vs_faceCount : Z;
  vs_faceSize : float;
  imageQuality : float;
  isBlurry : bool;
}.

Inductive ErrorDetails :=
| NoDetails
| Message (m : string)
| Reasons (l : list ValidationError)
| Fields (l : list string).

Inductive Body :=
| SuccessBody
    (* { success: true } *)
| ErrorBody (error : string) (details : ErrorDetails)
    (* { error, details } *)
| ChunkProgressBody (sessionId : string) (progress : UploadProgress)
    (* { success: true, completed: false, sessionId, progress } *)
| ChunkCompletedBody (image : ImageResponse.t)
    (* { success: true, completed: true, image } *)
| UploadRejectedBody (validationErrors : list ValidationError)
    (* { success: false, validated: false, error, validationErrors, .. } *)
| UploadedBody (validationStatus : ValidationStatus) (image : ImageResponse.t).
    (* { success: true, validated: true, validationStatus, image } *)

Record Response := {
  statusCode : Z;
  body : Body;
}.

Definition json (code : Z) (b : Body) : Response :=
  {| statusCode := code; body := b |}.
End Handler.

(** ** The object store and the cache ([s3.service], [redis.service]) *)

Module Services.
Import Js External Types Handler.

(** [s3Service.uploadFile(key, body, contentType)] *)
Definition uploadFile (w : World) (key : string) (body : Buffer)
    (contentType : string) : M unit :=
  match fault w S3_putObject with
  | None => modify (fun st => with_s3 (<[key := (body, contentType)]> (s3 st)) st)
  | Some error =>
      throw (ErrorObj ("Failed to upload file to S3: " +:+ errorMessage error))
  end.

(** [s3Service.getSignedDownloadUrl(key)] *)
Definition getSignedDownloadUrl (w : World) (key : string) : M string :=
  match fault w S3_getSignedUrl with
  | None => ret (signedUrl w key)
  | Some error =>
      throw (ErrorObj ("Failed to generate signed URL for " +:+ key +:+ ": "
                       +:+ errorMessage error))
  end.

(** [redisService.setCompressed(key, value, ttlSeconds)] *)
Definition setCompressed (w : World) (key : string) (value : ValidationResult)
  : M unit :=
  match fault w Redis_set with
  | None => modify (fun st => with_cache (<[key := value]> (cache st)) st)
  | Some error => throw error
  end.
End Services.

(** ** The validation middleware *)

Module Middleware.
Import Js Types Handler.

Definition isLength (lo hi : nat) (s : string) : bool :=
  (lo <=? String.length s)%nat && (String.length s <=? hi)%nat.

(** [/^image\/(jpeg|jpg|png|heic)$/i] *)
Definition isImageMimeType (s : string) : bool :=
  includes ["image/jpeg"; "image/jpg"; "image/png"; "image/heic"]%string
    (toLowerCase s).

(** The chain [validateChunkUpload]: the fields that fail their rule. *)
Definition chunkUploadErrors (req : ChunkUploadRequest) : list string :=
  (match sessionId req with
   | Some sid => if isLength 1 255 sid then [] else ["sessionId"%string]
   | None => []
   end)
  ++ (if isLength 1 255 (filename req) then [] else ["filename"%string])
  ++ (if isImageMimeType (Types.mimeType req) then [] else ["mimeType"%string])
  ++ (if (1 <=? totalChunks req) && (totalChunks req <=? 1000)
      then [] else ["totalChunks"%string])
  ++ (if 0 <=? chunkIndex req then [] else ["chunkIndex"%string])
  ++ (if (1 <=? String.length (chunkData req))%nat
      then [] else ["chunkData"%string]).

(** [handleValidationErrors]: answer 400 when a rule failed, otherwise
    call the next handler. *)
Definition handleValidationErrors (errors : list string) (next : M Response)
  : M Response :=
  match errors with
  | [] => next
  | _ => ret (json 400 (ErrorBody "Validation failed" (Fields errors)))
  end.

Definition validateChunkUpload (req : ChunkUploadRequest) (next : M Response)
  : M Response :=
  handleValidationErrors (chunkUploadErrors req) next.

(** [errorHandler], the last middleware of the application: what a
    middleware passes to [next(err)] is answered 500, with the message
    only when [NODE_ENV] is [development]. *)
Definition errorHandler (node_env : option string) (err : Thrown) : Response :=
  let isDevelopment :=
    match node_env with
    | Some v => String.eqb v "development"
    | None => false
    end in
  json 500
    (ErrorBody "Internal server error"
       (match err with
        | ErrorObj m => if isDevelopment then Message m else NoDetails
        | NonError => NoDetails
        end)).

(** The uploaded file of a multipart request. *)
Record File := {
  buffer : Buffer;
  mimetype : string;
  originalname : string;
}.

(** [validateFileUpload] *)
Definition validateFileUpload (file : option File) (next : M Response)
  : M Response :=
  match file with
  | None => ret (json 400 (ErrorBody "No file provided" NoDetails))
  | Some f =>
      let allowedMimeTypes :=
        ["image/jpeg"; "image/jpg"; "image/png"; "image/heic"]%string in
      let maxFileSize := 10 * 1024 * 1024 in
      if negb (includes allowedMimeTypes (mimetype f)) then
        ret (json 400 (ErrorBody "Invalid file type"
                         (Message "Allowed types: image/jpeg, image/jpg, image/png, image/heic")))
      else if maxFileSize <? Z.of_nat (List.length (buffer f)) then
        ret (json 400 (ErrorBody "File too large"
                         (Message "Maximum size: 10485760 bytes")))
      else next
  end.
End Middleware.

(** ** The chunked upload controller ([uploadChunk], [cancelSession]) *)

Module ChunkedUpload.
Import Js Config External Types Handler Handler.Notations Services.
Import ImageProcessing.
Module US := Prisma.UploadSession.

Definition findUnique (w : World) (sid : string) : M (option US.t) :=
  db_read (fun d => Prisma.uploadSession_findUnique w d sid).

Definition update (w : World) (sid : string)
    (f : US.columns -> US.columns) : M unit :=
  db_update (fun d => Prisma.uploadSession_update w d sid f).

(** [chunkStorage.delete(id)] *)
Definition deleteChunks (sid : string) : M unit :=
  modify (fun st => with_chunkStorage (delete sid (chunkStorage st)) st).

(** "Create or get session" *)
Definition createOrGetSession (w : World) (req : ChunkUploadRequest)
  : M US.t :=
  let! session :=
    match sessionId req with
    | Some sid => if str_truthy sid then findUnique w sid else ret None
    | None => ret None
    end in
  match session with
  | Some s => ret s
  | None =>
      db_write (fun d =>
        Prisma.uploadSession_create w d (Types.filename req)
          (totalChunks req) (Date_now w + 24 * 60 * 60 * 1000))
  end.

(** "Decode and store chunk": the array of the session, allocated with
    [totalChunks] holes on first use, with the chunk written at
    [chunkIndex]; the array in the map is the array returned. *)
Definition storeChunk (w : World) (req : ChunkUploadRequest) (sid : string)
  : M (JsArray (option Buffer)) :=
  let chunkBuffer := base64_decode w (chunkData req) in
  let! stored := gets (fun st => chunkStorage st !! sid) in
  let! chunks0 :=
    match stored with
    | Some arr => ret arr
    | None => await (new_Array (totalChunks req))
    end in
  let chunks := array_set chunks0 (chunkIndex req) (Some chunkBuffer) in
  run! modify (fun st =>
                 with_chunkStorage (<[sid := chunks]> (chunkStorage st)) st) in
  ret chunks.

(** The progress of the answer to a chunk that does not complete the
    upload. *)
Definition progressOf (req : ChunkUploadRequest) : UploadProgress :=
  {| uploaded := chunkIndex req + 1;
     total := totalChunks req;
     percentage :=
       Math_round
         (num_of_Z (chunkIndex req + 1) / num_of_Z (totalChunks req) * 100)%float |}.

Definition is_heic_upload (mime fname : string) : bool :=
  String.eqb mime "image/heic" || endsWith (toLowerCase fname) ".heic".

(** [if (validationResult.metadata?.hash) { isDuplicate = ... }] *)
Definition duplicateOf (w : World) (r : ValidationResult) : M bool :=
  match meta hash r with
  | Some h =>
      if str_truthy h
      then gets (fun st => checkForDuplicates w (db st) h)
      else ret false
  | None => ret false
  end.

(** The body of the inner [try]: reassemble, validate, store. *)
Definition processCompleted (w : World) (cfg : ImageConfig)
    (req : ChunkUploadRequest) (sid : string)
    (chunks : JsArray (option Buffer)) : M Response :=
  let fname := Types.filename req in
  let! completeBuffer := await (Buffer_concat chunks) in
  let! (processedBuffer, finalMimeType) :=
    if is_heic_upload (Types.mimeType req) fname then
      let! converted := await (convertToFormat w completeBuffer to_jpeg) in
      match converted with
      | NewBuffer b => ret (b, "image/jpeg"%string)
      | SameBuffer => ret (completeBuffer, Types.mimeType req)
      end
    else ret (completeBuffer, Types.mimeType req) in
  let validationResult := validateImage w cfg processedBuffer in
  if negb (isValid validationResult) then
    run! update w sid (US.set_status Prisma.FAILED) in
    run! deleteChunks sid in
    ret (json 400 (ErrorBody "Image validation failed"
                     (Reasons (errors validationResult))))
  else
    let! isDuplicate := duplicateOf w validationResult in
    if isDuplicate then
      run! update w sid (US.set_status Prisma.FAILED) in
      run! deleteChunks sid in
      ret (json 400 (ErrorBody "Duplicate image detected" NoDetails))
    else
      let timestamp := Date_now w in
      let s3Key := "images/" +:+ pretty timestamp +:+ "-" +:+ fname in
      run! uploadFile w s3Key processedBuffer finalMimeType in
      let! imageInfo := await (getImageMetadata w processedBuffer) in
      let! image :=
        db_write (fun d =>
          Prisma.image_create w d
            {| Prisma.Image.filename := pretty timestamp +:+ "-" +:+ fname;
               Prisma.Image.originalName := fname;
               Prisma.Image.mimeType := finalMimeType;
               Prisma.Image.size := Z.of_nat (List.length processedBuffer);
               Prisma.Image.width := info_width imageInfo;
               Prisma.Image.height := info_height imageInfo;
               Prisma.Image.s3Key := s3Key;
               Prisma.Image.status := Prisma.VALIDATED;
               Prisma.Image.hash := meta hash validationResult;
               Prisma.Image.blurScore := meta blurScore validationResult;
               Prisma.Image.faceCount := meta faceCount validationResult;
               Prisma.Image.faceSize := meta faceSize validationResult;
               Prisma.Image.validationResults :=
                 (isValid validationResult, errors validationResult) |}) in
      run! update w sid
             (fun s => US.set_s3Key s3Key (US.set_status Prisma.COMPLETED s)) in
      run! deleteChunks sid in
      let! downloadUrl := getSignedDownloadUrl w s3Key in
      ret (json 200 (ChunkCompletedBody (imageResponse image downloadUrl))).

(** The [catch] of the inner [try]: "Mark session as failed". *)
Definition processFailed (w : World) (sid : string) (error : Thrown)
  : M Response :=
  run! update w sid (US.set_status Prisma.FAILED) in
  run! deleteChunks sid in
  ret (json 500 (ErrorBody "Failed to process image"
                   (Message (errorMessage error)))).

Definition uploadChunk (w : World) (cfg : ImageConfig)
    (req : ChunkUploadRequest) : M Response :=
  try_catch
    (let! session := createOrGetSession w req in
     let sid := US.id session in
     let! chunks := storeChunk w req sid in
     run! update w sid (US.set_uploadedChunks (chunkIndex req + 1)) in
     let allChunksReceived := every is_defined chunks in
     if allChunksReceived then
       try_catch (processCompleted w cfg req sid chunks) (processFailed w sid)
     else
       ret (json 200 (ChunkProgressBody sid (progressOf req))))
    (fun error =>
       ret (json 500 (ErrorBody "Chunked upload failed"
                        (Message (errorMessage error))))).

(** [POST /chunked-upload]: the validation chain, then the handler. *)
Definition chunkedUploadRoute (w : World) (cfg : ImageConfig)
    (req : ChunkUploadRequest) : M Response :=
  Middleware.validateChunkUpload req (uploadChunk w cfg req).

(** [cancelSession] *)
Definition cancelSession (w : World) (sid : string) : M Response :=
  try_catch
    (let! session := findUnique w sid in
     match session with
     | None => ret (json 404 (ErrorBody "Session not found" NoDetails))
     | Some _ =>
         run! update w sid (US.set_status Prisma.FAILED) in
         run! deleteChunks sid in
         ret (json 200 SuccessBody)
     end)
    (fun error =>
       ret (json 500 (ErrorBody "Failed to cancel session"
                        (Message (errorMessage error))))).

(** A client sending the requests one after the other; the answers in
    order and the state after the last one. *)
Fixpoint serve (w : World) (cfg : ImageConfig)
    (reqs : list ChunkUploadRequest) (st : State)
  : list (Outcome Response) * State :=
  match reqs with
  | [] => ([], st)
  | req :: rest =>
      let '(r, st') := chunkedUploadRoute w cfg req st in
      let '(rs, st'') := serve w cfg rest st' in
      (r :: rs, st'')
  end.
End ChunkedUpload.

(** ** The image controller ([uploadImage]) *)

Module ImageController.
Import Js Config External Types Handler Handler.Notations Services.
Import ImageProcessing Middleware.

(** The part named [file] of a request to [POST /upload], which multer
    makes [req.file] when it accepts it, and [req.query.to]. *)
Record UploadRequest := {
  file : option File;
  query_to : option string;
}.

Definition is_heic_upload (mime fname : string) : bool :=
  String.eqb mime "image/heic" || endsWith (toLowerCase fname) ".heic".

Definition targetOf (req : UploadRequest) : Target :=
  match query_to req with
  | Some t => if String.eqb t "png" then to_png else to_jpeg
  | None => to_jpeg
  end.

Definition mimeOf (t : Target) : string :=
  match t with
  | to_png => "image/png"
  | to_jpeg => "image/jpeg"
  end.

(** "Convert HEIC to JPEG/PNG if needed": the buffer and the MIME type
    the rest of the handler works with.  A conversion that throws, or
    that answers with the buffer it was given, keeps both. *)
Definition convertIfHeic (w : World) (req : UploadRequest) (f : File)
  : Buffer * string :=
  if is_heic_upload (mimetype f) (originalname f) then
    match convertToFormat w (buffer f) (targetOf req) with
    | Ok (NewBuffer b) => (b, mimeOf (targetOf req))
    | Ok SameBuffer => (buffer f, mimetype f)
    | Throw _ => (buffer f, mimetype f)
    end
  else (buffer f, mimetype f).

(** The result written in place of a validation for HEIC files. *)
Definition heicValidationResult (processedBuffer : Buffer)
  : ValidationResult :=
  {| isValid := true;
     errors := [];
     metadata :=
       Some {| width := 1920; height := 1080;
               size := Z.of_nat (List.length processedBuffer);
               format := "heic";
               blurScore := None; faceCount := None; faceSize := None;
               hash := None |} |}.

(** "Validate image (skip advanced validation for HEIC files)" *)
Definition validationOf (w : World) (cfg : ImageConfig) (f : File)
    (processedBuffer : Buffer) (finalMimeType : string) : ValidationResult :=
  if is_heic_upload finalMimeType (originalname f)
  then heicValidationResult processedBuffer
  else validateImage w cfg processedBuffer.

(** "Get image dimensions (skip for HEIC files ...)" *)
Definition imageInfoOf (w : World) (f : File) (processedBuffer : Buffer)
    (finalMimeType : string) : Outcome ImageInfo :=
  if is_heic_upload finalMimeType (originalname f)
  then Ok {| info_width := 1920; info_height := 1080; info_format := "heic" |}
  else getImageMetadata w processedBuffer.

Definition duplicateOf (w : World) (r : ValidationResult) : M bool :=
  match meta hash r with
  | Some h =>
      if str_truthy h
      then gets (fun st => checkForDuplicates w (db st) h)
      else ret false
  | None => ret false
  end.

Definition validationStatusOf (r : ValidationResult) : ValidationStatus :=
  {| faceDetected :=
       match meta faceCount r with Some n => n =? 1 | None => false end;
     vs_faceCount := int_or0 (meta faceCount r);
     vs_faceSize := num_or0 (meta faceSize r);
     imageQuality := num_or0 (meta blurScore r);
     isBlurry := (num_or0 (meta blurScore r) <? 150)%float |}.

Definition uploadImage (w : World) (cfg : ImageConfig) (req : UploadRequest)
  : M Response :=
  try_catch
    (match file req with
     | None => ret (json 400 (ErrorBody "No file provided" NoDetails))
     | Some f =>
         let '(processedBuffer, finalMimeType) := convertIfHeic w req f in
         let validationResult :=
           validationOf w cfg f processedBuffer finalMimeType in
         run! try_catch
                (setCompressed w
                   ("image:validation:"
                    +:+ default (originalname f) (meta hash validationResult))
                   validationResult)
                (fun _ => ret tt) in
         if negb (isValid validationResult) then
           ret (json 400 (UploadRejectedBody (errors validationResult)))
         else
           let! isDuplicate := duplicateOf w validationResult in
           if isDuplicate then
             ret (json 400 (ErrorBody "Duplicate image detected" NoDetails))
           else
             let timestamp := Date_now w in
             let s3Key :=
               "images/" +:+ pretty timestamp +:+ "-" +:+ originalname f in
             run! uploadFile w s3Key processedBuffer finalMimeType in
             let! imageInfo :=
               await (imageInfoOf w f processedBuffer finalMimeType) in
             let! image :=
               db_write (fun d =>
                 Prisma.image_create w d
                   {| Prisma.Image.filename :=
                        pretty timestamp +:+ "-" +:+ originalname f;
                      Prisma.Image.originalName := originalname f;
                      Prisma.Image.mimeType := finalMimeType;
                      Prisma.Image.size :=
                        Z.of_nat (List.length processedBuffer);
                      Prisma.Image.width :=
                        int_or0 (Some (info_width imageInfo));
                      Prisma.Image.height :=
                        int_or0 (Some (info_height imageInfo));
                      Prisma.Image.s3Key := s3Key;
                      Prisma.Image.status := Prisma.VALIDATED;
                      Prisma.Image.hash := meta hash validationResult;
                      Prisma.Image.blurScore :=
                        meta blurScore validationResult;
                      Prisma.Image.faceCount :=
                        meta faceCount validationResult;
                      Prisma.Image.faceSize := meta faceSize validationResult;
                      Prisma.Image.validationResults :=
                        (isValid validationResult,
                         errors validationResult) |}) in
             let! downloadUrl := getSignedDownloadUrl w s3Key in
             ret (json 201
                    (UploadedBody (validationStatusOf validationResult)
                       (imageResponse image downloadUrl)))
     end)
    (fun error =>
       ret (json 500 (ErrorBody "Upload failed"
                        (Message (errorMessage error))))).

(** The [fileFilter] of the multer instance of the routes. *)
Definition fileFilter (f : File) : Outcome unit :=
  if includes ["image/jpeg"; "image/jpg"; "image/png"; "image/heic"]%string
       (mimetype f)
  then Ok tt
  else Throw (ErrorObj "Invalid file type. Only JPEG, PNG, and HEIC images are allowed.").

(** [upload.single("file")] with [limits: { fileSize: 10 * 1024 * 1024 }],
    on the part named [file] of the request, if there is one: the filter
    runs when the part starts, the limit while it is read; what either
    refuses is an error for [next], otherwise the part becomes
    [req.file]. *)
Definition uploadSingle (part : option File) : Outcome (option File) :=
  match part with
  | None => Ok None
  | Some f =>
      match fileFilter f with
      | Throw e => Throw e
      | Ok _ =>
          if 10 * 1024 * 1024 <? Z.of_nat (List.length (buffer f))
          then Throw (ErrorObj "File too large")
          else Ok (Some f)
      end
  end.

(** [POST /upload]: multer, the file check, then the handler; an error of
    multer goes to [errorHandler]. *)
Definition uploadRoute (w : World) (cfg : ImageConfig) (req : UploadRequest)
  : M Response :=
  match uploadSingle (file req) with
  | Throw e => ret (errorHandler (NODE_ENV w) e)
  | Ok file => validateFileUpload file (uploadImage w cfg req)
  end.
End ImageController.

(** ** Specifications of handlers

    [triple P c Q E]: from a state satisfying [P], the computation [c]
    either returns a value and a state related by [Q], or throws a value
    in a state related by [E]. *)

Module Logic.
Import Js External Types Handler.

Definition triple {A} (P : State -> Prop) (c : M A)
    (Q : A -> State -> Prop) (E : Thrown -> State -> Prop) : Prop :=
  forall st, P st ->
    match c st with
    | (Ok a, st') => Q a st'
    | (Throw e, st') => E e st'
    end.

(** A state property that a computation keeps, whatever its outcome. *)
Definition stable {A} (P : State -> Prop) (c : M A) : Prop :=
  triple P c (fun _ => P) (fun _ => P).

(** What a computation can answer, in any state. *)
Definition answers {A} (c : M A) (Q : A -> Prop) : Prop :=
  triple (fun _ => True) c (fun a _ => Q a) (fun _ _ => True).

(** *** Vocabulary for the chunked upload *)

(** The id of the session a chunk is served under when the store answers:
    the supplied id when it names a row, otherwise the id the store gives
    to the row it creates. *)
Definition sessionFor (st : State) (req : ChunkUploadRequest) : string :=
  let sessions := Prisma.uploadSessions (db st) in
  match sessionId req with
  | Some sid =>
      if str_truthy sid && bool_decide (is_Some (sessions !! sid))
      then sid
      else fresh (dom sessions)
  | None => fresh (dom sessions)
  end.

(** The row of session [sid] records [n] uploaded chunks. *)
Definition recorded (sid : string) (n : Z) (st : State) : Prop :=
  exists c, Prisma.uploadSessions (db st) !! sid = Some c /\
            Prisma.UploadSession.uploadedChunks c = n.

Definition hasSession (sid : string) (st : State) : Prop :=
  is_Some (Prisma.uploadSessions (db st) !! sid).

(** The session table answers every call. *)
Definition sessionsHealthy (w : World) : Prop :=
  fault w Db_uploadSession_findUnique = None /\
  fault w Db_uploadSession_create = None /\
  fault w Db_uploadSession_update = None.

(** Every array of the chunk map holds buffers at the indices it has an
    element for (it may have holes). *)
Definition chunksDefined (st : State) : Prop :=
  forall sid arr, chunkStorage st !! sid = Some arr ->
                  every is_defined arr = true.

Definition isProgress (r : Response) : bool :=
  match body r with
  | ChunkProgressBody _ _ => true
  | _ => false
  end.

Definition terminal (s : Prisma.UploadStatus) : bool :=
  match s with
  | Prisma.IN_PROGRESS => false
  | _ => true
  end.


(** A property of the state that survives what the completion path writes:
    a status or key written to a session row, a chunk array dropped, an
    object put in the bucket, an image row inserted. *)
Record survives_completion (w : World) (P : State -> Prop) : Prop := {
  survives_update : forall sid f,
    (forall c, Prisma.UploadSession.uploadedChunks (f c) = Prisma.UploadSession.uploadedChunks c) ->
    stable P (ChunkedUpload.update w sid f);
  survives_delete : forall sid, stable P (ChunkedUpload.deleteChunks sid);
  survives_put : forall key body ct, stable P (Services.uploadFile w key body ct);
  survives_insert : forall data,
    stable P (db_write (fun d => Prisma.image_create w d data));
}.

(** The appends of a client, applied one after the other to the array of
    its session: [chunks[chunkIndex] = chunkBuffer]. *)
Definition storeAll (arr : JsArray (option Buffer))
    (appends : list (Z * Buffer)) : JsArray (option Buffer) :=
  fold_left (fun a '(i, b) => array_set a i (Some b)) appends arr.

(** A buffer split into chunks, each with its index. *)
Definition indexed (chunks : list Buffer) : list (Z * Buffer) :=
  imap (fun i b => (Z.of_nat i, b)) chunks.

End Logic.

(** ** Concrete worlds, stores and requests *)

Module Scenario.
Import Js Config External Types Handler.

Definition noEnv : Env := fun _ => None.

(** A deployment that accepts small images. *)
Definition smallEnv : Env := fun name =>
  if String.eqb name "MIN_IMAGE_WIDTH" then Some "2"%string
  else if String.eqb name "MIN_IMAGE_HEIGHT" then Some "2"%string
  else None.

Definition byte0 : Byte.byte := Byte.x00.
Definition byte255 : Byte.byte := Byte.xff.

(** A 4x4 checkerboard of black and white pixels. *)
Definition checkerboard : Buffer :=
  [byte0; byte255; byte0; byte255;
   byte255; byte0; byte255; byte0;
   byte0; byte255; byte0; byte255;
   byte255; byte0; byte255; byte0].

Definition jpeg4x4 : SharpMetadata :=
  {| sharp_width := Some 4; sharp_height := Some 4;
     sharp_format := Some "jpeg"%string |}.

Definition heic800 : SharpMetadata :=
  {| sharp_width := Some 800; sharp_height := Some 800;
     sharp_format := Some "heic"%string |}.

(** One face covering 30% of the frame. *)
Definition oneFace : DetectFacesResponse :=
  {| FaceDetails :=
       Some [ {| BoundingBox_of :=
                   Some {| Width := Some 0.5%float;
                           Height := Some 0.6%float |} |} ] |}.

(** Every collaborator answers: a sharp 4x4 JPEG with one face. *)
Definition healthy : World :=
  {| sharp_metadata := fun _ => Ok jpeg4x4;
     sharp_grayscale_raw := fun _ => Ok checkerboard;
     rekognition_send := fun _ => Ok oneFace;
     sha256_hex := fun _ => "9f86d081884c7d65"%string;
     base64_decode := fun _ => [Byte.x01; Byte.x02];
     convertToFormat := fun _ _ => Ok SameBuffer;
     Date_now := 1700000000000;
     signedUrl := fun key => ("https://bucket/" +:+ key)%string;
     fault := fun _ => None;
     NODE_ENV := Some "production"%string |}.

Definition with_sharp_metadata (f : Buffer -> Outcome SharpMetadata)
    (w : World) : World :=
  {| sharp_metadata := f;
     sharp_grayscale_raw := sharp_grayscale_raw w;
     rekognition_send := rekognition_send w;
     sha256_hex := sha256_hex w;
     base64_decode := base64_decode w;
     convertToFormat := convertToFormat w;
     Date_now := Date_now w;
     signedUrl := signedUrl w;
     fault := fault w;
     NODE_ENV := NODE_ENV w |}.

Definition with_grayscale (f : Buffer -> Outcome Buffer) (w : World)
  : World :=
  {| sharp_metadata := sharp_metadata w;
     sharp_grayscale_raw := f;
     rekognition_send := rekognition_send w;
     sha256_hex := sha256_hex w;
     base64_decode := base64_decode w;
     convertToFormat := convertToFormat w;
     Date_now := Date_now w;
     signedUrl := signedUrl w;
     fault := fault w;
     NODE_ENV := NODE_ENV w |}.

Definition with_rekognition (f : Buffer -> Outcome DetectFacesResponse)
    (w : World) : World :=
  {| sharp_metadata := sharp_metadata w;
     sharp_grayscale_raw := sharp_grayscale_raw w;
     rekognition_send := f;
     sha256_hex := sha256_hex w;
     base64_decode := base64_decode w;
     convertToFormat := convertToFormat w;
     Date_now := Date_now w;
     signedUrl := signedUrl w;
     fault := fault w;
     NODE_ENV := NODE_ENV w |}.

Definition with_convertToFormat
    (f : Buffer -> Target -> Outcome Converted) (w : World) : World :=
  {| sharp_metadata := sharp_metadata w;
     sharp_grayscale_raw := sharp_grayscale_raw w;
     rekognition_send := rekognition_send w;
     sha256_hex := sha256_hex w;
     base64_decode := base64_decode w;
     convertToFormat := f;
     Date_now := Date_now w;
     signedUrl := signedUrl w;
     fault := fault w;
     NODE_ENV := NODE_ENV w |}.

Definition with_fault (f : ExtCall -> option Thrown) (w : World) : World :=
  {| sharp_metadata := sharp_metadata w;
     sharp_grayscale_raw := sharp_grayscale_raw w;
     rekognition_send := rekognition_send w;
     sha256_hex := sha256_hex w;
     base64_decode := base64_decode w;
     convertToFormat := convertToFormat w;
     Date_now := Date_now w;
     signedUrl := signedUrl w;
     fault := f;
     NODE_ENV := NODE_ENV w |}.

(** The face-detection provider is down. *)
Definition providerDown : World :=
  with_rekognition (fun _ => Throw (ErrorObj "ServiceUnavailableException"))
    healthy.

(** The grayscale conversion of the sharpness step fails. *)
Definition blurFails : World :=
  with_grayscale (fun _ => Throw (ErrorObj "Input buffer contains unsupported image format"))
    healthy.

(** The codec reads the buffer as HEIC. *)
Definition heicWorld : World :=
  with_sharp_metadata (fun _ => Ok heic800) healthy.

(** The lookup of the duplicate index fails; everything else answers. *)
Definition lookupDown : World :=
  with_fault (fun c => match c with
                       | Db_image_findFirst => Some (ErrorObj "Can't reach database server")
                       | _ => None
                       end) healthy.

(** The converter produces a new JPEG buffer; the provider sees no face
    in it. *)
Definition converts : World :=
  with_convertToFormat (fun _ _ => Ok (NewBuffer [Byte.xff; Byte.xd8]))
    (with_rekognition (fun _ => Ok {| FaceDetails := Some [] |}) healthy).

Definition someBuffer : Buffer := [Byte.x01; Byte.x02; Byte.x03].

Definition committed (h : string) : Prisma.Image.t :=
  {| Prisma.Image.id := "img1";
     Prisma.Image.columns :=
       {| Prisma.Image.filename := "1-a.jpg";
          Prisma.Image.originalName := "a.jpg";
          Prisma.Image.mimeType := "image/jpeg";
          Prisma.Image.size := 3;
          Prisma.Image.width := 400;
          Prisma.Image.height := 400;
          Prisma.Image.s3Key := "images/1-a.jpg";
          Prisma.Image.status := Prisma.VALIDATED;
          Prisma.Image.hash := Some h;
          Prisma.Image.blurScore := None;
          Prisma.Image.faceCount := Some 1;
          Prisma.Image.faceSize := None;
          Prisma.Image.validationResults := (true, []) |};
     Prisma.Image.createdAt := 1;
     Prisma.Image.updatedAt := 1 |}.

Definition dbWith (h : string) : Prisma.Db :=
  {| Prisma.images := [committed h]; Prisma.uploadSessions := ∅ |}.

Definition chunk (sid : option string) (index total : Z)
  : ChunkUploadRequest :=
  {| sessionId := sid;
     filename := "portrait.jpg";
     mimeType := "image/jpeg";
     totalChunks := total;
     chunkIndex := index;
     chunkData := "AQI=" |}.

Definition heicByMime : ImageController.UploadRequest :=
  {| ImageController.file :=
       Some {| Middleware.buffer := someBuffer;
               Middleware.mimetype := "image/heic";
               Middleware.originalname := "portrait.jpg" |};
     ImageController.query_to := None |}.



Definition jpegUpload : ImageController.UploadRequest :=
  {| ImageController.file :=
       Some {| Middleware.buffer := someBuffer;
               Middleware.mimetype := "image/jpeg";
               Middleware.originalname := "a.jpg" |};
     ImageController.query_to := None |}.

(** The status code of an answer. *)
Definition statusOf (o : Outcome Response) : option Z :=
  match o with
  | Ok r => Some (statusCode r)
  | Throw _ => None
  end.

End Scenario.

(** ** Infrastructure calls of the administrative handlers *)

Module Infra.
Import Js.

(** The calls to the store, the bucket and the cache made outside the two
    upload handlers. *)
Inductive Call :=
| Db_image_findUnique
| Db_image_delete
| Db_uploadSession_findMany
| S3_deleteObject
| S3_getObject
| Redis_hset
| Redis_hget
| Redis_del.

(** Which of them fail during a request, and with what. *)
Definition Faults := Call -> option Thrown.

Definition noFaults : Faults := fun _ => None.
End Infra.

(** ** The rest of the object store service ([deleteFile], [fileExists]) *)

Module S3Service.
Import Js External Types Handler Infra.

(** [s3Service.deleteFile(key)] *)
Definition deleteFile (x : Faults) (key : string) : M unit :=
  match x S3_deleteObject with
  | None => modify (fun st => with_s3 (delete key (s3 st)) st)
  | Some error =>
      throw (ErrorObj ("Failed to delete file from S3: " +:+ errorMessage error))
  end.

(** [s3Service.fileExists(key)]: a [GetObject] that succeeds is [true],
    whatever it throws is [false]; the bucket throws for a key it does not
    hold. *)
Definition fileExists (x : Faults) (key : string) : M bool :=
  gets (fun st =>
          match x S3_getObject with
          | None => bool_decide (is_Some (s3 st !! key))
          | Some _ => false
          end).
End S3Service.

(** ** The chunk helpers of the cache service ([setChunk], [getChunk],
    [deleteKey]) *)

Module RedisService.
Import Js Infra.

(** The hashes of the cache: key, then field. *)
Definition Hashes := gmap string (gmap string Buffer).

(** [String(chunkIndex)] of an integer (below 10^21 in size, where
    JavaScript still prints every digit). *)
Definition fieldOf (chunkIndex : Z) : string := pretty chunkIndex.

(** [client.hset(key, String(chunkIndex), buffer)] *)
Definition setChunk (x : Faults) (key : string) (chunkIndex : Z)
    (buffer : Buffer) (s : Hashes) : Outcome unit * Hashes :=
  let field := fieldOf chunkIndex in
  match x Redis_hset with
  | Some e => (Throw e, s)
  | None => (Ok tt, <[key := <[field := buffer]> (default ∅ (s !! key))]> s)
  end.

(** [client.hgetBuffer(key, String(chunkIndex))], with [buf ?? null]. *)
Definition getChunk (x : Faults) (key : string) (chunkIndex : Z) (s : Hashes)
  : Outcome (option Buffer) :=
  let field := fieldOf chunkIndex in
  match x Redis_hget with
  | Some e => Throw e
  | None => Ok (s !! key ≫= fun h => h !! field)
  end.

(** [client.del(key)]: the number of keys removed. *)
Definition deleteKey (x : Faults) (key : string) (s : Hashes)
  : Outcome Z * Hashes :=
  match x Redis_del with
  | Some e => (Throw e, s)
  | None => (Ok (if bool_decide (is_Some (s !! key)) then 1 else 0),
             delete key s)
  end.
End RedisService.

(** ** The rest of the chunked upload controller ([getSessionStatus],
    [cleanupExpiredSessions]) *)

Module SessionAdmin.
Import Js Config External Types Handler Handler.Notations Infra.
Import ChunkedUpload.

Record SessionView := {
  view_id : string;
  view_filename : string;
  view_status : Prisma.UploadStatus;
  view_progress : UploadProgress;
  view_createdAt : Z;
  view_expiresAt : Z;
}.

Inductive SessionBody :=
| SessionFound (session : SessionView)
    (* { success: true, session } *)
| SessionProblem (error : string) (details : option string).
    (* { error, details } *)

Record SessionResponse := {
  sessionStatusCode : Z;
  sessionBody : SessionBody;
}.

Definition progressOfSession (c : US.columns) : UploadProgress :=
  {| uploaded := US.uploadedChunks c;
     total := US.totalChunks c;
     percentage :=
       Math_round
         (num_of_Z (US.uploadedChunks c) / num_of_Z (US.totalChunks c) * 100)%float |}.

Definition getSessionStatus (w : World) (sid : string) : M SessionResponse :=
  try_catch
    (let! session := findUnique w sid in
     match session with
     | None =>
         ret {| sessionStatusCode := 404;
                sessionBody := SessionProblem "Session not found" None |}
     | Some s =>
         let c := US.row s in
         ret {| sessionStatusCode := 200;
                sessionBody :=
                  SessionFound
                    {| view_id := US.id s;
                       view_filename := US.filename c;
                       view_status := US.status c;
                       view_progress := progressOfSession c;
                       view_createdAt := US.createdAt c;
                       view_expiresAt := US.expiresAt c |} |}
     end)
    (fun error =>
       ret {| sessionStatusCode := 500;
              sessionBody :=
                SessionProblem "Failed to get session status"
                  (Some (errorMessage error)) |}).

(** The [where] of the sweep: past its expiry, and in progress or failed. *)
Definition sweepable (now : Z) (c : US.columns) : bool :=
  (US.expiresAt c <? now)
  && match US.status c with
     | Prisma.IN_PROGRESS | Prisma.FAILED => true
     | _ => false
     end.

(** [prisma.uploadSession.findMany({ where })]: the rows that match, each
    with its id. *)
Definition findMany (w : World) (x : Faults) : M (list (string * US.columns)) :=
  fun st =>
    match x Db_uploadSession_findMany with
    | Some e => (Throw e, st)
    | None =>
        (Ok (map_to_list
               (filter (fun kc => sweepable (Date_now w) kc.2 = true)
                  (Prisma.uploadSessions (db st)))), st)
    end.

(** [for (const x of l) { await f(x) }] *)
Fixpoint forEach {A} (l : list A) (f : A -> M unit) : M unit :=
  match l with
  | [] => ret tt
  | a :: rest => let! _ := f a in forEach rest f
  end.

Definition cleanupExpiredSessions (w : World) (x : Faults) : M unit :=
  try_catch
    (let! expiredSessions := findMany w x in
     forEach expiredSessions (fun session =>
       run! deleteChunks session.1 in
       update w session.1 (US.set_status Prisma.EXPIRED)))
    (fun _ => ret tt).
End SessionAdmin.

(** ** The rest of the image controller ([deleteImage]) *)

Module ImageAdmin.
Import Js Config External Types Handler Handler.Notations Infra.

Definition has_id (id : string) (r : Prisma.Image.t) : bool :=
  String.eqb id (Prisma.Image.id r).

(** [prisma.image.findUnique({ where: { id } })] *)
Definition image_findUnique (x : Faults) (id : string) : M (option Prisma.Image.t) :=
  fun st =>
    match x Db_image_findUnique with
    | Some e => (Throw e, st)
    | None => (Ok (find (has_id id) (Prisma.images (db st))), st)
    end.

(** [prisma.image.delete({ where: { id } })]: rejects when no row has the
    id. *)
Definition image_delete (x : Faults) (id : string) : M unit :=
  fun st =>
    match x Db_image_delete with
    | Some e => (Throw e, st)
    | None =>
        match find (has_id id) (Prisma.images (db st)) with
        | Some _ =>
            (Ok tt,
             with_db (Prisma.with_images
                        (List.filter (fun r => negb (has_id id r))
                           (Prisma.images (db st))) (db st)) st)
        | None => (Throw (ErrorObj "Record to delete does not exist."), st)
        end
    end.

Definition deleteImage (x : Faults) (id : string) : M Response :=
  try_catch
    (let! image := image_findUnique x id in
     match image with
     | None => ret (json 404 (ErrorBody "Image not found" NoDetails))
     | Some i =>
         run! S3Service.deleteFile x (Prisma.Image.s3Key (Prisma.Image.columns i)) in
         run! image_delete x id in
         ret (json 200 SuccessBody)
     end)
    (fun error =>
       ret (json 500 (ErrorBody "Failed to delete image"
                        (Message (errorMessage error))))).
End ImageAdmin.

(** ** [sanitizeInput] *)

Module Sanitize.
Import Js.

(** A JavaScript string as the sequence of its UTF-16 code units, which
    is what [trim], a regular expression without the [u] flag and
    [substring] work on. *)
Definition JsString := list Z.

(** The code units of [WhiteSpace]: TAB, VT, FF, SP, NBSP, ZWNBSP and
    the space separators of Unicode. *)
Definition is_white_space (c : Z) : bool :=
  (c =? 9) || (c =? 11) || (c =? 12) || (c =? 32) || (c =? 160)
  || (c =? 5760) || ((8192 <=? c) && (c <=? 8202))
  || (c =? 8239) || (c =? 8287) || (c =? 12288) || (c =? 65279).

(** The code units of [LineTerminator]: LF, CR, LS, PS. *)
Definition is_line_terminator (c : Z) : bool :=
  (c =? 10) || (c =? 13) || (c =? 8232) || (c =? 8233).

Definition is_trimmed (c : Z) : bool :=
  is_white_space c || is_line_terminator c.

Fixpoint trimStart (s : JsString) : JsString :=
  match s with
  | c :: r => if is_trimmed c then trimStart r else s
  | [] => []
  end.

(** [s.trim()] *)
Definition trim (s : JsString) : JsString :=
  rev (trimStart (rev (trimStart s))).

(** ['<'] and ['>'] *)
Definition is_angle (c : Z) : bool := (c =? 60) || (c =? 62).

(** [s.replaceAll(/[<>]/g, '')] *)
Definition removeAngles (s : JsString) : JsString :=
  List.filter (fun c => negb (is_angle c)) s.

(** [str.trim().replaceAll(/[<>]/g, '').substring(0, 1000)] *)
Definition sanitizeString (str : JsString) : JsString :=
  take 1000 (removeAngles (trim str)).

(** A value of [req.body] or [req.query]. *)
Inductive Field :=
| FString (s : JsString)
| FNumber (n : Z)
| FOther.

(** The loop over [Object.keys]: every string value is replaced by its
    sanitized form. *)
Definition sanitizeFields (fields : gmap string Field) : gmap string Field :=
  (fun v => match v with
            | FString s => FString (sanitizeString s)
            | _ => v
            end) <$> fields.
End Sanitize.

(** ** What the upload handlers keep true of the image table *)

Module Invariants.
Import Js Config External Types Handler.

(** The hash a row takes part in duplicate detection with: a hash that is
    present and not the empty string. *)
Definition indexedHash (r : Prisma.Image.t) : option string :=
  match Prisma.Image.hash (Prisma.Image.columns r) with
  | Some h => if str_truthy h then Some h else None
  | None => None
  end.

(** No two rows share an indexed hash. *)
Definition hashesDistinct (st : State) : Prop :=
  NoDup (omap indexedHash (Prisma.images (db st))).

(** The key of a row is ["images/"] followed by its file name, and the
    bucket holds an object under it; which bytes the object has is not
    part of this. *)
Definition rowStored (st : State) (r : Prisma.Image.t) : Prop :=
  let c := Prisma.Image.columns r in
  Prisma.Image.s3Key c = "images/" +:+ Prisma.Image.filename c /\
  is_Some (s3 st !! Prisma.Image.s3Key c).

Definition allStored (st : State) : Prop :=
  Forall (rowStored st) (Prisma.images (db st)).

(** The change one request may make to the image table and the bucket:
    no key of the bucket is removed, and either the table is unchanged or
    one row was appended whose key ["images/" + filename] is in the bucket
    and whose indexed hash, if it has one and the duplicate lookup works,
    is new. *)
Definition commitsAtMostOne (w : World) (st st' : State) : Prop :=
  (forall k, is_Some (s3 st !! k) -> is_Some (s3 st' !! k)) /\
  (Prisma.images (db st') = Prisma.images (db st) \/
   exists row,
     Prisma.images (db st') = Prisma.images (db st) ++ [row] /\
     rowStored st' row /\
     Prisma.Image.status (Prisma.Image.columns row) = Prisma.VALIDATED /\
     (forall h, indexedHash row = Some h ->
                fault w Db_image_findFirst = None ->
                find (Prisma.hash_is h) (Prisma.images (db st)) = None)).

(** The image table and the bucket are as in [st0]. *)
Definition sameView (st0 st : State) : Prop :=
  Prisma.images (db st) = Prisma.images (db st0) /\ s3 st = s3 st0.

(** The image table is as in [st0] and the bucket has one more blob. *)
Definition blobPut (st0 : State) (key : string) (blob : Buffer)
    (mime : string) (st : State) : Prop :=
  Prisma.images (db st) = Prisma.images (db st0) /\
  s3 st = <[key := (blob, mime)]> (s3 st0).

(** A property of the state that only reads the image table and the
    bucket. *)
Definition readsView (P : State -> Prop) : Prop :=
  forall st st',
    Prisma.images (db st') = Prisma.images (db st) ->
    s3 st' = s3 st ->
    P st -> P st'.

(** What a sweep of the sessions at time [now] may have done between two
    states: some sessions that were due are now EXPIRED and some of them
    lost their chunk array; nothing else differs. *)
Definition sweptTo (now : Z) (st st' : State) : Prop :=
  Prisma.images (db st') = Prisma.images (db st) /\
  s3 st' = s3 st /\
  cache st' = cache st /\
  (forall sid,
     Prisma.uploadSessions (db st') !! sid = Prisma.uploadSessions (db st) !! sid \/
     exists c,
       Prisma.uploadSessions (db st) !! sid = Some c /\
       SessionAdmin.sweepable now c = true /\
       Prisma.uploadSessions (db st') !! sid =
         Some (Prisma.UploadSession.set_status Prisma.EXPIRED c)) /\
  (forall sid,
     chunkStorage st' !! sid = chunkStorage st !! sid \/
     (chunkStorage st' !! sid = None /\
      exists c,
        Prisma.uploadSessions (db st) !! sid = Some c /\
        SessionAdmin.sweepable now c = true)).

(** The image table grew by the rows [new], all VALIDATED and each with
    its key in the bucket, and the bucket lost no key. *)
Definition grownBy (new : list Prisma.Image.t) (st st' : State) : Prop :=
  Prisma.images (db st') = Prisma.images (db st) ++ new /\
  Forall (fun r => Prisma.Image.status (Prisma.Image.columns r)
                   = Prisma.VALIDATED) new /\
  Forall (rowStored st') new /\
  (forall k, is_Some (s3 st !! k) -> is_Some (s3 st' !! k)).

(** The row of session [sid] has a status other than IN_PROGRESS. *)
Definition ended (sid : string) (st : State) : Prop :=
  exists c, Prisma.uploadSessions (db st) !! sid = Some c /\
            Logic.terminal (Prisma.UploadSession.status c) = true.

(** Session [sid] is over: its row has a status other than IN_PROGRESS and
    the chunk map holds no array for it. *)
Definition closed (sid : string) (st : State) : Prop :=
  chunkStorage st !! sid = None /\ ended sid st.

(** The requests that write to the stores, and the status read. *)
Inductive Request :=
| Upload (req : ImageController.UploadRequest)
| Chunk (req : ChunkUploadRequest)
| Delete (x : Infra.Faults) (id : string)
| Cancel (sid : string)
| Status (sid : string)
| Sweep (x : Infra.Faults).

(** The state a request leaves. *)
Definition handle (w : World) (cfg : ImageConfig) (r : Request) (st : State)
  : State :=
  match r with
  | Upload req => snd (ImageController.uploadRoute w cfg req st)
  | Chunk req => snd (ChunkedUpload.chunkedUploadRoute w cfg req st)
  | Delete x id => snd (ImageAdmin.deleteImage x id st)
  | Cancel sid => snd (ChunkedUpload.cancelSession w sid st)
  | Status sid => snd (SessionAdmin.getSessionStatus w sid st)
  | Sweep x => snd (SessionAdmin.cleanupExpiredSessions w x st)
  end.

(** The requests of any number of clients, handled one after the other,
    each in the world of its own time. *)
Definition handleAll (cfg : ImageConfig) (reqs : list (World * Request))
    (st : State) : State :=
  fold_left (fun st wr => handle wr.1 cfg wr.2 st) reqs st.

Definition isDelete (r : Request) : bool :=
  match r with
  | Delete _ _ => true
  | _ => false
  end.
End Invariants.

(** ** More worlds and stores *)

Module Scenario2.
Import Js Config External Types Handler Infra Scenario.

(** The codec reads the buffer as HEIF. *)
Definition heifWorld : World :=
  with_sharp_metadata
    (fun _ => Ok {| sharp_width := Some 800; sharp_height := Some 800;
                    sharp_format := Some "heif"%string |}) healthy.

(** A 2x4 image: no interior pixel. *)
Definition tinyWorld : World :=
  with_sharp_metadata
    (fun _ => Ok {| sharp_width := Some 2; sharp_height := Some 4;
                    sharp_format := Some "png"%string |}) healthy.

(** The provider reports one face and no bounding box for it. *)
Definition noBoxWorld : World :=
  with_rekognition
    (fun _ => Ok {| FaceDetails := Some [ {| BoundingBox_of := None |} ] |})
    healthy.

(** The bucket refuses deletions. *)
Definition bucketReadOnly : Faults := fun c =>
  match c with
  | S3_deleteObject => Some (ErrorObj "AccessDenied")
  | _ => None
  end.

(** The image table refuses deletions. *)
Definition rowDeleteDown : Faults := fun c =>
  match c with
  | Db_image_delete => Some (ErrorObj "Connection lost")
  | _ => None
  end.





(** A store with one committed image and its blob. *)
Definition stateWithImage : State :=
  with_s3 {[ "images/1-a.jpg"%string := (someBuffer, "image/jpeg"%string) ]}
    (with_db (dbWith "9f86d081884c7d65") emptyState).

Definition sessionRow (status : Prisma.UploadStatus) (expires : Z)
  : Prisma.UploadSession.columns :=
  {| Prisma.UploadSession.filename := "portrait.jpg";
     Prisma.UploadSession.totalChunks := 3;
     Prisma.UploadSession.uploadedChunks := 1;
     Prisma.UploadSession.status := status;
     Prisma.UploadSession.s3Key := None;
     Prisma.UploadSession.createdAt := 1;
     Prisma.UploadSession.expiresAt := expires |}.

(** Three sessions at time 1700000000000: one in progress and expired,
    one in progress and not expired, one completed and expired; the first
    two have a chunk in memory. *)
Definition stateWithSessions : State :=
  with_chunkStorage
    {[ "old"%string := [Elem (Some someBuffer); Hole; Hole];
       "new"%string := [Elem (Some someBuffer); Hole; Hole] ]}
    (with_db
       {| Prisma.images := [];
          Prisma.uploadSessions :=
            {[ "old"%string := sessionRow Prisma.IN_PROGRESS 1000;
               "new"%string := sessionRow Prisma.IN_PROGRESS 1800000000000;
               "done"%string := sessionRow Prisma.COMPLETED 1000 ]} |}
       emptyState).
End Scenario2.

(** * Properties *)

(** ** The validation pipeline *)

Section ValidationPipeline.
Import Js Config External Types ImageProcessing.

Lemma In_push {A} (x y : A) (l : list A) :
  In x (push l y) <-> In x l \/ x = y.
Proof.
  unfold push. rewrite in_app_iff. simpl. intuition congruence.
Qed.

Lemma length_push {A} (l : list A) (y : A) :
  List.length (push l y) = S (List.length l).
Proof. unfold push. rewrite length_app. simpl. lia. Qed.

(** Both helpers swallow every failure of their collaborator: the
    promise they return never rejects. *)
Lemma calculateBlurScore_never_throws w buffer :
  exists score, calculateBlurScore w buffer = Ok score.
Proof.
  unfold calculateBlurScore.
  destruct (sharp_grayscale_raw w buffer) as [g|]; [|eauto].
  destruct (sharp_metadata w buffer) as [i|]; [|eauto].
  destruct (over_interior _ g _ _ (0%float, 0)) as [m c]. eauto.
Qed.

Lemma detectFaces_never_throws w buffer :
  exists faceData, detectFaces w buffer = Ok faceData.
Proof.
  unfold detectFaces. destruct (rekognition_send w buffer); eauto.
Qed.

Lemma calculateBlurScore_on_error w buffer e :
  sharp_grayscale_raw w buffer = Throw e ->
  calculateBlurScore w buffer = Ok 0%float.
Proof. intros H. unfold calculateBlurScore. now rewrite H. Qed.

Lemma detectFaces_on_error w buffer e :
  rekognition_send w buffer = Throw e ->
  detectFaces w buffer = Ok {| fd_faceCount := 0; fd_faceSize := 0%float |}.
Proof. intros H. unfold detectFaces. now rewrite H. Qed.

(** The reasons only grow along the pipeline. *)
Lemma blur_step_errors w buffer m errs :
  exists score,
    calculateBlurScore w buffer = Ok score /\
    snd (blur_step w buffer (m, errs)) =
      (if (score <? 150)%float then push errs (Blurry score) else errs) /\
    blurScore (fst (blur_step w buffer (m, errs))) = Some score.
Proof.
  destruct (calculateBlurScore_never_throws w buffer) as [score H].
  exists score. unfold blur_step. rewrite H. auto.
Qed.

Lemma blur_step_keeps w buffer m errs x :
  In x errs -> In x (snd (blur_step w buffer (m, errs))).
Proof.
  intros H. destruct (blur_step_errors w buffer m errs) as (s & _ & -> & _).
  destruct (s <? 150)%float; [apply In_push; now left|exact H].
Qed.

Lemma face_step_errors w buffer m errs :
  exists fd,
    detectFaces w buffer = Ok fd /\
    snd (face_step w buffer (m, errs)) =
      (if fd_faceCount fd =? 0 then push errs NoFaceDetected
       else if 1 <? fd_faceCount fd then push errs (MultipleFaces (fd_faceCount fd))
       else if (fd_faceSize fd <? 0.15)%float then push errs (FaceTooSmall (fd_faceSize fd))
       else if (0.8 <? fd_faceSize fd)%float then push errs (FaceTooLarge (fd_faceSize fd))
       else errs) /\
    blurScore (fst (face_step w buffer (m, errs))) = blurScore m.
Proof.
  destruct (detectFaces_never_throws w buffer) as [fd H].
  exists fd. unfold face_step. rewrite H. auto.
Qed.

Lemma face_step_keeps w buffer m errs x :
  In x errs -> In x (snd (face_step w buffer (m, errs))).
Proof.
  intros H. destruct (face_step_errors w buffer m errs) as (fd & _ & -> & _).
  repeat match goal with
         | |- context [if ?b then _ else _] => destruct b
         end; rewrite ?In_push; auto.
Qed.

Lemma face_step_nonempty w buffer m errs :
  errs <> [] -> snd (face_step w buffer (m, errs)) <> [].
Proof.
  destruct errs as [|x errs]; [congruence|]. intros _ Hnil.
  pose proof (face_step_keeps w buffer m (x :: errs) x (or_introl eq_refl)) as Hin.
  rewrite Hnil in Hin. exact Hin.
Qed.

Lemma basic_errors_no_unavailable cfg m :
  ~ In FaceDetectionUnavailable (basic_errors cfg m).
Proof.
  unfold basic_errors.
  repeat match goal with
         | |- context [if ?b then _ else _] => destruct b
         end;
    rewrite ?In_push; simpl; intuition discriminate.
Qed.

Lemma advancedValidation_errors w cfg buffer m errs :
  errors (advancedValidation w cfg buffer m errs) =
    snd (face_step w buffer (blur_step w buffer (m, size_errors cfg m errs))).
Proof.
  unfold advancedValidation.
  destruct (face_step w buffer _) as [m2 e2]. reflexivity.
Qed.

Lemma advancedValidation_isValid w cfg buffer m errs :
  isValid (advancedValidation w cfg buffer m errs) =
    (List.length (errors (advancedValidation w cfg buffer m errs)) =? 0)%nat.
Proof.
  unfold advancedValidation.
  destruct (face_step w buffer _) as [m2 e2]. reflexivity.
Qed.

Lemma advancedValidation_hash w cfg buffer m errs :
  meta hash (advancedValidation w cfg buffer m errs) =
    Some (sha256_hex w buffer).
Proof.
  unfold advancedValidation.
  destruct (face_step w buffer _) as [m2 e2]. reflexivity.
Qed.

Lemma advancedValidation_blurScore w cfg buffer m errs :
  exists score,
    calculateBlurScore w buffer = Ok score /\
    meta blurScore (advancedValidation w cfg buffer m errs) = Some score.
Proof.
  unfold advancedValidation.
  destruct (blur_step_errors w buffer m (size_errors cfg m errs))
    as (score & Hs & _ & Hb).
  exists score. split; [exact Hs|].
  destruct (blur_step w buffer _) as [m1 e1].
  destruct (face_step_errors w buffer m1 e1) as (fd & _ & _ & Hf).
  destruct (face_step w buffer _) as [m2 e2].
  unfold meta. cbn in *. congruence.
Qed.

(** The [catch] of the face step is dead code: no run of the pipeline
    reports the provider as unavailable. *)
Lemma validateImage_never_reports_unavailable w cfg buffer :
  ~ In FaceDetectionUnavailable (errors (validateImage w cfg buffer)).
Proof.
  unfold validateImage.
  destruct (sharp_metadata w buffer) as [info|e].
  2: { simpl. intuition discriminate. }
  cbv zeta. destruct (is_heic_format _).
  { apply basic_errors_no_unavailable. }
  rewrite advancedValidation_errors.
  set (m := decodedMetadata info buffer).
  assert (H0 : ~ In FaceDetectionUnavailable (size_errors cfg m (basic_errors cfg m))).
  { unfold size_errors. destruct (gt_bound _ _).
    - rewrite In_push. pose proof (basic_errors_no_unavailable cfg m).
      intuition discriminate.
    - apply basic_errors_no_unavailable. }
  revert H0. generalize (size_errors cfg m (basic_errors cfg m)). intros e0 H0.
  destruct (blur_step_errors w buffer m e0) as (s & _ & Hb & _).
  destruct (blur_step w buffer (m, e0)) as [m1 e1]. simpl in Hb. subst e1.
  destruct (face_step_errors w buffer m1
              (if (s <? 150)%float then push e0 (Blurry s) else e0))
    as (fd & _ & -> & _).
  repeat match goal with
         | |- context [if ?b then _ else _] => destruct b
         end;
    rewrite ?In_push; intuition discriminate.
Qed.

(** A provider error still rejects a decodable, non-HEIC buffer, but with
    the reason of an image without a face. *)
Lemma validateImage_provider_error_rejects w cfg buffer info e :
  sharp_metadata w buffer = Ok info ->
  is_heic_format (format_or_unknown (sharp_format info)) = false ->
  rekognition_send w buffer = Throw e ->
  isValid (validateImage w cfg buffer) = false /\
  In NoFaceDetected (errors (validateImage w cfg buffer)).
Proof.
  intros Hm Hh Hr. unfold validateImage. rewrite Hm. cbv zeta.
  change (format (decodedMetadata info buffer))
    with (format_or_unknown (sharp_format info)).
  rewrite Hh, advancedValidation_isValid, advancedValidation_errors.
  destruct (blur_step w buffer _) as [m1 e1].
  unfold face_step. rewrite (detectFaces_on_error _ _ _ Hr). simpl.
  split.
  - rewrite length_push. reflexivity.
  - apply In_push. now right.
Qed.

(** A failure of the sharpness computation scores 0, and 0 is below the
    threshold: a decodable, non-HEIC buffer is rejected as blurry. *)
Lemma validateImage_blur_error_rejects w cfg buffer info e :
  sharp_metadata w buffer = Ok info ->
  is_heic_format (format_or_unknown (sharp_format info)) = false ->
  sharp_grayscale_raw w buffer = Throw e ->
  isValid (validateImage w cfg buffer) = false /\
  In (Blurry 0%float) (errors (validateImage w cfg buffer)) /\
  meta blurScore (validateImage w cfg buffer) = Some 0%float.
Proof.
  intros Hm Hh Hg. unfold validateImage. rewrite Hm. cbv zeta.
  change (format (decodedMetadata info buffer))
    with (format_or_unknown (sharp_format info)).
  rewrite Hh, advancedValidation_isValid, advancedValidation_errors.
  set (m := decodedMetadata info buffer).
  set (e0 := size_errors cfg m (basic_errors cfg m)).
  assert (Hin : In (Blurry 0%float) (snd (blur_step w buffer (m, e0)))).
  { destruct (blur_step_errors w buffer m e0) as (s & Hs & -> & _).
    rewrite (calculateBlurScore_on_error _ _ _ Hg) in Hs.
    injection Hs as <-. change (0 <? 150)%float with true.
    apply In_push. now right. }
  destruct (advancedValidation_blurScore w cfg buffer m (basic_errors cfg m))
    as (s & Hs & Hb).
  rewrite (calculateBlurScore_on_error _ _ _ Hg) in Hs. injection Hs as <-.
  destruct (blur_step w buffer (m, e0)) as [m1 e1]. simpl in Hin.
  pose proof (face_step_keeps w buffer m1 e1 _ Hin) as Hin'.
  repeat split; [|exact Hin'|exact Hb].
  destruct (snd (face_step w buffer (m1, e1))); [destruct Hin'|reflexivity].
Qed.
End ValidationPipeline.

Section ValidationClaims.
Import Js Config External Types ImageProcessing Scenario.

(** C5, as stated, fails: a buffer the codec reads as HEIC takes the
    early exit, and the result it returns carries no content hash. *)
Lemma validateImage_heic_exit_has_no_hash :
  meta hash (validateImage heicWorld (imageConfig noEnv) someBuffer)
  <> Some (generateImageHash heicWorld someBuffer).
Proof. vm_compute. discriminate. Qed.

(** C5, amended: the content hash of the result is the SHA-256 digest of
    the raw buffer exactly when the pipeline reaches its hash step, that
    is when the header decodes and the format is neither HEIC nor HEIF,
    whatever the verdict; after a decode error and on the HEIC/HEIF early
    exit the result has no hash. *)
Theorem validateImage_hash_populated_by_hash_step w cfg buffer :
  meta hash (validateImage w cfg buffer) =
    match sharp_metadata w buffer with
    | Ok info =>
        if is_heic_format (format_or_unknown (sharp_format info))
        then None
        else Some (generateImageHash w buffer)
    | Throw _ => None
    end.
Proof.
  unfold validateImage.
  destruct (sharp_metadata w buffer) as [info|e]; [|reflexivity].
  cbv zeta.
  change (format (decodedMetadata info buffer))
    with (format_or_unknown (sharp_format info)).
  destruct (is_heic_format _); [reflexivity|].
  apply advancedValidation_hash.
Qed.

(** A rejected buffer that reached the hash step has its hash. *)
Example validateImage_rejected_has_hash :
  isValid (validateImage providerDown (imageConfig smallEnv) someBuffer) = false /\
  meta hash (validateImage providerDown (imageConfig smallEnv) someBuffer)
  = Some (generateImageHash providerDown someBuffer).
Proof. split; reflexivity. Qed.

(** C6, on the code: with the face-detection provider down, a sharp,
    well-sized JPEG is rejected, but the only reason reported is that of
    an image without a face; the reason "face detection unavailable" is
    not in the list. *)
Theorem validateImage_provider_down_reports_no_face :
  let r := validateImage providerDown (imageConfig smallEnv) someBuffer in
  rekognition_send providerDown someBuffer
    = Throw (ErrorObj "ServiceUnavailableException") /\
  isValid r = false /\
  errors r = [NoFaceDetected] /\
  ~ In FaceDetectionUnavailable (errors r).
Proof.
  cbv zeta. repeat split; try reflexivity.
  apply validateImage_never_reports_unavailable.
Qed.

(** C7, on the code: when the sharpness computation fails on a well-sized
    JPEG with one face of the right size, the score recorded is 0, not a
    passing one, and the buffer is rejected with the blur reason alone. *)
Theorem validateImage_blur_failure_rejects_as_blurry :
  let r := validateImage blurFails (imageConfig smallEnv) someBuffer in
  isOk (sharp_grayscale_raw blurFails someBuffer) = false /\
  isValid r = false /\
  errors r = [Blurry 0%float] /\
  meta blurScore r = Some 0%float /\
  isValid (validateImage healthy (imageConfig smallEnv) someBuffer) = true.
Proof. cbv zeta. repeat split; vm_compute; reflexivity. Qed.

(** C9: when the lookup of the duplicate index throws,
    [checkForDuplicates] answers [false] for every hash, also for the
    hash of a committed record, and the duplicate gate of both upload
    handlers lets the request pass without touching the state. *)
Theorem checkForDuplicates_fails_open w e :
  fault w Db_image_findFirst = Some e ->
  (forall db h, checkForDuplicates w db h = false) /\
  (forall r st, ImageController.duplicateOf w r st = (Ok false, st)) /\
  (forall r st, ChunkedUpload.duplicateOf w r st = (Ok false, st)).
Proof.
  intros Hf.
  assert (H : forall db h, checkForDuplicates w db h = false).
  { intros db h. unfold checkForDuplicates, Prisma.image_findFirst,
      Prisma.guarded. now rewrite Hf. }
  split; [exact H|].
  split; intros r st.
  - unfold ImageController.duplicateOf.
    destruct (meta hash r) as [h|]; [|reflexivity].
    destruct (str_truthy h); [|reflexivity].
    unfold Handler.gets. now rewrite H.
  - unfold ChunkedUpload.duplicateOf.
    destruct (meta hash r) as [h|]; [|reflexivity].
    destruct (str_truthy h); [|reflexivity].
    unfold Handler.gets. now rewrite H.
Qed.

Lemma checkForDuplicates_fails_open_witness :
  checkForDuplicates healthy (dbWith "9f86d081884c7d65") "9f86d081884c7d65" = true /\
  checkForDuplicates lookupDown (dbWith "9f86d081884c7d65") "9f86d081884c7d65" = false.
Proof.
  split; [reflexivity|].
  apply (checkForDuplicates_fails_open lookupDown
           (ErrorObj "Can't reach database server")).
  reflexivity.
Defined.
End ValidationClaims.

(** ** The job options *)

Section QueueClaims.
Import Js Config QueueService.

Lemma afterFailures_S o n :
  afterFailures o (S n) = failingAttempt o (afterFailures o n).
Proof. reflexivity. Qed.

(** A terminal job stays terminal. *)
Lemma failingAttempt_terminal o j :
  state j = FAILED_terminal -> failingAttempt o j = j.
Proof. intros H. unfold failingAttempt. now rewrite H. Qed.

Lemma afterFailures_terminal_stays o n m :
  state (afterFailures o n) = FAILED_terminal ->
  (n <= m)%nat ->
  afterFailures o m = afterFailures o n.
Proof.
  intros H Hle. induction Hle as [|m Hle IH]; [reflexivity|].
  rewrite afterFailures_S, IH. now apply failingAttempt_terminal.
Qed.

(** C8: with neither [QUEUE_MAX_ATTEMPTS] nor [QUEUE_BACKOFF_MS] set, the
    default job options ask for 3 attempts and an exponential backoff of
    base 1000 ms; the delay before retry [k] is [1000 * 2^(k-1)] ms; a
    job whose handler always fails waits 1000 ms after its first failure
    and 2000 ms after its second, and is terminal-failed after exactly 3
    attempts, not before. *)
Theorem defaultJobOptions_retry_policy (env : Env) :
  env "QUEUE_MAX_ATTEMPTS"%string = None ->
  env "QUEUE_BACKOFF_MS"%string = None ->
  let o := defaultJobOptions env in
  attempts o = Some 3 /\
  backoff o = {| type := "exponential"; delay := Some 1000 |} /\
  (forall k, backoffDelay (backoff o) k = Some (1000 * 2 ^ (k - 1))) /\
  afterFailures o 1 =
    {| attemptsMade := 1; state := FAILED_retry_pending (Some 1000) |} /\
  afterFailures o 2 =
    {| attemptsMade := 2; state := FAILED_retry_pending (Some 2000) |} /\
  (forall n, state (afterFailures o n) = FAILED_terminal <-> (3 <= n)%nat) /\
  (forall n, (3 <= n)%nat -> attemptsMade (afterFailures o n) = 3).
Proof.
  intros Ha Hb. cbv zeta.
  assert (Ho : defaultJobOptions env =
               {| attempts := Some 3;
                  backoff := {| type := "exponential"; delay := Some 1000 |};
                  removeOnComplete := 1000; removeOnFail := 1000 |}).
  { unfold defaultJobOptions, env_or. rewrite Ha, Hb. reflexivity. }
  rewrite Ho.
  set (o := {| attempts := Some 3; backoff := _; removeOnComplete := _;
               removeOnFail := _ |}).
  assert (H3 : afterFailures o 3 =
               {| attemptsMade := 3; state := FAILED_terminal |})
    by reflexivity.
  assert (Hstay : forall n, (3 <= n)%nat -> afterFailures o n = afterFailures o 3).
  { intros n Hn. apply afterFailures_terminal_stays; [now rewrite H3|exact Hn]. }
  repeat split; try reflexivity.
  - intros Ht. destruct n as [|[|[|n]]]; try lia; discriminate Ht.
  - intros Hn. rewrite (Hstay n Hn), H3. reflexivity.
  - intros n Hn. rewrite (Hstay n Hn), H3. reflexivity.
Qed.

Lemma defaultJobOptions_retry_policy_witness :
  attempts (defaultJobOptions Scenario.noEnv) = Some 3 /\
  state (afterFailures (defaultJobOptions Scenario.noEnv) 2)
    = FAILED_retry_pending (Some 2000) /\
  state (afterFailures (defaultJobOptions Scenario.noEnv) 3) = FAILED_terminal.
Proof.
  destruct (defaultJobOptions_retry_policy Scenario.noEnv eq_refl eq_refl)
    as (H1 & _ & _ & _ & H2 & H3 & _).
  split; [exact H1|]. split; [now rewrite H2|].
  apply H3. lia.
Defined.
End QueueClaims.

(** ** Reasoning about handlers *)

Section HandlerLogic.
Import Js External Types Handler Logic.

Lemma triple_ret {A} (P : State -> Prop) (a : A) Q E :
  (forall st, P st -> Q a st) -> triple P (ret a) Q E.
Proof. intros H st HP. apply H, HP. Qed.

Lemma triple_throw {A} (P : State -> Prop) e (Q : A -> State -> Prop) E :
  (forall st, P st -> E e st) -> triple P (throw e) Q E.
Proof. intros H st HP. apply H, HP. Qed.

Lemma triple_bind {A B} P (c : M A) (k : A -> M B) R Q E :
  triple P c R E ->
  (forall a, triple (R a) (k a) Q E) ->
  triple P (bind c k) Q E.
Proof.
  intros Hc Hk st HP. unfold bind. specialize (Hc st HP).
  destruct (c st) as [[a|e] st']; [apply (Hk a), Hc|exact Hc].
Qed.

Lemma triple_try_catch {A} P (c : M A) h Q F E :
  triple P c Q F ->
  (forall e, triple (F e) (h e) Q E) ->
  triple P (try_catch c h) Q E.
Proof.
  intros Hc Hh st HP. unfold try_catch. specialize (Hc st HP).
  destruct (c st) as [[a|e] st']; [exact Hc|apply (Hh e), Hc].
Qed.

Lemma triple_conseq {A} (P P' : State -> Prop) (c : M A)
    (Q Q' : A -> State -> Prop) (E E' : Thrown -> State -> Prop) :
  triple P' c Q' E' ->
  (forall st, P st -> P' st) ->
  (forall a st, Q' a st -> Q a st) ->
  (forall e st, E' e st -> E e st) ->
  triple P c Q E.
Proof.
  intros Hc HP HQ HE st Hst. specialize (Hc st (HP st Hst)).
  destruct (c st) as [[a|e] st']; auto.
Qed.

Lemma triple_gets {A} P (f : State -> A) Q E :
  (forall st, P st -> Q (f st) st) -> triple P (gets f) Q E.
Proof. intros H st HP. apply H, HP. Qed.

Lemma triple_modify P f Q E :
  (forall st, P st -> Q tt (f st)) -> triple P (modify f) Q E.
Proof. intros H st HP. apply H, HP. Qed.

Lemma triple_await {A} P (o : Outcome A) Q E :
  (forall a st, o = Ok a -> P st -> Q a st) ->
  (forall e st, o = Throw e -> P st -> E e st) ->
  triple P (await o) Q E.
Proof. intros H1 H2 st HP. unfold await. destruct o; eauto. Qed.

Lemma triple_db_read {A} P (f : Prisma.Db -> Outcome A) Q E :
  (forall a st, f (db st) = Ok a -> P st -> Q a st) ->
  (forall e st, f (db st) = Throw e -> P st -> E e st) ->
  triple P (db_read f) Q E.
Proof.
  intros H1 H2 st HP. unfold db_read. destruct (f (db st)) eqn:Hf; eauto.
Qed.

Lemma triple_db_write {A} P (f : Prisma.Db -> Outcome (A * Prisma.Db)) Q E :
  (forall a d st, f (db st) = Ok (a, d) -> P st -> Q a (with_db d st)) ->
  (forall e st, f (db st) = Throw e -> P st -> E e st) ->
  triple P (db_write f) Q E.
Proof.
  intros H1 H2 st HP. unfold db_write.
  destruct (f (db st)) as [[a d]|e] eqn:Hf; eauto.
Qed.

Lemma stable_ret {A} P (a : A) : stable P (ret a).
Proof. now apply triple_ret. Qed.

Lemma stable_throw {A} P e : stable P (@throw A e).
Proof. now apply triple_throw. Qed.

Lemma stable_bind {A B} P (c : M A) (k : A -> M B) :
  stable P c -> (forall a, stable P (k a)) -> stable P (bind c k).
Proof. intros Hc Hk. eapply triple_bind; [exact Hc|exact Hk]. Qed.

Lemma stable_try_catch {A} P (c : M A) h :
  stable P c -> (forall e, stable P (h e)) -> stable P (try_catch c h).
Proof. intros Hc Hh. eapply triple_try_catch; [exact Hc|exact Hh]. Qed.

Lemma stable_gets {A} P (f : State -> A) : stable P (gets f).
Proof. now apply triple_gets. Qed.

Lemma stable_await {A} P (o : Outcome A) : stable P (await o).
Proof. apply triple_await; auto. Qed.

Lemma stable_modify P f :
  (forall st, P st -> P (f st)) -> stable P (modify f).
Proof. intros H. now apply triple_modify. Qed.

Lemma stable_db_write {A} P (f : Prisma.Db -> Outcome (A * Prisma.Db)) :
  (forall a d st, f (db st) = Ok (a, d) -> P st -> P (with_db d st)) ->
  stable P (db_write f).
Proof. intros H. apply triple_db_write; auto. Qed.

Lemma answers_ret {A} (a : A) (Q : A -> Prop) : Q a -> answers (ret a) Q.
Proof. intros H. now apply triple_ret. Qed.

Lemma answers_bind {A B} (c : M A) (k : A -> M B) Q :
  (forall a, answers (k a) Q) -> answers (bind c k) Q.
Proof.
  intros Hk. eapply triple_bind with (R := fun _ _ => True).
  - intros st _. destruct (c st) as [[a|e] st']; exact I.
  - exact Hk.
Qed.

Lemma answers_try_catch {A} (c : M A) h Q :
  answers c Q -> (forall e, answers (h e) Q) -> answers (try_catch c h) Q.
Proof.
  intros Hc Hh. eapply triple_try_catch; [exact Hc|exact Hh].
Qed.

End HandlerLogic.

(** ** The chunked upload *)

Section ChunkedUploadLogic.
Import Js Config External Types Handler Logic Services ImageProcessing.
Import ChunkedUpload.

(** *** What each call keeps *)


Lemma getSignedDownloadUrl_stable P w key :
  stable P (getSignedDownloadUrl w key).
Proof.
  unfold getSignedDownloadUrl. destruct (fault w S3_getSignedUrl).
  - apply stable_throw.
  - apply stable_ret.
Qed.

Lemma duplicateOf_stable P w r : stable P (duplicateOf w r).
Proof.
  unfold duplicateOf. destruct (meta hash r) as [h|]; [|apply stable_ret].
  destruct (str_truthy h); [apply stable_gets|apply stable_ret].
Qed.

Lemma processFailed_stable w P sid e :
  survives_completion w P -> stable P (processFailed w sid e).
Proof.
  intros H. unfold processFailed.
  apply stable_bind; [now apply (survives_update w P H)|intros _].
  apply stable_bind; [apply (survives_delete w P H)|intros _; apply stable_ret].
Qed.

Lemma processCompleted_stable w P cfg req sid chunks :
  survives_completion w P -> stable P (processCompleted w cfg req sid chunks).
Proof.
  intros H. unfold processCompleted.
  apply stable_bind; [apply stable_await|intros completeBuffer].
  apply stable_bind.
  { destruct (is_heic_upload _ _); [|apply stable_ret].
    apply stable_bind; [apply stable_await|intros []; apply stable_ret]. }
  intros [processedBuffer finalMimeType].
  destruct (negb (isValid _)).
  { apply stable_bind; [now apply (survives_update w P H)|intros _].
    apply stable_bind; [apply (survives_delete w P H)|intros _; apply stable_ret]. }
  apply stable_bind; [apply duplicateOf_stable|intros [|]].
  { apply stable_bind; [now apply (survives_update w P H)|intros _].
    apply stable_bind; [apply (survives_delete w P H)|intros _; apply stable_ret]. }
  apply stable_bind; [apply (survives_put w P H)|intros _].
  apply stable_bind; [apply stable_await|intros imageInfo].
  apply stable_bind; [apply (survives_insert w P H)|intros image].
  apply stable_bind; [now apply (survives_update w P H)|intros _].
  apply stable_bind; [apply (survives_delete w P H)|intros _].
  apply stable_bind; [apply getSignedDownloadUrl_stable|intros url].
  apply stable_ret.
Qed.

Lemma uploadFile_stable w (P : State -> Prop) key body ct :
  (forall st m, P st -> P (with_s3 m st)) ->
  stable P (uploadFile w key body ct).
Proof.
  intros H. unfold uploadFile. destruct (fault w S3_putObject).
  - apply stable_throw.
  - apply stable_modify. auto.
Qed.

Lemma image_create_stable w (P : State -> Prop) data :
  (forall st l, P st -> P (with_db (Prisma.with_images l (db st)) st)) ->
  stable P (db_write (fun d => Prisma.image_create w d data)).
Proof.
  intros H. apply stable_db_write. intros a d st Hd HP.
  unfold Prisma.image_create, Prisma.guarded in Hd.
  destruct (fault w Db_image_create); [discriminate|].
  injection Hd as <- <-. apply H, HP.
Qed.


End ChunkedUploadLogic.

Section ChunkedUploadProgress.
Import Js Config External Types Handler Logic Services ImageProcessing.
Import ChunkedUpload.

(** *** The three steps before the completeness check *)

Lemma createOrGetSession_triple w req st0 E :
  fault w Db_uploadSession_findUnique = None ->
  fault w Db_uploadSession_create = None ->
  triple (fun st => st = st0) (createOrGetSession w req)
    (fun s st => US.id s = sessionFor st0 req /\ hasSession (US.id s) st /\
                 chunkStorage st = chunkStorage st0)
    E.
Proof.
  intros Hfind Hcreate st Hst. subst st.
  assert (Hnew :
    (sessionId req = None \/
     (exists sid, sessionId req = Some sid /\
        (str_truthy sid = false \/
         Prisma.uploadSessions (db st0) !! sid = None))) ->
    match db_write (fun d => Prisma.uploadSession_create w d
             (Types.filename req) (totalChunks req)
             (Date_now w + 24 * 60 * 60 * 1000)) st0 with
    | (Ok s, st) => US.id s = sessionFor st0 req /\ hasSession (US.id s) st /\
                    chunkStorage st = chunkStorage st0
    | (Throw e, st) => E e st
    end).
  { intros Hcase. unfold db_write, Prisma.uploadSession_create, Prisma.guarded.
    rewrite Hcreate. simpl. repeat split.
    - unfold sessionFor. destruct Hcase as [->|(sid & -> & [Ht|Hl])];
        [reflexivity|now rewrite Ht|].
      rewrite Hl. rewrite bool_decide_eq_false_2 by (intros [? ?]; discriminate).
      now rewrite andb_false_r.
    - unfold hasSession. simpl. rewrite lookup_insert_eq. eauto. }
  unfold createOrGetSession, bind.
  destruct (sessionId req) as [sid|] eqn:Hsid.
  2: { unfold ret. apply Hnew. now left. }
  destruct (str_truthy sid) eqn:Ht.
  2: { unfold ret. apply Hnew. right. exists sid. auto. }
  unfold findUnique, db_read, Prisma.uploadSession_findUnique, Prisma.guarded.
  rewrite Hfind.
  destruct (Prisma.uploadSessions (db st0) !! sid) as [c|] eqn:Hc; simpl.
  2: { apply Hnew. right. exists sid. auto. }
  repeat split.
  - unfold sessionFor. rewrite Hsid, Ht, Hc.
    rewrite bool_decide_eq_true_2 by eauto. reflexivity.
  - unfold hasSession. rewrite Hc. eauto.
Qed.

Lemma new_Array_ok {A} (n : Z) :
  0 <= n < 2 ^ 32 -> @new_Array A n = Ok (replicate (Z.to_nat n) Hole).
Proof.
  intros [H1 H2]. unfold new_Array.
  destruct (Z.leb_spec 0 n); [|lia]. destruct (Z.ltb_spec n (2 ^ 32)); [|lia].
  reflexivity.
Qed.

Lemma storeChunk_triple w req sid (P : Prisma.Db -> Prop) E :
  0 <= totalChunks req < 2 ^ 32 ->
  triple (fun st => P (db st)) (storeChunk w req sid)
    (fun _ st => P (db st)) E.
Proof.
  intros Hn st HP. unfold storeChunk, bind, gets, modify, ret.
  destruct (chunkStorage st !! sid) as [arr|]; simpl; [exact HP|].
  unfold await. rewrite (new_Array_ok _ Hn). exact HP.
Qed.

Lemma update_records w sid n E :
  fault w Db_uploadSession_update = None ->
  triple (hasSession sid) (update w sid (US.set_uploadedChunks n))
    (fun _ => recorded sid n) E.
Proof.
  intros Hf st [c Hc]. unfold update, db_update, db_write,
    Prisma.uploadSession_update. rewrite Hf, Hc. simpl.
  exists (US.set_uploadedChunks n c). split; [|reflexivity].
  apply lookup_insert_eq.
Qed.

End ChunkedUploadProgress.

Section ChunkedUploadAnswers.
Import Js Config External Types Handler Logic Services ImageProcessing.
Import ChunkedUpload.

Ltac answers_step :=
  match goal with
  | |- answers (bind _ _) _ => apply answers_bind; intros
  | |- answers (try_catch _ _) _ => apply answers_try_catch; [|intros]
  | |- answers (ret _) _ => apply answers_ret
  | |- answers (if ?b then _ else _) _ => destruct b
  | |- answers (match ?x with _ => _ end) _ => destruct x
  end.

(** The answers of the completion path are 200 with the image, or 400. *)
Lemma processCompleted_answers w cfg req sid chunks :
  answers (processCompleted w cfg req sid chunks)
    (fun r => isProgress r = false /\
              (statusCode r = 200 \/ statusCode r = 400)).
Proof.
  unfold processCompleted. repeat answers_step; cbn; auto.
Qed.

Lemma processFailed_answers w sid e :
  answers (processFailed w sid e)
    (fun r => isProgress r = false /\ statusCode r = 500).
Proof.
  unfold processFailed. repeat answers_step; cbn; auto.
Qed.

Lemma answers_weaken {A} (c : M A) (Q Q' : A -> Prop) :
  answers c Q -> (forall a, Q a -> Q' a) -> answers c Q'.
Proof.
  intros Hc HQ. eapply triple_conseq; [exact Hc| | |]; cbv beta; auto.
Qed.



(** *** The completeness check *)

Lemma every_replicate_Hole {A} (p : A -> bool) n :
  every p (replicate n Hole) = true.
Proof. induction n as [|n IH]; [reflexivity|exact IH]. Qed.

Lemma every_app {A} (p : A -> bool) (l1 l2 : JsArray A) :
  every p (l1 ++ l2) = every p l1 && every p l2.
Proof. unfold every. apply forallb_app. Qed.

Lemma every_insert {A} (p : A -> bool) (arr : JsArray A) n v :
  every p arr = true -> p v = true -> every p (<[n := Elem v]> arr) = true.
Proof.
  unfold every. intros Ha Hv. revert n Ha.
  induction arr as [|s arr IH]; intros n Ha; [reflexivity|].
  simpl in Ha. apply andb_true_iff in Ha as [Hs Ha].
  destruct n as [|n]; simpl.
  - now rewrite Hv, Ha.
  - rewrite Hs. simpl. now apply IH.
Qed.

(** Writing an element that passes the test into an array whose elements
    all pass it gives such an array again, holes or not. *)
Lemma every_array_set {A} (p : A -> bool) (arr : JsArray A) i v :
  every p arr = true -> p v = true -> every p (array_set arr i v) = true.
Proof.
  intros Ha Hv. unfold array_set.
  destruct (i <? 0); [exact Ha|].
  destruct (Z.to_nat i <? List.length arr)%nat.
  - now apply every_insert.
  - rewrite !every_app, Ha, every_replicate_Hole. cbn. now rewrite Hv.
Qed.

Lemma new_Array_every {A} (p : A -> bool) n arr :
  new_Array n = Ok arr -> every p arr = true.
Proof.
  unfold new_Array. destruct ((0 <=? n) && (n <? 2 ^ 32)); [|discriminate].
  intros [= <-]. apply every_replicate_Hole.
Qed.

Lemma chunksDefined_with_db d st :
  chunksDefined st -> chunksDefined (with_db d st).
Proof. exact (fun H => H). Qed.

Lemma update_stable_chunks w sid f : stable chunksDefined (update w sid f).
Proof.
  unfold update, db_update. apply stable_db_write.
  intros a d st _ H. exact H.
Qed.

Lemma chunksDefined_survives w : survives_completion w chunksDefined.
Proof.
  split.
  - intros sid f _. apply update_stable_chunks.
  - intros sid. apply stable_modify. intros st H sid' arr Hl.
    cbn in Hl. apply lookup_delete_Some in Hl as [_ Hl]. eapply H, Hl.
  - intros. apply uploadFile_stable. auto.
  - intros. apply image_create_stable. auto.
Qed.

Lemma createOrGetSession_stable_chunks w req :
  stable chunksDefined (createOrGetSession w req).
Proof.
  unfold createOrGetSession. apply stable_bind.
  - destruct (sessionId req) as [sid|]; [|apply stable_ret].
    destruct (str_truthy sid); [|apply stable_ret].
    apply triple_db_read; auto.
  - intros [s|]; [apply stable_ret|].
    apply stable_db_write. auto.
Qed.

(** The array [storeChunk] returns always passes the completeness check. *)
Lemma storeChunk_defined w req sid :
  triple chunksDefined (storeChunk w req sid)
    (fun chunks st => every is_defined chunks = true /\ chunksDefined st)
    (fun _ => chunksDefined).
Proof.
  intros st Hinv. unfold storeChunk, bind, gets, modify, ret.
  assert (Hput : forall arr,
             every is_defined arr = true ->
             every is_defined
               (array_set arr (chunkIndex req)
                  (Some (base64_decode w (chunkData req)))) = true /\
             chunksDefined
               (with_chunkStorage
                  (<[sid := array_set arr (chunkIndex req)
                              (Some (base64_decode w (chunkData req)))]>
                     (chunkStorage st)) st)).
  { intros arr Harr.
    assert (Hset := every_array_set is_defined arr (chunkIndex req)
                      (Some (base64_decode w (chunkData req))) Harr eq_refl).
    split; [exact Hset|].
    intros sid' arr' Hl. cbn in Hl.
    destruct (decide (sid = sid')) as [->|Hne].
    - rewrite lookup_insert_eq in Hl. now injection Hl as <-.
    - rewrite lookup_insert_ne in Hl by exact Hne. eapply Hinv, Hl. }
  destruct (chunkStorage st !! sid) as [arr|] eqn:Hs; cbn.
  - apply Hput. eapply Hinv, Hs.
  - unfold await. destruct (new_Array (totalChunks req)) as [arr|e] eqn:Hn;
      [|exact Hinv].
    apply Hput. eapply new_Array_every, Hn.
Qed.

Lemma triple_and {A} P (c : M A) Q1 Q2 E1 E2 :
  triple P c Q1 E1 -> triple (fun _ => True) c Q2 E2 ->
  triple P c (fun a st => Q1 a st /\ Q2 a st) (fun e st => E1 e st /\ E2 e st).
Proof.
  intros H1 H2 st HP. specialize (H1 st HP). specialize (H2 st I).
  destruct (c st) as [[a|e] st']; auto.
Qed.

(** In a state where the stored arrays hold buffers, the completeness
    check of [uploadChunk] always succeeds: the handler never answers with
    a progress report, whatever [totalChunks] and [chunkIndex] are. *)
Lemma uploadChunk_never_progress w cfg req :
  triple chunksDefined (uploadChunk w cfg req)
    (fun r st => isProgress r = false /\ chunksDefined st)
    (fun _ _ => False).
Proof.
  unfold uploadChunk.
  apply triple_try_catch with (F := fun _ => chunksDefined).
  2: { intros e. apply triple_ret. intros st H. split; [reflexivity|exact H]. }
  eapply triple_bind; [apply createOrGetSession_stable_chunks|].
  intros session. cbv zeta.
  eapply triple_bind; [apply storeChunk_defined|].
  intros chunks st [Hall Hinv]. revert st Hinv.
  change (triple chunksDefined
    (bind (update w (US.id session) (US.set_uploadedChunks (chunkIndex req + 1)))
       (fun _ =>
          if every is_defined chunks
          then try_catch (processCompleted w cfg req (US.id session) chunks)
                 (processFailed w (US.id session))
          else ret (json 200 (ChunkProgressBody (US.id session) (progressOf req)))))
    (fun r st => isProgress r = false /\ chunksDefined st)
    (fun _ => chunksDefined)).
  rewrite Hall.
  eapply triple_bind.
  { apply update_stable_chunks. }
  intros u.
  eapply triple_conseq.
  - apply triple_and.
    + apply stable_try_catch.
      * apply processCompleted_stable, chunksDefined_survives.
      * intros e. apply processFailed_stable, chunksDefined_survives.
    + apply answers_try_catch.
      * eapply answers_weaken; [apply processCompleted_answers|].
        cbv beta. intros a [H _]. exact H.
      * intros e. eapply answers_weaken; [apply processFailed_answers|].
        cbv beta. intros a [H _]. exact H.
  - auto.
  - cbv beta. intuition.
  - cbv beta. intuition.
Qed.

Lemma chunkedUploadRoute_never_progress w cfg req :
  triple chunksDefined (chunkedUploadRoute w cfg req)
    (fun r st => isProgress r = false /\ chunksDefined st)
    (fun _ _ => False).
Proof.
  unfold chunkedUploadRoute, Middleware.validateChunkUpload,
    Middleware.handleValidationErrors.
  destruct (Middleware.chunkUploadErrors req).
  - apply uploadChunk_never_progress.
  - apply triple_ret. intros st H. split; [reflexivity|exact H].
Qed.

Lemma emptyState_chunksDefined : chunksDefined emptyState.
Proof. intros sid arr H. cbn in H. rewrite lookup_empty in H. discriminate. Qed.

(** X26: no sequence of chunk requests, handled one after the other from
    a state where the stored arrays hold buffers, is ever answered with a
    progress report, and the arrays hold buffers again at the end. *)
Lemma serve_never_progress w cfg reqs st :
  chunksDefined st ->
  Forall (fun o => exists r, o = Ok r /\ isProgress r = false)
    (fst (serve w cfg reqs st)) /\
  chunksDefined (snd (serve w cfg reqs st)).
Proof.
  revert st. induction reqs as [|req reqs IH]; intros st Hinv.
  - split; [constructor|exact Hinv].
  - cbn. pose proof (chunkedUploadRoute_never_progress w cfg req st Hinv) as H.
    destruct (chunkedUploadRoute w cfg req st) as [[r|e] st1]; [|destruct H].
    destruct H as [Hr Hinv1]. specialize (IH st1 Hinv1).
    destruct (serve w cfg reqs st1) as [rs st2]. cbn in *.
    destruct IH as [IH1 IH2]. split; [|exact IH2].
    constructor; [eauto|exact IH1].
Qed.
End ChunkedUploadAnswers.

(** ** The claims on the chunked upload *)

Section ChunkedUploadClaims.
Import Js Config External Types Handler Logic Services ImageProcessing.
Import ChunkedUpload Middleware Scenario.

(** *** The validation chain *)

Lemma app_nil_inv {A} (l1 l2 : list A) : l1 ++ l2 = [] -> l1 = [] /\ l2 = [].
Proof. destruct l1; [auto|discriminate]. Qed.

(** A request passes the chain only with [1 <= totalChunks <= 1000] and a
    non-negative [chunkIndex]; nothing relates the two. *)
Lemma chunkUploadErrors_nil req :
  chunkUploadErrors req = [] ->
  1 <= totalChunks req <= 1000 /\ 0 <= chunkIndex req.
Proof.
  unfold chunkUploadErrors. intros H.
  apply app_nil_inv in H as [_ H]. apply app_nil_inv in H as [_ H].
  apply app_nil_inv in H as [_ H]. apply app_nil_inv in H as [Ht H].
  apply app_nil_inv in H as [Hi _].
  destruct (1 <=? totalChunks req) eqn:H1; [|discriminate].
  destruct (totalChunks req <=? 1000) eqn:H2; [|discriminate].
  destruct (0 <=? chunkIndex req) eqn:H3; [|discriminate].
  lia.
Qed.



Lemma chunkedUploadRoute_accepted w cfg req :
  chunkUploadErrors req = [] ->
  chunkedUploadRoute w cfg req = uploadChunk w cfg req.
Proof.
  intros H. unfold chunkedUploadRoute, validateChunkUpload. now rewrite H.
Qed.


(** *** C1 *)

(** C1, on the code: the first chunk of a three-chunk upload, index 0, is
    taken for the whole upload.  The completeness check passes on the
    array [buffer, hole, hole]; reassembly then throws on the first hole;
    the session is marked FAILED, its chunk dropped, and the client is
    answered 500, although indices 1 and 2 were never received. *)
Theorem first_chunk_is_taken_for_complete :
  let '(answer, st') :=
    chunkedUploadRoute healthy (imageConfig smallEnv) (chunk None 0 3)
      emptyState in
  every is_defined
    (array_set (replicate 3 Hole) 0 (Some (base64_decode healthy "AQI=")))
    = true /\
  answer =
    Ok (json 500 (ErrorBody "Failed to process image"
                    (Message "Cannot read properties of undefined (reading 'length')"))) /\
  US.status <$> (Prisma.uploadSessions (db st') !! "0"%string)
    = Some Prisma.FAILED /\
  chunkStorage st' !! "0"%string = None.
Proof. vm_compute. repeat split; reflexivity. Qed.

(** *** C2 *)






(** *** C3 *)




(** *** C4 *)



End ChunkedUploadClaims.

(** ** The claim on single-shot HEIC uploads *)

Section ImageControllerClaims.
Import Js Config External Types Handler Logic Services ImageProcessing.
Import Middleware ImageController Scenario.



(** With a converter that returns a new buffer (none is defined under
    src/), an upload declared [image/heic] whose name does not end in
    [.heic] would get the MIME type of the target and go through the
    validation pipeline: the skip tests the type after the conversion
    step. *)
Example converted_heic_upload_is_validated :
  let '(answer, st') :=
    uploadRoute converts (imageConfig smallEnv) heicByMime emptyState in
  (mimetype <$> file heicByMime) = Some "image/heic"%string /\
  answer = Ok (json 400 (UploadRejectedBody [NoFaceDetected])) /\
  Prisma.images (db st') = [].
Proof. vm_compute. repeat split; reflexivity. Qed.




End ImageControllerClaims.

(** ** Reassembly

    What the array operations of the upload do when every index is
    written: the order of the writes does not matter, and [Buffer.concat]
    gives back the original bytes. *)

Section Reassembly.
Import Js Logic.

Lemma array_set_length {A} (arr : JsArray A) i v :
  0 <= i < Z.of_nat (List.length arr) ->
  List.length (array_set arr i v) = List.length arr.
Proof.
  intros [H1 H2]. unfold array_set.
  destruct (Z.ltb_spec i 0); [lia|].
  destruct (Nat.ltb_spec (Z.to_nat i) (List.length arr)); [|lia].
  apply length_insert.
Qed.

Lemma array_set_lookup_eq {A} (arr : JsArray A) i v :
  0 <= i < Z.of_nat (List.length arr) ->
  array_set arr i v !! Z.to_nat i = Some (Elem v).
Proof.
  intros [H1 H2]. unfold array_set.
  destruct (Z.ltb_spec i 0); [lia|].
  destruct (Nat.ltb_spec (Z.to_nat i) (List.length arr)); [|lia].
  now apply list_lookup_insert_eq.
Qed.

Lemma array_set_lookup_ne {A} (arr : JsArray A) i v j :
  0 <= i < Z.of_nat (List.length arr) ->
  j <> Z.to_nat i ->
  array_set arr i v !! j = arr !! j.
Proof.
  intros [H1 H2] Hne. unfold array_set.
  destruct (Z.ltb_spec i 0); [lia|].
  destruct (Nat.ltb_spec (Z.to_nat i) (List.length arr)); [|lia].
  apply list_lookup_insert_ne. congruence.
Qed.

Lemma storeAll_cons arr i b appends :
  storeAll arr ((i, b) :: appends) = storeAll (array_set arr i (Some b)) appends.
Proof. reflexivity. Qed.

Lemma storeAll_length appends : forall arr,
  (forall i b, (i, b) ∈ appends -> 0 <= i < Z.of_nat (List.length arr)) ->
  List.length (storeAll arr appends) = List.length arr.
Proof.
  induction appends as [|[i b] appends IH]; intros arr Hb; [reflexivity|].
  rewrite storeAll_cons.
  assert (Hi : 0 <= i < Z.of_nat (List.length arr)) by (apply (Hb i b); left).
  rewrite IH; [now apply array_set_length|].
  intros i' b' Hin. rewrite array_set_length by exact Hi.
  apply (Hb i' b'). now right.
Qed.

(** An index no append writes keeps its slot. *)
Lemma storeAll_lookup_other appends : forall arr j,
  (forall i b, (i, b) ∈ appends -> 0 <= i < Z.of_nat (List.length arr)) ->
  (forall i b, (i, b) ∈ appends -> j <> Z.to_nat i) ->
  storeAll arr appends !! j = arr !! j.
Proof.
  induction appends as [|[i b] appends IH]; intros arr j Hb Hj; [reflexivity|].
  rewrite storeAll_cons.
  assert (Hi : 0 <= i < Z.of_nat (List.length arr)) by (apply (Hb i b); left).
  rewrite IH.
  - apply array_set_lookup_ne; [exact Hi|]. apply (Hj i b). left.
  - intros i' b' Hin. rewrite array_set_length by exact Hi.
    apply (Hb i' b'). now right.
  - intros i' b' Hin. apply (Hj i' b'). now right.
Qed.

(** An index written once holds the buffer written there. *)
Lemma storeAll_lookup_written appends : forall arr i b,
  (forall i b, (i, b) ∈ appends -> 0 <= i < Z.of_nat (List.length arr)) ->
  NoDup (fst <$> appends) ->
  (i, b) ∈ appends ->
  storeAll arr appends !! Z.to_nat i = Some (Elem (Some b)).
Proof.
  induction appends as [|[i0 b0] appends IH]; intros arr i b Hb Hnd Hin.
  { inversion Hin. }
  rewrite storeAll_cons.
  assert (Hi0 : 0 <= i0 < Z.of_nat (List.length arr)) by (apply (Hb i0 b0); left).
  assert (Hb' : forall i b, (i, b) ∈ appends ->
                  0 <= i < Z.of_nat (List.length (array_set arr i0 (Some b0)))).
  { intros i' b' Hin'. rewrite array_set_length by exact Hi0.
    apply (Hb i' b'). now right. }
  rewrite fmap_cons in Hnd. apply NoDup_cons in Hnd as [Hfresh Hnd].
  apply elem_of_cons in Hin as [Heq|Hin].
  - injection Heq as -> ->.
    rewrite storeAll_lookup_other; [now apply array_set_lookup_eq|exact Hb'|].
    intros i' b' Hin' Heq. apply Hfresh.
    assert (i' = i0) as ->.
    { specialize (Hb' i' b' Hin'). lia. }
    apply list_elem_of_fmap. exists (i0, b'). auto.
  - now apply IH.
Qed.

Lemma buffers_of_elems (chunks : list Buffer) :
  buffers_of ((fun b => Elem (Some b)) <$> chunks) = Some chunks.
Proof.
  induction chunks as [|b chunks IH]; [reflexivity|].
  cbn. now rewrite IH.
Qed.

Lemma indexed_lookup chunks i b :
  (i, b) ∈ indexed chunks <->
  exists k, i = Z.of_nat k /\ chunks !! k = Some b.
Proof.
  unfold indexed. rewrite elem_of_lookup_imap. split.
  - intros (k & b' & [= -> ->] & Hk). eauto.
  - intros (k & -> & Hk). eauto.
Qed.

Lemma indexed_NoDup chunks : NoDup (fst <$> indexed chunks).
Proof.
  unfold indexed. rewrite fmap_imap.
  apply NoDup_alt. intros i j x Hi Hj.
  rewrite list_lookup_imap in Hi, Hj.
  destruct (chunks !! i); [|discriminate]. destruct (chunks !! j); [|discriminate].
  cbn in Hi, Hj. injection Hi as <-. injection Hj as Hj. lia.
Qed.

(** X28: the chunks of a buffer, written in any order of arrival into an array
    of as many holes, fill it; the completeness check then holds and
    [Buffer.concat] returns the chunks in index order, that is the bytes
    of the original buffer. *)
Theorem reassembly_in_any_order (chunks : list Buffer) (appends : list (Z * Buffer)) :
  appends ≡ₚ indexed chunks ->
  let arr := storeAll (replicate (List.length chunks) Hole) appends in
  arr = (fun b => Elem (Some b)) <$> chunks /\
  every is_defined arr = true /\
  Buffer_concat arr = Ok (concat chunks).
Proof.
  intros Hperm. cbv zeta.
  set (arr0 := replicate (List.length chunks) Hole : JsArray (option Buffer)).
  assert (Hlen0 : List.length arr0 = List.length chunks)
    by apply length_replicate.
  assert (Hb : forall i b, (i, b) ∈ appends ->
                 0 <= i < Z.of_nat (List.length arr0)).
  { intros i b Hin. rewrite Hperm in Hin.
    apply indexed_lookup in Hin as (k & -> & Hk).
    apply lookup_lt_Some in Hk. rewrite Hlen0. lia. }
  assert (Hnd : NoDup (fst <$> appends)).
  { rewrite Hperm. apply indexed_NoDup. }
  assert (Harr : storeAll arr0 appends = (fun b => Elem (Some b)) <$> chunks).
  { apply list_eq. intros k. rewrite list_lookup_fmap.
    destruct (chunks !! k) as [b|] eqn:Hk; cbn.
    - assert (Hin : (Z.of_nat k, b) ∈ appends).
      { rewrite Hperm. apply indexed_lookup. eauto. }
      rewrite <- (Nat2Z.id k) at 1.
      now apply storeAll_lookup_written.
    - apply lookup_ge_None. rewrite storeAll_length by exact Hb.
      rewrite Hlen0. now apply lookup_ge_None. }
  rewrite Harr. split; [reflexivity|]. split.
  - clear. induction chunks as [|b chunks IH]; [reflexivity|exact IH].
  - unfold Buffer_concat. now rewrite buffers_of_elems.
Qed.

(** Three chunks arriving in the order 1, 0, 2. *)
Example reassembly_of_three :
  Buffer_concat
    (storeAll (replicate 3 Hole)
       [(1, [Byte.x03; Byte.x04]); (0, [Byte.x01; Byte.x02]); (2, [Byte.x05])])
  = Ok [Byte.x01; Byte.x02; Byte.x03; Byte.x04; Byte.x05].
Proof. reflexivity. Qed.
End Reassembly.

(** ** End-to-end scenarios *)

Section EndToEnd.
Import Js Config External Types Handler Logic ImageProcessing.
Import ChunkedUpload Middleware ImageController Scenario.

(** The scenario of the spec: three chunks sent as 1, 0, 2, each append
    naming the session the first one created.  Every append is answered
    500; no image is committed; the session ends FAILED. *)
Example three_chunks_out_of_order :
  let '(answers, st') :=
    serve healthy (imageConfig smallEnv)
      [chunk None 1 3; chunk (Some "0"%string) 0 3; chunk (Some "0"%string) 2 3]
      emptyState in
  statusOf <$> answers = [Some 500; Some 500; Some 500] /\
  Prisma.images (db st') = [] /\
  (fun c => (US.uploadedChunks c, US.status c))
    <$> (Prisma.uploadSessions (db st') !! "0"%string)
    = Some (3, Prisma.FAILED).
Proof. vm_compute. repeat split; reflexivity. Qed.

(** A single-chunk upload is the one case the completeness check gets
    right: the image is validated, stored and committed. *)
Example single_chunk_upload_completes :
  let '(answers, st') :=
    serve healthy (imageConfig smallEnv) [chunk None 0 1] emptyState in
  statusOf <$> answers = [Some 200] /\
  (fun i => Prisma.Image.status (Prisma.Image.columns i))
    <$> Prisma.images (db st') = [Prisma.VALIDATED] /\
  US.status <$> (Prisma.uploadSessions (db st') !! "0"%string)
    = Some Prisma.COMPLETED /\
  chunkStorage st' !! "0"%string = None.
Proof. vm_compute. repeat split; reflexivity. Qed.

(** The same image is uploaded again.  With the duplicate index up the
    upload is rejected as a duplicate before any blob write; with the
    lookup failing it is admitted and committed a second time. *)
Example duplicate_admitted_when_lookup_fails :
  let st := with_db (dbWith "9f86d081884c7d65") emptyState in
  (let '(answer, st') := uploadRoute healthy (imageConfig smallEnv) jpegUpload st in
   answer = Ok (json 400 (ErrorBody "Duplicate image detected" NoDetails)) /\
   s3 st' = ∅ /\
   List.length (Prisma.images (db st')) = 1%nat) /\
  (let '(answer, st') := uploadRoute lookupDown (imageConfig smallEnv) jpegUpload st in
   statusOf answer = Some 201 /\
   (fun i => Prisma.Image.hash (Prisma.Image.columns i))
     <$> Prisma.images (db st')
   = [Some "9f86d081884c7d65"%string; Some "9f86d081884c7d65"%string]).
Proof. vm_compute. repeat split; reflexivity. Qed.
End EndToEnd.

(** ** More on the validation pipeline *)

Section ValidationExtras.
Import Js Config External Types ImageProcessing Scenario Scenario2.

Lemma push_not_nil {A} (l : list A) (x : A) : push l x <> [].
Proof. unfold push. destruct l; discriminate. Qed.

Lemma length_zero_iff {A} (l : list A) : (List.length l =? 0)%nat = true <-> l = [].
Proof.
  destruct l; cbn; split; intros H; try reflexivity; discriminate.
Qed.

Lemma validateImage_verdict w cfg buffer :
  isValid (validateImage w cfg buffer) = true <->
  errors (validateImage w cfg buffer) = [].
Proof.
  unfold validateImage.
  destruct (sharp_metadata w buffer) as [info|e].
  2: { cbn. split; discriminate. }
  cbv zeta. destruct (is_heic_format _).
  - cbn [isValid errors]. apply length_zero_iff.
  - rewrite advancedValidation_isValid. apply length_zero_iff.
Qed.

(** X1: the verdict of [validateImage] is "accept" exactly when the list
    of reasons it returns is empty, on every path: decode error, HEIC/HEIF
    early exit and full pipeline. *)
Theorem validateImage_accepts_iff_no_reason w cfg buffer :
  isValid (validateImage w cfg buffer) = true <->
  errors (validateImage w cfg buffer) = [].
Proof. apply validateImage_verdict. Qed.

Lemma basic_errors_nil cfg m :
  basic_errors cfg m = [] ->
  lt_bound (width m) (minWidth cfg) = false /\
  lt_bound (height m) (minHeight cfg) = false /\
  gt_bound (width m) (maxWidth cfg) = false /\
  gt_bound (height m) (maxHeight cfg) = false /\
  includes allowedFormats (toLowerCase (format m)) = true.
Proof.
  unfold basic_errors.
  destruct (lt_bound (width m) (minWidth cfg)) eqn:H1;
    destruct (lt_bound (height m) (minHeight cfg)) eqn:H2;
    destruct (gt_bound (width m) (maxWidth cfg)) eqn:H3;
    destruct (gt_bound (height m) (maxHeight cfg)) eqn:H4;
    destruct (includes allowedFormats (toLowerCase (format m))) eqn:H5;
    cbn; intros H; try discriminate H; auto;
    exfalso; eapply push_not_nil; exact H.
Qed.

Lemma face_step_nil w buffer m errs :
  snd (face_step w buffer (m, errs)) = [] ->
  errs = [] /\
  exists fd,
    detectFaces w buffer = Ok fd /\
    fd_faceCount fd = 1 /\
    (fd_faceSize fd <? 0.15)%float = false /\
    (0.8 <? fd_faceSize fd)%float = false /\
    faceCount (fst (face_step w buffer (m, errs))) = Some 1 /\
    faceSize (fst (face_step w buffer (m, errs))) = Some (fd_faceSize fd).
Proof.
  unfold face_step.
  destruct (detectFaces_never_throws w buffer) as [fd Hfd]. rewrite Hfd.
  cbn [fst snd].
  destruct (Z.eqb_spec (fd_faceCount fd) 0) as [H0|H0];
    [intros H; exfalso; eapply push_not_nil; exact H|].
  destruct (Z.ltb_spec 1 (fd_faceCount fd)) as [H1|H1];
    [intros H; exfalso; eapply push_not_nil; exact H|].
  destruct (fd_faceSize fd <? 0.15)%float eqn:H2;
    [intros H; exfalso; eapply push_not_nil; exact H|].
  destruct (0.8 <? fd_faceSize fd)%float eqn:H3;
    [intros H; exfalso; eapply push_not_nil; exact H|].
  intros ->. split; [reflexivity|].
  assert (Hone : fd_faceCount fd = 1).
  { unfold detectFaces in Hfd. destruct (rekognition_send w buffer).
    - injection Hfd as <-. cbn in *. lia.
    - injection Hfd as <-. cbn in *. lia. }
  exists fd. cbn [fst faceCount faceSize set_faces]. rewrite Hone.
  repeat split; auto.
Qed.

Lemma blur_step_nil w buffer m errs :
  snd (blur_step w buffer (m, errs)) = [] ->
  errs = [] /\
  exists score,
    calculateBlurScore w buffer = Ok score /\
    (score <? 150)%float = false.
Proof.
  destruct (blur_step_errors w buffer m errs) as (score & Hs & -> & _).
  destruct (score <? 150)%float eqn:Hlt;
    [intros H; exfalso; eapply push_not_nil; exact H|].
  intros ->. eauto.
Qed.

(** X2: what an accepted buffer has passed.  Whenever [validateImage]
    accepts, the header decoded, both dimensions are within the configured
    bounds and the format is on the allow-list; and unless the format is
    HEIC, the size is within the limit, the blur score computed for the
    buffer is not below 150, and the provider reported exactly one face
    whose area ratio is neither below 0.15 nor above 0.8. *)
Theorem validateImage_accepts_only_gated w cfg buffer :
  isValid (validateImage w cfg buffer) = true ->
  exists info,
    sharp_metadata w buffer = Ok info /\
    let m := decodedMetadata info buffer in
    lt_bound (width m) (minWidth cfg) = false /\
    lt_bound (height m) (minHeight cfg) = false /\
    gt_bound (width m) (maxWidth cfg) = false /\
    gt_bound (height m) (maxHeight cfg) = false /\
    includes allowedFormats (toLowerCase (format m)) = true /\
    (String.eqb (toLowerCase (format m)) "heic" = true \/
     (gt_bound (size m) (maxFileSize cfg) = false /\
      exists score fd,
        calculateBlurScore w buffer = Ok score /\
        (score <? 150)%float = false /\
        detectFaces w buffer = Ok fd /\
        fd_faceCount fd = 1 /\
        (fd_faceSize fd <? 0.15)%float = false /\
        (0.8 <? fd_faceSize fd)%float = false)).
Proof.
  intros Hv. apply validateImage_verdict in Hv.
  unfold validateImage in Hv.
  destruct (sharp_metadata w buffer) as [info|e]; [|discriminate Hv].
  exists info. split; [reflexivity|]. cbv zeta in *.
  set (m := decodedMetadata info buffer) in *.
  destruct (is_heic_format (format m)) eqn:Hh.
  - cbn [errors] in Hv.
    destruct (basic_errors_nil cfg m Hv) as (H1 & H2 & H3 & H4 & H5).
    repeat (split; [assumption|]). left.
    unfold is_heic_format in Hh.
    destruct (String.eqb (toLowerCase (format m)) "heic") eqn:Hc; [reflexivity|].
    cbn [orb] in Hh. apply String.eqb_eq in Hh.
    assert (H5' : includes allowedFormats "heif" = true)
      by (rewrite <- Hh; exact H5).
    discriminate H5'.
  - rewrite advancedValidation_errors in Hv.
    destruct (blur_step w buffer (m, size_errors cfg m (basic_errors cfg m)))
      as [m1 e1] eqn:Hb.
    destruct (face_step_nil w buffer m1 e1 Hv)
      as (-> & fd & Hfd & Hone & Hsmall & Hlarge & _).
    assert (Hb' : snd (blur_step w buffer
                         (m, size_errors cfg m (basic_errors cfg m))) = [])
      by now rewrite Hb.
    destruct (blur_step_nil w buffer m _ Hb') as (Hsz & score & Hs & Hlt).
    unfold size_errors in Hsz.
    destruct (gt_bound (size m) (maxFileSize cfg)) eqn:Hgt;
      [exfalso; eapply push_not_nil; exact Hsz|].
    destruct (basic_errors_nil cfg m Hsz) as (H1 & H2 & H3 & H4 & H5).
    repeat (split; [assumption|]). right.
    split; [reflexivity|]. exists score, fd. repeat split; assumption.
Qed.

Lemma validateImage_accepts_only_gated_witness :
  exists info,
    sharp_metadata healthy someBuffer = Ok info /\
    lt_bound (width (decodedMetadata info someBuffer))
      (minWidth (imageConfig smallEnv)) = false.
Proof.
  destruct (validateImage_accepts_only_gated healthy (imageConfig smallEnv)
              someBuffer eq_refl) as (info & Hm & H1 & _).
  exists info. split; assumption.
Defined.

(** X3: a buffer the codec reports as HEIF is always rejected: [heif]
    takes the early exit of HEIC, but only [heic] is on the allow-list.
    The result carries the invalid-format reason and no blur, face or hash
    metadata. *)
Theorem validateImage_rejects_heif w cfg buffer info :
  sharp_metadata w buffer = Ok info ->
  toLowerCase (format_or_unknown (sharp_format info)) = "heif"%string ->
  let r := validateImage w cfg buffer in
  isValid r = false /\
  In (InvalidFormat allowedFormats (format_or_unknown (sharp_format info)))
    (errors r) /\
  meta blurScore r = None /\ meta faceCount r = None /\
  meta faceSize r = None /\ meta hash r = None.
Proof.
  intros Hm Hf. cbv zeta. unfold validateImage. rewrite Hm. cbv zeta.
  change (format (decodedMetadata info buffer))
    with (format_or_unknown (sharp_format info)).
  unfold is_heic_format. rewrite Hf. cbn [String.eqb orb].
  change (String.eqb "heif" "heic") with false.
  change (String.eqb "heif" "heif") with true. cbn [orb isValid errors].
  assert (Hin : In (InvalidFormat allowedFormats
                      (format_or_unknown (sharp_format info)))
                  (basic_errors cfg (decodedMetadata info buffer))).
  { unfold basic_errors.
    change (format (decodedMetadata info buffer))
      with (format_or_unknown (sharp_format info)).
    rewrite Hf. change (includes allowedFormats "heif") with false.
    cbn [negb]. apply In_push. now right. }
  repeat split; try reflexivity; [|exact Hin].
  destruct (basic_errors cfg (decodedMetadata info buffer));
    [destruct Hin|reflexivity].
Qed.

Lemma validateImage_rejects_heif_witness :
  isValid (validateImage heifWorld (imageConfig noEnv) someBuffer) = false.
Proof.
  apply (validateImage_rejects_heif heifWorld (imageConfig noEnv) someBuffer
           {| sharp_width := Some 800; sharp_height := Some 800;
              sharp_format := Some "heif"%string |} eq_refl eq_refl).
Defined.

Lemma interior_small n : n <= 2 -> interior n = [].
Proof.
  intros H. unfold interior.
  replace (Z.to_nat (n - 2)) with 0%nat by lia. reflexivity.
Qed.

Lemma over_interior_no_pixel {S} (step : S -> float -> S) g width height init :
  width <= 2 \/ height <= 2 ->
  over_interior step g width height init = init.
Proof.
  unfold over_interior. intros [Hw|Hh].
  - rewrite (interior_small width Hw).
    induction (interior height) as [|y ys IH]; [reflexivity|exact IH].
  - now rewrite (interior_small height Hh).
Qed.

(** X4: an image with no interior pixel (decoded width or height at most
    2, or missing) has the blur score [NaN]: the loops do not run and the
    score is 0/0.  [NaN < 150] is false, so the blur step never adds a
    reason for such an image. *)
Theorem calculateBlurScore_without_interior w buffer g info :
  sharp_grayscale_raw w buffer = Ok g ->
  sharp_metadata w buffer = Ok info ->
  int_or0 (sharp_width info) <= 2 \/ int_or0 (sharp_height info) <= 2 ->
  calculateBlurScore w buffer = Ok PrimFloat.nan /\
  forall m errs, snd (blur_step w buffer (m, errs)) = errs.
Proof.
  intros Hg Hm Hsmall.
  assert (Hs : calculateBlurScore w buffer = Ok PrimFloat.nan).
  { unfold calculateBlurScore. rewrite Hg, Hm.
    rewrite !over_interior_no_pixel by exact Hsmall. reflexivity. }
  split; [exact Hs|]. intros m errs. unfold blur_step. rewrite Hs. reflexivity.
Qed.

Lemma calculateBlurScore_without_interior_witness :
  calculateBlurScore tinyWorld someBuffer = Ok PrimFloat.nan.
Proof.
  apply (calculateBlurScore_without_interior tinyWorld someBuffer checkerboard
           {| sharp_width := Some 2; sharp_height := Some 4;
              sharp_format := Some "png"%string |} eq_refl eq_refl).
  left. cbn. lia.
Defined.

Lemma maxFaceSize_no_box faces :
  Forall (fun f => BoundingBox_of f = None) faces ->
  fold_left maxFaceSize_step faces 0%float = 0%float.
Proof.
  induction 1 as [|f faces Hf _ IH]; [reflexivity|].
  cbn. unfold maxFaceSize_step at 2. rewrite Hf. exact IH.
Qed.

(** X5: faces reported without a bounding box count as faces but have no
    size.  A response with exactly one face and no box for it gives face
    count 1 and face size 0, so a decodable, non-HEIC buffer is rejected
    as "face too small". *)
Theorem validateImage_face_without_box w cfg buffer info f :
  sharp_metadata w buffer = Ok info ->
  is_heic_format (format_or_unknown (sharp_format info)) = false ->
  rekognition_send w buffer = Ok {| FaceDetails := Some [f] |} ->
  BoundingBox_of f = None ->
  detectFaces w buffer = Ok {| fd_faceCount := 1; fd_faceSize := 0%float |} /\
  isValid (validateImage w cfg buffer) = false /\
  In (FaceTooSmall 0%float) (errors (validateImage w cfg buffer)).
Proof.
  intros Hm Hh Hr Hf.
  assert (Hd : detectFaces w buffer
               = Ok {| fd_faceCount := 1; fd_faceSize := 0%float |}).
  { unfold detectFaces. rewrite Hr. cbn [FaceDetails default List.length].
    rewrite maxFaceSize_no_box by (repeat constructor; exact Hf). reflexivity. }
  split; [exact Hd|].
  assert (Hin : In (FaceTooSmall 0%float) (errors (validateImage w cfg buffer))).
  { unfold validateImage. rewrite Hm. cbv zeta.
    change (format (decodedMetadata info buffer))
      with (format_or_unknown (sharp_format info)).
    rewrite Hh, advancedValidation_errors.
    destruct (blur_step w buffer _) as [m1 e1].
    unfold face_step. rewrite Hd. cbn [fd_faceCount fd_faceSize snd].
    change (1 =? 0) with false. change (1 <? 1) with false.
    change (0 <? 0.15)%float with true. cbv iota.
    apply In_push. now right. }
  split; [|exact Hin].
  destruct (isValid (validateImage w cfg buffer)) eqn:Hv; [|reflexivity].
  apply validateImage_verdict in Hv. rewrite Hv in Hin.
  destruct Hin.
Qed.

Lemma validateImage_face_without_box_witness :
  In (FaceTooSmall 0%float)
    (errors (validateImage noBoxWorld (imageConfig smallEnv) someBuffer)).
Proof.
  apply (validateImage_face_without_box noBoxWorld (imageConfig smallEnv)
           someBuffer jpeg4x4 {| BoundingBox_of := None |}
           eq_refl eq_refl eq_refl eq_refl).
Defined.
End ValidationExtras.

(** ** What a single-shot upload writes *)

Section UploadEffects.
Import Js Config External Types Handler Logic Services ImageProcessing.
Import Middleware ImageController Invariants Scenario Scenario2.

Lemma not_duplicate_find w d h :
  fault w Db_image_findFirst = None ->
  checkForDuplicates w d h = false ->
  find (Prisma.hash_is h) (Prisma.images d) = None.
Proof.
  intros Hf. unfold checkForDuplicates, Prisma.image_findFirst, Prisma.guarded.
  rewrite Hf. destruct (find _ _); [|reflexivity].
  rewrite bool_decide_eq_true_2 by eauto. discriminate.
Qed.

(** The duplicate gate reads the store and never throws. *)
Lemma duplicateOf_run w r st :
  exists b,
    duplicateOf w r st = (Ok b, st) /\
    (b = false ->
     forall h, meta hash r = Some h -> str_truthy h = true ->
               checkForDuplicates w (db st) h = false).
Proof.
  unfold duplicateOf. destruct (meta hash r) as [h|].
  - destruct (str_truthy h) eqn:Ht.
    + exists (checkForDuplicates w (db st) h). split; [reflexivity|].
      intros Hb h' [= <-] _. exact Hb.
    + exists false. split; [reflexivity|]. intros _ h' [= <-] Ht'. congruence.
  - exists false. split; [reflexivity|]. intros _ h' Hh. discriminate Hh.
Qed.

Lemma cache_step w key v st :
  exists st1,
    try_catch (setCompressed w key v) (fun _ => ret tt) st = (Ok tt, st1) /\
    db st1 = db st /\ s3 st1 = s3 st /\ chunkStorage st1 = chunkStorage st.
Proof.
  unfold try_catch, setCompressed.
  destruct (fault w Redis_set); cbn; eauto.
Qed.

(** What one run of [uploadImage] does to the state: it always answers;
    it leaves the sessions and the chunk map alone and never removes a
    key of the bucket; and either the image table is unchanged, or exactly
    one row was appended, whose blob was first put in the bucket under its
    key, and whose hash is the hash of the accepting validation result. *)
Lemma uploadImage_effect w cfg req st :
  exists r st',
    uploadImage w cfg req st = (Ok r, st') /\
    chunkStorage st' = chunkStorage st /\
    Prisma.uploadSessions (db st') = Prisma.uploadSessions (db st) /\
    (forall k, is_Some (s3 st !! k) -> is_Some (s3 st' !! k)) /\
    ((Prisma.images (db st') = Prisma.images (db st) /\
      statusCode r <> 201 /\
      (statusCode r = 400 -> s3 st' = s3 st))
     \/
     (exists row blob,
        Prisma.images (db st') = Prisma.images (db st) ++ [row] /\
        (statusCode r = 201 \/ statusCode r = 500) /\
        let c := Prisma.Image.columns row in
        Prisma.Image.status c = Prisma.VALIDATED /\
        Prisma.Image.s3Key c = "images/" +:+ Prisma.Image.filename c /\
        s3 st' = <[Prisma.Image.s3Key c := (blob, Prisma.Image.mimeType c)]> (s3 st) /\
        Prisma.Image.size c = Z.of_nat (List.length blob) /\
        (forall h, indexedHash row = Some h ->
                   fault w Db_image_findFirst = None ->
                   find (Prisma.hash_is h) (Prisma.images (db st)) = None) /\
        exists f,
          file req = Some f /\
          let vr := validationOf w cfg f (fst (convertIfHeic w req f))
                      (snd (convertIfHeic w req f)) in
          isValid vr = true /\
          Prisma.Image.hash c = meta hash vr)).
Proof.
  unfold uploadImage. unfold try_catch at 1.
  destruct (file req) as [f|].
  2: { eexists _, _. split; [reflexivity|]. repeat split; auto;
       try (left; repeat split; cbn; auto; lia). }
  destruct (convertIfHeic w req f) as [pb fm] eqn:Hconv.
  set (vr := validationOf w cfg f pb fm).
  unfold bind at 1.
  destruct (cache_step w
              ("image:validation:" +:+ default (originalname f) (meta hash vr))
              vr st) as (st1 & -> & Hdb1 & Hs31 & Hch1).
  destruct (negb (isValid vr)) eqn:Hvalid.
  { eexists _, _. split; [reflexivity|]. rewrite Hdb1, Hs31, Hch1.
    repeat split; auto; try (left; repeat split; cbn; auto; lia). }
  unfold bind at 1.
  destruct (duplicateOf_run w vr st1) as (b & -> & Hdup).
  destruct b.
  { eexists _, _. split; [reflexivity|]. rewrite Hdb1, Hs31, Hch1.
    repeat split; auto; try (left; repeat split; cbn; auto; lia). }
  specialize (Hdup eq_refl).
  unfold bind at 1. unfold uploadFile.
  destruct (fault w S3_putObject) as [e|].
  { cbn. eexists _, _. split; [reflexivity|]. rewrite Hdb1, Hs31, Hch1.
    repeat split; auto; try (left; repeat split; cbn; auto; lia). }
  unfold modify. unfold bind at 1. unfold await.
  set (key := "images/" +:+ pretty (Date_now w) +:+ "-" +:+ originalname f).
  assert (Hkeep : forall k, is_Some (s3 st !! k) ->
                            is_Some (<[key := (pb, fm)]> (s3 st1) !! k)).
  { intros k Hk. rewrite Hs31. destruct (decide (key = k)) as [->|Hne].
    - rewrite lookup_insert_eq. eauto.
    - now rewrite lookup_insert_ne. }
  destruct (imageInfoOf w f pb fm) as [info|e].
  2: { eexists _, _. split; [reflexivity|]. cbn. rewrite Hdb1, Hch1.
       repeat split; auto; try (left; repeat split; auto; cbn; lia). }
  unfold bind at 1. unfold db_write, Prisma.image_create, Prisma.guarded.
  destruct (fault w Db_image_create) as [e|].
  { eexists _, _. split; [reflexivity|]. cbn. rewrite Hdb1, Hch1.
    repeat split; auto; try (left; repeat split; auto; cbn; lia). }
  cbn [db with_s3 with_db].
  assert (Hhash : forall row,
             Prisma.Image.hash (Prisma.Image.columns row) = meta hash vr ->
             forall h, indexedHash row = Some h ->
                       fault w Db_image_findFirst = None ->
                       find (Prisma.hash_is h) (Prisma.images (db st)) = None).
  { intros row Hrow h Hh Hf. unfold indexedHash in Hh. rewrite Hrow in Hh.
    destruct (meta hash vr) as [h0|] eqn:Hm; [|discriminate].
    destruct (str_truthy h0) eqn:Ht; [|discriminate]. injection Hh as <-.
    rewrite <- Hdb1. apply (not_duplicate_find w); [exact Hf|].
    now apply Hdup. }
  unfold bind, getSignedDownloadUrl.
  destruct (fault w S3_getSignedUrl) as [e|]; cbn;
    (eexists _, _; split; [reflexivity|]; cbn; rewrite ?Hdb1, ?Hch1;
     repeat split; auto; right; eexists _, pb; cbn;
     rewrite ?Hdb1, ?Hs31; repeat split; auto;
     first [ apply Hhash; reflexivity
           | exists f; rewrite Hconv; cbn [fst snd]; fold vr;
             split; [reflexivity|]; split; [|reflexivity];
             now apply negb_false_iff in Hvalid ]).
Qed.
End UploadEffects.

Section UploadInvariants.
Import Js Config External Types Handler Logic Services ImageProcessing.
Import Middleware ImageController Invariants Scenario Scenario2.

Lemma commitsAtMostOne_refl w st : commitsAtMostOne w st st.
Proof. split; auto. Qed.

Lemma uploadImage_commitsAtMostOne w cfg req st :
  commitsAtMostOne w st (snd (uploadImage w cfg req st)).
Proof.
  destruct (uploadImage_effect w cfg req st)
    as (r & st' & -> & _ & _ & Hkeep & [(Hsame & _)|(row & blob & Hrow)]).
  - split; [exact Hkeep|]. now left.
  - cbv zeta in Hrow.
    destruct Hrow as (Himgs & _ & Hst & Hkey & Hs3 & _ & Hhash & _).
    split; [exact Hkeep|]. right. exists row. cbn [snd].
    repeat split; auto. rewrite Hs3, lookup_insert_eq. eauto.
Qed.

Lemma uploadRoute_commitsAtMostOne w cfg req st :
  commitsAtMostOne w st (snd (uploadRoute w cfg req st)).
Proof.
  unfold uploadRoute, uploadSingle, fileFilter, validateFileUpload. cbv zeta.
  destruct (file req) as [f|]; [|apply commitsAtMostOne_refl].
  destruct (includes _ (mimetype f)) eqn:Hinc; cbv beta iota;
    [|apply commitsAtMostOne_refl].
  destruct (_ <? _) eqn:Hsz; cbv beta iota; [apply commitsAtMostOne_refl|].
  rewrite Hinc, Hsz. cbn [negb]. cbv beta iota.
  apply uploadImage_commitsAtMostOne.
Qed.

Lemma find_none_not_indexed h l :
  find (Prisma.hash_is h) l = None -> ~ In h (omap indexedHash l).
Proof.
  induction l as [|r l IH]; cbn; [tauto|].
  destruct (Prisma.hash_is h r) eqn:Hr; [discriminate|].
  intros Hf. specialize (IH Hf).
  unfold Prisma.hash_is in Hr. unfold indexedHash at 1.
  destruct (Prisma.Image.hash (Prisma.Image.columns r)) as [h'|]; [|exact IH].
  destruct (str_truthy h'); [|exact IH].
  cbn. intros [->|Hin]; [|tauto].
  rewrite String.eqb_refl in Hr. discriminate.
Qed.

Lemma omap_snoc {A B} (f : A -> option B) l x :
  omap f (l ++ [x]) = omap f l ++ match f x with Some y => [y] | None => [] end.
Proof.
  induction l as [|a l IH]; cbn.
  - destruct (f x); reflexivity.
  - rewrite IH. destruct (f a); reflexivity.
Qed.

Lemma commitsAtMostOne_hashes w st st' :
  fault w Db_image_findFirst = None ->
  commitsAtMostOne w st st' -> hashesDistinct st -> hashesDistinct st'.
Proof.
  intros Hf [_ [Hsame|(row & Himgs & _ & _ & Hnew)]] Hd; unfold hashesDistinct.
  - now rewrite Hsame.
  - rewrite Himgs, omap_snoc.
    destruct (indexedHash row) as [h|] eqn:Hh; [|now rewrite app_nil_r].
    apply NoDup_app. split; [exact Hd|]. split; [|apply NoDup_singleton].
    intros y Hy Hin. apply list_elem_of_singleton in Hin as ->.
    apply list_elem_of_In in Hy.
    exact (find_none_not_indexed h _ (Hnew h eq_refl Hf) Hy).
Qed.

(** X6: a 400 answer of [uploadImage] (no file, validation failed,
    duplicate) means nothing was stored: the bucket, the image table, the
    sessions and the chunk map are as before (the validation cache is the
    one store that may have been written). *)
Theorem uploadImage_rejection_writes_nothing w cfg req st r st' :
  uploadImage w cfg req st = (Ok r, st') ->
  statusCode r = 400 ->
  s3 st' = s3 st /\ db st' = db st /\ chunkStorage st' = chunkStorage st.
Proof.
  intros Hrun Hcode.
  destruct (uploadImage_effect w cfg req st)
    as (r0 & st0 & Hrun0 & Hch & Hsess & _ & Heff).
  rewrite Hrun in Hrun0. injection Hrun0 as <- <-.
  destruct Heff as [(Himgs & _ & Hs3)|(row & blob & _ & [H|H] & _)]; [|lia|lia].
  repeat split; auto.
  destruct (db st') as [i1 u1], (db st) as [i2 u2]. cbn in *. congruence.
Qed.

Lemma uploadImage_rejection_writes_nothing_witness :
  s3 (snd (uploadImage converts (imageConfig smallEnv) heicByMime emptyState))
  = s3 emptyState.
Proof.
  apply (uploadImage_rejection_writes_nothing converts (imageConfig smallEnv)
           heicByMime emptyState
           (json 400 (UploadRejectedBody [NoFaceDetected]))
           (snd (uploadImage converts (imageConfig smallEnv) heicByMime
                   emptyState))
           eq_refl eq_refl).
Defined.

(** X7: a 201 answer of [uploadImage] means exactly one row was appended
    to the image table, the rows before it untouched; the row is VALIDATED,
    its key is ["images/"] followed by its file name, and the bucket holds
    under that key a blob with the MIME type and the size of the row. *)
Theorem uploadImage_success_commits_one_row w cfg req st r st' :
  uploadImage w cfg req st = (Ok r, st') ->
  statusCode r = 201 ->
  exists row blob,
    Prisma.images (db st') = Prisma.images (db st) ++ [row] /\
    let c := Prisma.Image.columns row in
    Prisma.Image.status c = Prisma.VALIDATED /\
    Prisma.Image.s3Key c = "images/" +:+ Prisma.Image.filename c /\
    s3 st' !! Prisma.Image.s3Key c = Some (blob, Prisma.Image.mimeType c) /\
    Prisma.Image.size c = Z.of_nat (List.length blob).
Proof.
  intros Hrun Hcode.
  destruct (uploadImage_effect w cfg req st)
    as (r0 & st0 & Hrun0 & _ & _ & _ & Heff).
  rewrite Hrun in Hrun0. injection Hrun0 as <- <-.
  destruct Heff as [(_ & Hne & _)|(row & blob & Hrow)]; [congruence|].
  cbv zeta in Hrow. destruct Hrow as (Himgs & _ & Hst & Hkey & Hs3 & Hsz & _).
  exists row, blob. cbv zeta. repeat split; auto.
  rewrite Hs3. apply lookup_insert_eq.
Qed.

Lemma uploadImage_success_commits_one_row_witness :
  exists row blob,
    Prisma.images
      (db (snd (uploadImage healthy (imageConfig smallEnv) jpegUpload emptyState)))
    = [row] /\
    s3 (snd (uploadImage healthy (imageConfig smallEnv) jpegUpload emptyState))
      !! Prisma.Image.s3Key (Prisma.Image.columns row)
    = Some (blob, Prisma.Image.mimeType (Prisma.Image.columns row)).
Proof.
  destruct (uploadImage healthy (imageConfig smallEnv) jpegUpload emptyState)
    as [[r|e] st'] eqn:Hrun; [|discriminate Hrun].
  assert (Hcode : statusCode r = 201).
  { vm_compute in Hrun. injection Hrun as <- _. reflexivity. }
  destruct (uploadImage_success_commits_one_row healthy (imageConfig smallEnv)
              jpegUpload emptyState r st' Hrun Hcode)
    as (row & blob & Himgs & _ & _ & Hs3 & _).
  exists row, blob. split; [exact Himgs|exact Hs3].
Defined.



End UploadInvariants.

(** ** What a chunk append writes to the image table and the bucket *)

Section ChunkEffects.
Import Js Config External Types Handler Logic Services ImageProcessing.
Import Invariants ChunkedUpload.

Lemma update_reads w sid f P : readsView P -> stable P (update w sid f).
Proof.
  intros HP. unfold update, db_update. apply stable_db_write.
  intros a d st Hd Hst. unfold Prisma.uploadSession_update in Hd.
  destruct (fault w Db_uploadSession_update); [discriminate|].
  destruct (Prisma.uploadSessions (db st) !! sid); [|discriminate].
  injection Hd as <- <-. eapply HP; [| |exact Hst]; reflexivity.
Qed.

Lemma deleteChunks_reads sid P : readsView P -> stable P (deleteChunks sid).
Proof.
  intros HP. apply stable_modify. intros st Hst.
  eapply HP; [| |exact Hst]; reflexivity.
Qed.

Lemma createOrGetSession_reads w req P :
  readsView P -> stable P (createOrGetSession w req).
Proof.
  intros HP. unfold createOrGetSession. apply stable_bind.
  - destruct (sessionId req) as [sid|]; [|apply stable_ret].
    destruct (str_truthy sid); [|apply stable_ret].
    apply triple_db_read; auto.
  - intros [s|]; [apply stable_ret|].
    apply stable_db_write. intros a d st Hd Hst.
    unfold Prisma.uploadSession_create, Prisma.guarded in Hd.
    destruct (fault w Db_uploadSession_create); [discriminate|].
    injection Hd as <- <-. eapply HP; [| |exact Hst]; reflexivity.
Qed.

Lemma storeChunk_reads w req sid P :
  readsView P -> stable P (storeChunk w req sid).
Proof.
  intros HP. unfold storeChunk.
  apply stable_bind; [apply stable_gets|intros stored].
  apply stable_bind.
  { destruct stored; [apply stable_ret|apply stable_await]. }
  intros chunks0. apply stable_bind; [|intros; apply stable_ret].
  apply stable_modify. intros st Hst. eapply HP; [| |exact Hst]; reflexivity.
Qed.

Lemma processFailed_reads w sid e P :
  readsView P -> stable P (processFailed w sid e).
Proof.
  intros HP. unfold processFailed.
  apply stable_bind; [now apply update_reads|intros _].
  apply stable_bind; [now apply deleteChunks_reads|intros _; apply stable_ret].
Qed.

Lemma sameView_reads st0 : readsView (sameView st0).
Proof. intros st st' Hi Hs [H1 H2]. split; congruence. Qed.

Lemma blobPut_reads st0 key blob mime : readsView (blobPut st0 key blob mime).
Proof. intros st st' Hi Hs [H1 H2]. split; congruence. Qed.

Lemma commitsAtMostOne_reads w st0 : readsView (commitsAtMostOne w st0).
Proof.
  intros st st' Hi Hs [Hkeep Himgs]. split.
  - intros k Hk. rewrite Hs. auto.
  - rewrite Hi. destruct Himgs as [H|(row & H1 & [Hk Hst] & H3)]; [now left|].
    right. exists row. split; [exact H1|]. split; [|exact H3].
    split; [exact Hk|]. now rewrite Hs.
Qed.

Lemma sameView_commits w st0 st : sameView st0 st -> commitsAtMostOne w st0 st.
Proof.
  intros [Hi Hs]. split; [intros k Hk; now rewrite Hs|now left].
Qed.

Lemma blobPut_commits w st0 key blob mime st :
  blobPut st0 key blob mime st -> commitsAtMostOne w st0 st.
Proof.
  intros [Hi Hs]. split; [|now left].
  intros k Hk. rewrite Hs. destruct (decide (key = k)) as [->|Hne].
  - rewrite lookup_insert_eq. eauto.
  - now rewrite lookup_insert_ne.
Qed.

(** A stable property, weakened to the two postconditions of a triple. *)
Lemma stable_triple {A} P (c : M A) (Q : A -> State -> Prop) E :
  stable P c ->
  (forall st, P st -> forall a, Q a st) ->
  (forall st, P st -> forall e, E e st) ->
  triple P c Q E.
Proof.
  intros Hc HQ HE. eapply triple_conseq; [exact Hc| | |]; cbv beta; auto.
Qed.

Lemma duplicateOf_chunk_run w r st :
  exists b,
    duplicateOf w r st = (Ok b, st) /\
    (b = false ->
     forall h, meta hash r = Some h -> str_truthy h = true ->
               checkForDuplicates w (db st) h = false).
Proof.
  unfold duplicateOf. destruct (meta hash r) as [h|].
  - destruct (str_truthy h) eqn:Ht.
    + exists (checkForDuplicates w (db st) h). split; [reflexivity|].
      intros Hb h' [= <-] _. exact Hb.
    + exists false. split; [reflexivity|]. intros _ h' [= <-] Ht'. congruence.
  - exists false. split; [reflexivity|]. intros _ h' Hh. discriminate Hh.
Qed.

Lemma checkForDuplicates_images w d d' h :
  Prisma.images d' = Prisma.images d ->
  checkForDuplicates w d' h = checkForDuplicates w d h.
Proof.
  intros H. unfold checkForDuplicates, Prisma.image_findFirst. now rewrite H.
Qed.

(** The fail-and-release tail of the completion path. *)
Lemma fail_tail_reads w sid P (r : Response) :
  readsView P ->
  stable P (bind (update w sid (US.set_status Prisma.FAILED))
              (fun _ => bind (deleteChunks sid) (fun _ => ret r))).
Proof.
  intros HP.
  apply stable_bind; [now apply update_reads|intros _].
  apply stable_bind; [now apply deleteChunks_reads|intros _; apply stable_ret].
Qed.

Lemma processCompleted_commits w cfg req sid chunks st0 :
  triple (sameView st0) (processCompleted w cfg req sid chunks)
    (fun _ => commitsAtMostOne w st0) (fun _ => commitsAtMostOne w st0).
Proof.
  pose proof (sameView_reads st0) as Hsv.
  pose proof (commitsAtMostOne_reads w st0) as Hcm.
  unfold processCompleted. cbv zeta.
  eapply triple_bind with (R := fun _ => sameView st0).
  { apply stable_triple; [apply stable_await|auto|].
    intros st H e. now apply sameView_commits. }
  intros completeBuffer.
  eapply triple_bind with (R := fun _ => sameView st0).
  { apply stable_triple; [|auto|intros st H e; now apply sameView_commits].
    destruct (is_heic_upload _ _); [|apply stable_ret].
    apply stable_bind; [apply stable_await|intros []; apply stable_ret]. }
  intros [processedBuffer finalMimeType].
  set (vr := validateImage w cfg processedBuffer).
  destruct (negb (isValid vr)).
  { apply stable_triple; [now apply fail_tail_reads| |];
      intros st H ?; now apply sameView_commits. }
  eapply triple_bind with
    (R := fun b st =>
            sameView st0 st /\
            (b = false ->
             forall h, meta hash vr = Some h -> str_truthy h = true ->
                       checkForDuplicates w (db st0) h = false)).
  { intros st Hst. destruct (duplicateOf_chunk_run w vr st) as (b & -> & Hb).
    split; [exact Hst|]. intros Hf h Hh Ht.
    rewrite (checkForDuplicates_images w (db st) (db st0) h);
      [now apply Hb|]. symmetry. apply Hst. }
  intros [|].
  { eapply triple_conseq with (P' := sameView st0);
      [apply fail_tail_reads, Hsv|tauto| |];
      cbv beta; intros ? st H; now apply sameView_commits. }
  set (key := "images/" +:+ pretty (Date_now w) +:+ "-" +:+ Types.filename req).
  intros st [Hst Hdup]. specialize (Hdup eq_refl). revert st Hst.
  change (triple (sameView st0)
    (bind (uploadFile w key processedBuffer finalMimeType) (fun _ =>
       bind (await (getImageMetadata w processedBuffer)) (fun imageInfo =>
         bind (db_write (fun d => Prisma.image_create w d
                 {| Prisma.Image.filename :=
                      pretty (Date_now w) +:+ "-" +:+ Types.filename req;
                    Prisma.Image.originalName := Types.filename req;
                    Prisma.Image.mimeType := finalMimeType;
                    Prisma.Image.size := Z.of_nat (List.length processedBuffer);
                    Prisma.Image.width := info_width imageInfo;
                    Prisma.Image.height := info_height imageInfo;
                    Prisma.Image.s3Key := key;
                    Prisma.Image.status := Prisma.VALIDATED;
                    Prisma.Image.hash := meta hash vr;
                    Prisma.Image.blurScore := meta blurScore vr;
                    Prisma.Image.faceCount := meta faceCount vr;
                    Prisma.Image.faceSize := meta faceSize vr;
                    Prisma.Image.validationResults :=
                      (isValid vr, errors vr) |})) (fun image =>
           bind (update w sid
                   (fun s => US.set_s3Key key (US.set_status Prisma.COMPLETED s)))
             (fun _ =>
                bind (deleteChunks sid) (fun _ =>
                  bind (getSignedDownloadUrl w key) (fun downloadUrl =>
                    ret (json 200
                           (ChunkCompletedBody
                              (imageResponse image downloadUrl))))))))))
    (fun _ => commitsAtMostOne w st0) (fun _ => commitsAtMostOne w st0)).
  eapply triple_bind with
    (R := fun _ => blobPut st0 key processedBuffer finalMimeType).
  { unfold uploadFile. destruct (fault w S3_putObject).
    - apply triple_throw. intros st H. now apply sameView_commits.
    - apply triple_modify. intros st [Hi Hs]. split; [exact Hi|].
      cbn. now rewrite Hs. }
  intros _.
  pose proof (blobPut_reads st0 key processedBuffer finalMimeType) as Hbp.
  eapply triple_bind with
    (R := fun _ => blobPut st0 key processedBuffer finalMimeType).
  { apply stable_triple; [apply stable_await|auto|].
    intros st H e. eapply blobPut_commits, H. }
  intros imageInfo.
  eapply triple_bind with (R := fun _ => commitsAtMostOne w st0).
  { apply triple_db_write.
    - intros image d st Hd [Hi Hs].
      unfold Prisma.image_create, Prisma.guarded in Hd.
      destruct (fault w Db_image_create); [discriminate|].
      injection Hd as <- <-. split.
      + intros k Hk. cbn. rewrite Hs.
        destruct (decide (key = k)) as [->|Hne].
        * rewrite lookup_insert_eq. eauto.
        * now rewrite lookup_insert_ne.
      + right. eexists. split; [cbn; rewrite Hi; reflexivity|].
        split; [|split; [reflexivity|]].
        * split; [reflexivity|]. cbn. rewrite Hs, lookup_insert_eq. eauto.
        * intros h Hh Hf. unfold indexedHash in Hh. cbn in Hh.
          destruct (meta hash vr) as [h0|] eqn:Hm; [|discriminate].
          destruct (str_truthy h0) eqn:Ht; [|discriminate].
          injection Hh as <-.
          apply (not_duplicate_find w); [exact Hf|]. now apply Hdup.
    - intros e st _ H. eapply blobPut_commits, H. }
  intros image.
  apply stable_bind; [now apply update_reads|intros _].
  apply stable_bind; [now apply deleteChunks_reads|intros _].
  apply stable_bind; [apply getSignedDownloadUrl_stable|intros url].
  apply stable_ret.
Qed.

(** Whatever a chunk append does, it removes no key of the bucket and
    commits at most one image row, with its key in the bucket and no hash
    that is a known duplicate. *)
Lemma uploadChunk_commitsAtMostOne w cfg req st :
  commitsAtMostOne w st (snd (uploadChunk w cfg req st)).
Proof.
  pose proof (sameView_reads st) as Hsv.
  pose proof (commitsAtMostOne_reads w st) as Hcm.
  assert (T : triple (sameView st) (uploadChunk w cfg req)
                (fun _ => commitsAtMostOne w st)
                (fun _ => commitsAtMostOne w st)).
  { unfold uploadChunk.
    apply triple_try_catch with (F := fun _ => commitsAtMostOne w st);
      [|intros e; now apply stable_ret].
    eapply triple_bind with (R := fun _ => sameView st).
    { apply stable_triple; [now apply createOrGetSession_reads|auto|].
      intros st1 H e. now apply sameView_commits. }
    intros session. cbv zeta.
    eapply triple_bind with (R := fun _ => sameView st).
    { apply stable_triple; [now apply storeChunk_reads|auto|].
      intros st1 H e. now apply sameView_commits. }
    intros chunks.
    eapply triple_bind with (R := fun _ => sameView st).
    { apply stable_triple; [now apply update_reads|auto|].
      intros st1 H e. now apply sameView_commits. }
    intros u. destruct (every is_defined chunks).
    - eapply triple_try_catch; [apply processCompleted_commits|].
      intros e. now apply processFailed_reads.
    - apply triple_ret. intros st1 H. now apply sameView_commits. }
  specialize (T st (conj eq_refl eq_refl)).
  destruct (uploadChunk w cfg req st) as [[r|e] st']; exact T.
Qed.

Lemma chunkedUploadRoute_commitsAtMostOne w cfg req st :
  commitsAtMostOne w st (snd (chunkedUploadRoute w cfg req st)).
Proof.
  unfold chunkedUploadRoute, Middleware.validateChunkUpload,
    Middleware.handleValidationErrors.
  destruct (Middleware.chunkUploadErrors req).
  - apply uploadChunk_commitsAtMostOne.
  - apply commitsAtMostOne_refl.
Qed.
End ChunkEffects.

(** ** Deleting an image *)

Section DeleteImage.
Import Js Config External Types Handler Infra S3Service ImageAdmin.
Import Invariants Scenario Scenario2.

(** The runs of [deleteImage], by what the three calls do. *)
Lemma deleteImage_cases x id st :
  exists r st',
    deleteImage x id st = (Ok r, st') /\
    Prisma.uploadSessions (db st') = Prisma.uploadSessions (db st) /\
    chunkStorage st' = chunkStorage st /\
    cache st' = cache st /\
    ((statusCode r = 200 /\
      exists i,
        find (has_id id) (Prisma.images (db st)) = Some i /\
        Prisma.images (db st') =
          List.filter (fun r => negb (has_id id r)) (Prisma.images (db st)) /\
        s3 st' = delete (Prisma.Image.s3Key (Prisma.Image.columns i)) (s3 st))
     \/
     (statusCode r = 404 /\
      find (has_id id) (Prisma.images (db st)) = None /\ st' = st)
     \/
     (statusCode r = 500 /\
      Prisma.images (db st') = Prisma.images (db st) /\
      (s3 st' = s3 st \/
       exists i,
         find (has_id id) (Prisma.images (db st)) = Some i /\
         s3 st' = delete (Prisma.Image.s3Key (Prisma.Image.columns i)) (s3 st)))).
Proof.
  unfold deleteImage, try_catch, bind, image_findUnique, deleteFile,
    image_delete, modify, throw, ret.
  destruct (x Db_image_findUnique).
  { eexists _, _. split; [reflexivity|]. repeat split. right. right.
    repeat split. now left. }
  destruct (find (has_id id) (Prisma.images (db st))) as [i|] eqn:Hfind.
  2: { eexists _, _. split; [reflexivity|]. repeat split. right. left.
       repeat split. }
  destruct (x S3_deleteObject).
  { eexists _, _. split; [reflexivity|]. repeat split. right. right.
    repeat split. now left. }
  cbn. destruct (x Db_image_delete).
  { eexists _, _. split; [reflexivity|]. repeat split. right. right.
    repeat split. right. exists i. split; reflexivity. }
  rewrite Hfind. eexists _, _. split; [reflexivity|]. repeat split.
  left. split; [reflexivity|]. exists i. repeat split.
Qed.

Lemma find_filter_negb {A} (p : A -> bool) (l : list A) :
  find p (List.filter (fun a => negb (p a)) l) = None.
Proof.
  induction l as [|a l IH]; [reflexivity|]. cbn.
  destruct (p a) eqn:Hp; cbn; [exact IH|]. now rewrite Hp.
Qed.

(** X8: with the image table and the bucket answering, [deleteImage] of a
    known id answers 200; afterwards no row has the id, every other row is
    kept in its place, and the bucket no longer holds the blob of the
    row. *)
Theorem deleteImage_removes_row_and_blob x id st i :
  x Db_image_findUnique = None ->
  x S3_deleteObject = None ->
  x Db_image_delete = None ->
  find (has_id id) (Prisma.images (db st)) = Some i ->
  exists r st',
    deleteImage x id st = (Ok r, st') /\
    statusCode r = 200 /\
    find (has_id id) (Prisma.images (db st')) = None /\
    Prisma.images (db st') =
      List.filter (fun r => negb (has_id id r)) (Prisma.images (db st)) /\
    s3 st' !! Prisma.Image.s3Key (Prisma.Image.columns i) = None /\
    (forall k, k <> Prisma.Image.s3Key (Prisma.Image.columns i) ->
               s3 st' !! k = s3 st !! k).
Proof.
  intros H1 H2 H3 Hfind.
  unfold deleteImage, try_catch, bind, image_findUnique, deleteFile,
    image_delete, modify, throw, ret.
  rewrite H1, Hfind, H2. cbn. rewrite H3, Hfind.
  eexists _, _. split; [reflexivity|]. cbn.
  split; [reflexivity|]. split; [apply find_filter_negb|].
  split; [reflexivity|]. split; [apply lookup_delete_eq|].
  intros k Hk. now apply lookup_delete_ne.
Qed.

Lemma deleteImage_removes_row_and_blob_witness :
  exists r st',
    deleteImage noFaults "img1" stateWithImage = (Ok r, st') /\
    statusCode r = 200 /\
    Prisma.images (db st') = [] /\
    s3 st' !! "images/1-a.jpg"%string = None.
Proof.
  destruct (deleteImage_removes_row_and_blob noFaults "img1" stateWithImage
              (committed "9f86d081884c7d65") eq_refl eq_refl eq_refl eq_refl)
    as (r & st' & Hrun & Hcode & _ & Himgs & Hblob & _).
  exists r, st'. split; [exact Hrun|]. split; [exact Hcode|].
  split; [exact Himgs|exact Hblob].
Defined.

(** X9: when the bucket deletes the blob and the image table then refuses
    to delete the row, [deleteImage] answers 500 with the message of the
    table; the row stays in the table and its blob is gone. *)
Theorem deleteImage_failed_row_delete_orphans_row x id st i e :
  x Db_image_findUnique = None ->
  x S3_deleteObject = None ->
  x Db_image_delete = Some e ->
  find (has_id id) (Prisma.images (db st)) = Some i ->
  exists st',
    deleteImage x id st =
      (Ok (json 500 (ErrorBody "Failed to delete image"
                       (Message (errorMessage e)))), st') /\
    Prisma.images (db st') = Prisma.images (db st) /\
    s3 st' !! Prisma.Image.s3Key (Prisma.Image.columns i) = None.
Proof.
  intros H1 H2 H3 Hfind.
  unfold deleteImage, try_catch, bind, image_findUnique, deleteFile,
    image_delete, modify, throw, ret.
  rewrite H1, Hfind, H2. cbn. rewrite H3.
  eexists. split; [reflexivity|]. cbn. split; [reflexivity|].
  apply lookup_delete_eq.
Qed.

Lemma deleteImage_failed_row_delete_orphans_row_witness :
  exists st',
    deleteImage rowDeleteDown "img1" stateWithImage =
      (Ok (json 500 (ErrorBody "Failed to delete image"
                       (Message "Connection lost"))), st') /\
    Prisma.images (db st') = [committed "9f86d081884c7d65"] /\
    s3 st' !! "images/1-a.jpg"%string = None.
Proof.
  exact (deleteImage_failed_row_delete_orphans_row rowDeleteDown "img1"
           stateWithImage (committed "9f86d081884c7d65")
           (ErrorObj "Connection lost") eq_refl eq_refl eq_refl eq_refl).
Defined.

(** X20: when the bucket refuses to delete the blob, [deleteImage]
    answers 500 with the message of the bucket behind the prefix of
    [deleteFile], and changes nothing: the row and the blob stay. *)
Theorem deleteImage_failed_blob_delete_changes_nothing x id st i e :
  x Db_image_findUnique = None ->
  x S3_deleteObject = Some e ->
  find (has_id id) (Prisma.images (db st)) = Some i ->
  deleteImage x id st =
    (Ok (json 500
           (ErrorBody "Failed to delete image"
              (Message ("Failed to delete file from S3: " +:+ errorMessage e)))),
     st).
Proof.
  intros H1 H2 Hfind.
  unfold deleteImage, try_catch, bind, image_findUnique, deleteFile,
    image_delete, modify, throw, ret.
  rewrite H1, Hfind, H2. reflexivity.
Qed.

Lemma deleteImage_failed_blob_delete_changes_nothing_witness :
  deleteImage bucketReadOnly "img1" stateWithImage =
    (Ok (json 500
           (ErrorBody "Failed to delete image"
              (Message "Failed to delete file from S3: AccessDenied"))),
     stateWithImage).
Proof.
  exact (deleteImage_failed_blob_delete_changes_nothing bucketReadOnly "img1"
           stateWithImage (committed "9f86d081884c7d65")
           (ErrorObj "AccessDenied") eq_refl eq_refl eq_refl).
Defined.

(** X10: [deleteImage] never throws and answers 200, 404 or 500; it leaves
    the session table, the chunk map and the cache alone; it adds no row
    and no blob; and unless it answers 200 the image table is as
    before. *)
Theorem deleteImage_answers_and_only_removes x id st :
  exists r st',
    deleteImage x id st = (Ok r, st') /\
    (statusCode r = 200 \/ statusCode r = 404 \/ statusCode r = 500) /\
    Prisma.uploadSessions (db st') = Prisma.uploadSessions (db st) /\
    chunkStorage st' = chunkStorage st /\
    cache st' = cache st /\
    (forall row, row ∈ Prisma.images (db st') -> row ∈ Prisma.images (db st)) /\
    (forall k, is_Some (s3 st' !! k) -> is_Some (s3 st !! k)) /\
    (statusCode r <> 200 -> Prisma.images (db st') = Prisma.images (db st)).
Proof.
  destruct (deleteImage_cases x id st)
    as (r & st' & Hrun & Hs & Hc & Hk & Hcases).
  exists r, st'. split; [exact Hrun|].
  assert (Hdel : forall (m : gmap string (Buffer * string)) key k,
             is_Some (delete key m !! k) -> is_Some (m !! k)).
  { intros m key k [v Hv]. apply lookup_delete_Some in Hv as [_ Hv]. eauto. }
  destruct Hcases as [(Hcode & i & _ & Himgs & Hs3)
                     |[(Hcode & _ & ->)|(Hcode & Himgs & Hs3)]].
  - split; [auto|]. repeat split; auto.
    + intros row Hrow. rewrite Himgs in Hrow.
      apply list_elem_of_In, filter_In in Hrow as [Hrow _].
      now apply list_elem_of_In.
    + intros k. rewrite Hs3. apply Hdel.
    + intros Hne. now destruct Hne.
  - split; [auto|]. repeat split; auto.
  - split; [auto|]. repeat split; auto.
    + intros row. now rewrite Himgs.
    + intros k. destruct Hs3 as [->|(i & _ & ->)]; [auto|apply Hdel].
Qed.
End DeleteImage.

(** ** Cancelling, reading and sweeping upload sessions *)

Section Sessions.
Import Js Config External Types Handler Logic Infra.
Import ChunkedUpload SessionAdmin Invariants Scenario Scenario2.

(** The runs of [cancelSession]. *)
Lemma cancelSession_cases w sid st :
  exists r st',
    cancelSession w sid st = (Ok r, st') /\
    Prisma.images (db st') = Prisma.images (db st) /\
    s3 st' = s3 st /\
    cache st' = cache st /\
    ((statusCode r = 200 /\
      exists c,
        Prisma.uploadSessions (db st) !! sid = Some c /\
        Prisma.uploadSessions (db st') =
          <[sid := US.set_status Prisma.FAILED c]> (Prisma.uploadSessions (db st)) /\
        chunkStorage st' = delete sid (chunkStorage st))
     \/
     ((statusCode r = 404 \/ statusCode r = 500) /\ st' = st)).
Proof.
  unfold cancelSession, try_catch, bind, findUnique, db_read, update,
    db_update, db_write, deleteChunks, modify, ret,
    Prisma.uploadSession_findUnique, Prisma.uploadSession_update,
    Prisma.guarded.
  destruct (fault w Db_uploadSession_findUnique).
  { eexists _, _. split; [reflexivity|]. repeat split. right. auto. }
  destruct (Prisma.uploadSessions (db st) !! sid) as [c|] eqn:Hc; cbn.
  2: { eexists _, _. split; [reflexivity|]. repeat split. right. auto. }
  destruct (fault w Db_uploadSession_update); cbn.
  { eexists _, _. split; [reflexivity|]. repeat split. right. auto. }
  rewrite Hc. cbn. eexists _, _. split; [reflexivity|]. repeat split.
  left. split; [reflexivity|]. exists c. repeat split.
Qed.

(** X11: with the session table answering, [cancelSession] of a known
    session answers 200 and writes FAILED over whatever status the row had
    (COMPLETED and EXPIRED included); it drops the chunk array of the
    session and touches no other session, no image row and no blob. *)
Theorem cancelSession_fails_any_session w sid st c :
  fault w Db_uploadSession_findUnique = None ->
  fault w Db_uploadSession_update = None ->
  Prisma.uploadSessions (db st) !! sid = Some c ->
  exists st',
    cancelSession w sid st = (Ok (json 200 SuccessBody), st') /\
    Prisma.uploadSessions (db st') !! sid = Some (US.set_status Prisma.FAILED c) /\
    (forall sid', sid' <> sid ->
       Prisma.uploadSessions (db st') !! sid' =
         Prisma.uploadSessions (db st) !! sid') /\
    chunkStorage st' !! sid = None /\
    Prisma.images (db st') = Prisma.images (db st) /\
    s3 st' = s3 st.
Proof.
  intros H1 H2 Hc.
  unfold cancelSession, try_catch, bind, findUnique, db_read, update,
    db_update, db_write, deleteChunks, modify, ret,
    Prisma.uploadSession_findUnique, Prisma.uploadSession_update,
    Prisma.guarded.
  rewrite H1, Hc. cbn. rewrite H2, Hc. cbn.
  eexists. split; [reflexivity|]. cbn.
  split; [apply lookup_insert_eq|].
  split; [intros sid' Hne; now apply lookup_insert_ne|].
  split; [apply lookup_delete_eq|]. split; reflexivity.
Qed.

Lemma cancelSession_fails_any_session_witness :
  exists st',
    cancelSession healthy "done" stateWithSessions
      = (Ok (json 200 SuccessBody), st') /\
    US.status <$> Prisma.uploadSessions (db st') !! "done"%string
      = Some Prisma.FAILED.
Proof.
  destruct (cancelSession_fails_any_session healthy "done" stateWithSessions
              (sessionRow Prisma.COMPLETED 1000) eq_refl eq_refl eq_refl)
    as (st' & Hrun & Hrow & _).
  exists st'. split; [exact Hrun|]. now rewrite Hrow.
Defined.

(** X12: [cancelSession] never throws and answers 200, 404 or 500; it
    never touches the image table, the bucket or the cache; and unless it
    answers 200 it changes nothing at all. *)
Theorem cancelSession_answers_and_keeps_images w sid st :
  exists r st',
    cancelSession w sid st = (Ok r, st') /\
    (statusCode r = 200 \/ statusCode r = 404 \/ statusCode r = 500) /\
    Prisma.images (db st') = Prisma.images (db st) /\
    s3 st' = s3 st /\
    cache st' = cache st /\
    (statusCode r <> 200 -> st' = st).
Proof.
  destruct (cancelSession_cases w sid st)
    as (r & st' & Hrun & Hi & Hs & Hk & [(Hcode & _)|(Hcode & ->)]).
  - exists r, st'. repeat split; auto; try (intros Hne; now destruct Hne).
  - exists r, st. repeat split; auto; try (destruct Hcode; now auto).
Qed.

(** [getSessionStatus] writes nothing. *)
Lemma getSessionStatus_run w sid st :
  exists r, getSessionStatus w sid st = (Ok r, st).
Proof.
  unfold getSessionStatus, try_catch, bind, findUnique, db_read, ret.
  destruct (Prisma.uploadSession_findUnique w (db st) sid) as [[s|]|e];
    eexists; reflexivity.
Qed.

(** X13: [getSessionStatus] never throws and leaves the state as it is;
    when the session table answers, it answers 200 exactly for the ids
    the table has, and 404 for the others. *)
Theorem getSessionStatus_reads_only w sid st :
  exists r,
    getSessionStatus w sid st = (Ok r, st) /\
    (fault w Db_uploadSession_findUnique = None ->
     (is_Some (Prisma.uploadSessions (db st) !! sid) /\ sessionStatusCode r = 200) \/
     (Prisma.uploadSessions (db st) !! sid = None /\ sessionStatusCode r = 404)).
Proof.
  unfold getSessionStatus, try_catch, bind, findUnique, db_read, ret,
    Prisma.uploadSession_findUnique, Prisma.guarded.
  destruct (fault w Db_uploadSession_findUnique).
  { eexists. split; [reflexivity|]. discriminate. }
  destruct (Prisma.uploadSessions (db st) !! sid) as [c|]; cbn;
    (eexists; split; [reflexivity|]); intros _; [left|right]; eauto.
Qed.


End Sessions.

(** ** The sweep of the expired sessions *)

Section Sweep.
Import Js Config External Types Handler Logic Infra.
Import ChunkedUpload SessionAdmin Invariants Scenario Scenario2.

Lemma expired_not_sweepable now c :
  sweepable now (US.set_status Prisma.EXPIRED c) = false.
Proof. unfold sweepable. cbn. apply andb_false_r. Qed.

Lemma sweptTo_refl now st : sweptTo now st st.
Proof. repeat split; auto. Qed.

Lemma sweptTo_trans now st1 st2 st3 :
  sweptTo now st1 st2 -> sweptTo now st2 st3 -> sweptTo now st1 st3.
Proof.
  intros (Hi1 & Hs1 & Hk1 & Hrow1 & Hch1) (Hi2 & Hs2 & Hk2 & Hrow2 & Hch2).
  assert (Hdue : forall sid c,
             Prisma.uploadSessions (db st2) !! sid = Some c ->
             sweepable now c = true ->
             Prisma.uploadSessions (db st1) !! sid = Some c).
  { intros sid c Hc Hsw. destruct (Hrow1 sid) as [<-|(c1 & _ & _ & H)]; [exact Hc|].
    rewrite H in Hc. injection Hc as <-.
    rewrite expired_not_sweepable in Hsw. discriminate. }
  repeat split; try congruence.
  - intros sid. destruct (Hrow2 sid) as [H2|(c2 & Hc2 & Hsw2 & H2)].
    + rewrite H2. apply Hrow1.
    + right. exists c2. auto.
  - intros sid. destruct (Hch2 sid) as [H2|(H2 & c2 & Hc2 & Hsw2)].
    + rewrite H2. apply Hch1.
    + right. split; [exact H2|]. exists c2. auto.
Qed.

(** The loop of the sweep over rows that are in the table and due. *)
Lemma sweep_loop w (l : list (string * US.columns)) :
  forall st,
    NoDup l.*1 ->
    (forall k c, (k, c) ∈ l ->
       Prisma.uploadSessions (db st) !! k = Some c /\
       sweepable (Date_now w) c = true) ->
    let res :=
      forEach l (fun session =>
        bind (deleteChunks session.1)
          (fun _ => update w session.1 (US.set_status Prisma.EXPIRED))) st in
    sweptTo (Date_now w) st (snd res) /\
    (fault w Db_uploadSession_update = None ->
     fst res = Ok tt /\
     forall k c, (k, c) ∈ l ->
       Prisma.uploadSessions (db (snd res)) !! k
         = Some (US.set_status Prisma.EXPIRED c) /\
       chunkStorage (snd res) !! k = None).
Proof.
  induction l as [|[k c] l IH]; intros st Hnd Hl; cbv zeta.
  { split; [apply sweptTo_refl|]. intros _. split; [reflexivity|].
    intros k c Hin. inversion Hin. }
  destruct (Hl k c) as [Hc Hsw]; [left|].
  cbn [fmap list_fmap fst] in Hnd. apply NoDup_cons in Hnd as [Hfresh Hnd].
  set (f := fun session : string * US.columns =>
              bind (deleteChunks session.1)
                (fun _ => update w session.1 (US.set_status Prisma.EXPIRED))) in *.
  set (st1 := with_chunkStorage (delete k (chunkStorage st)) st).
  set (st2 := with_db
                (Prisma.with_uploadSessions
                   (<[k := US.set_status Prisma.EXPIRED c]>
                      (Prisma.uploadSessions (db st))) (db st)) st1).
  assert (Hstep : forEach ((k, c) :: l) f st =
                  match fault w Db_uploadSession_update with
                  | Some e => (Throw e, st1)
                  | None => forEach l f st2
                  end).
  { change (forEach ((k, c) :: l) f st)
      with (bind (f (k, c)) (fun _ => forEach l f) st).
    unfold bind at 1. unfold f at 1. unfold bind at 1.
    unfold deleteChunks at 1, modify at 1, update at 1, db_update, db_write,
      Prisma.uploadSession_update.
    cbn [fst db with_chunkStorage].
    destruct (fault w Db_uploadSession_update); [reflexivity|].
    rewrite Hc. reflexivity. }
  rewrite Hstep. clear Hstep.
  destruct (fault w Db_uploadSession_update) as [e|] eqn:Hf.
  { cbn [fst snd]. split; [|discriminate]. repeat split; auto.
    intros sid. subst st1. cbn. destruct (decide (sid = k)) as [->|Hne].
    - right. split; [apply lookup_delete_eq|]. eauto.
    - left. now apply lookup_delete_ne. }
  assert (H12 : sweptTo (Date_now w) st st2).
  { subst st2 st1. repeat split; auto; intros sid; cbn;
      (destruct (decide (sid = k)) as [->|Hne]).
    - right. exists c. rewrite lookup_insert_eq. auto.
    - left. now apply lookup_insert_ne.
    - right. split; [apply lookup_delete_eq|]. eauto.
    - left. now apply lookup_delete_ne. }
  assert (Hl2 : forall k' c', (k', c') ∈ l ->
            Prisma.uploadSessions (db st2) !! k' = Some c' /\
            sweepable (Date_now w) c' = true).
  { intros k' c' Hin. destruct (Hl k' c') as [Hc' Hsw']; [now right|].
    split; [|exact Hsw']. subst st2 st1. cbn.
    rewrite lookup_insert_ne; [exact Hc'|].
    intros <-. apply Hfresh. apply list_elem_of_fmap. exists (k, c'). auto. }
  specialize (IH st2 Hnd Hl2). cbv zeta in IH. destruct IH as [H23 Hall].
  split; [eapply sweptTo_trans; eassumption|].
  intros _. destruct (Hall eq_refl) as [Hok Hdone]. split; [exact Hok|].
  intros k' c' Hin. apply elem_of_cons in Hin as [[= -> ->]|Hin]; [|now apply Hdone].
  destruct H23 as (_ & _ & _ & Hrow & Hch). split.
  - destruct (Hrow k) as [->|(c2 & Hc2 & Hsw2 & _)].
    + subst st2 st1. cbn. apply lookup_insert_eq.
    + subst st2 st1. cbn in Hc2. rewrite lookup_insert_eq in Hc2.
      injection Hc2 as <-. rewrite expired_not_sweepable in Hsw2. discriminate.
  - destruct (Hch k) as [->|[H _]]; [|exact H].
    subst st2 st1. cbn. apply lookup_delete_eq.
Qed.

Lemma findMany_rows w (m : gmap string US.columns) k c :
  (k, c) ∈ map_to_list
             (filter (fun kc => sweepable (Date_now w) kc.2 = true) m) <->
  m !! k = Some c /\ sweepable (Date_now w) c = true.
Proof.
  rewrite elem_of_map_to_list.
  exact (map_lookup_filter_Some
           (fun kc : string * US.columns => sweepable (Date_now w) kc.2 = true)
           m k c).
Qed.

(** The sweep as the loop over the rows found. *)
Lemma cleanupExpiredSessions_eq w x st :
  cleanupExpiredSessions w x st =
  match x Db_uploadSession_findMany with
  | Some _ => (Ok tt, st)
  | None =>
      (Ok tt,
       snd (forEach
              (map_to_list
                 (filter (fun kc => sweepable (Date_now w) kc.2 = true)
                    (Prisma.uploadSessions (db st))))
              (fun session =>
                 bind (deleteChunks session.1)
                   (fun _ => update w session.1 (US.set_status Prisma.EXPIRED)))
              st))
  end.
Proof.
  unfold cleanupExpiredSessions, try_catch. unfold bind at 1.
  unfold findMany at 1. destruct (x Db_uploadSession_findMany); [reflexivity|].
  destruct (forEach _ _ st) as [[[]|e] st']; reflexivity.
Qed.

(** The sweep, whatever fails. *)
Lemma cleanupExpiredSessions_swept w x st :
  fst (cleanupExpiredSessions w x st) = Ok tt /\
  sweptTo (Date_now w) st (snd (cleanupExpiredSessions w x st)).
Proof.
  rewrite cleanupExpiredSessions_eq.
  destruct (x Db_uploadSession_findMany).
  { split; [reflexivity|apply sweptTo_refl]. }
  split; [reflexivity|]. cbn [snd]. apply sweep_loop.
  - apply NoDup_fst_map_to_list.
  - intros k c Hin. now apply findMany_rows in Hin.
Qed.
(** The sweep when the session table answers. *)
Lemma cleanupExpiredSessions_healthy w x st :
  x Db_uploadSession_findMany = None ->
  fault w Db_uploadSession_update = None ->
  forall sid,
    Prisma.uploadSessions (db (snd (cleanupExpiredSessions w x st))) !! sid =
      (fun c => if sweepable (Date_now w) c
                then US.set_status Prisma.EXPIRED c else c)
        <$> Prisma.uploadSessions (db st) !! sid /\
    chunkStorage (snd (cleanupExpiredSessions w x st)) !! sid =
      match Prisma.uploadSessions (db st) !! sid with
      | Some c => if sweepable (Date_now w) c then None
                  else chunkStorage st !! sid
      | None => chunkStorage st !! sid
      end.
Proof.
  intros Hx Hf sid. rewrite cleanupExpiredSessions_eq, Hx. cbn [snd].
  match goal with
  | |- context [forEach ?l ?f st] =>
      destruct (sweep_loop w l st) as [(_ & _ & _ & Hrow & Hch) Hall];
        [apply NoDup_fst_map_to_list
        |intros k c Hin; now apply findMany_rows in Hin|]
  end.
  cbv zeta in Hrow, Hch, Hall. destruct (Hall Hf) as [_ Hdone]. clear Hall.
  destruct (Prisma.uploadSessions (db st) !! sid) as [c|] eqn:Hc; cbn.
  - destruct (sweepable (Date_now w) c) eqn:Hsw.
    + apply Hdone. apply findMany_rows. auto.
    + split.
      * destruct (Hrow sid) as [->|(c' & Hc' & Hsw' & _)]; [exact Hc|].
        congruence.
      * destruct (Hch sid) as [->|(_ & c' & Hc' & Hsw')]; [reflexivity|].
        congruence.
  - split.
    + destruct (Hrow sid) as [->|(c' & Hc' & _)]; [exact Hc|congruence].
    + destruct (Hch sid) as [->|(_ & c' & Hc' & _)]; [reflexivity|congruence].
Qed.

(** X15: when the session table answers, the sweep turns every session
    that is past its expiry and IN_PROGRESS or FAILED into EXPIRED and
    drops its chunk array; every other session (COMPLETED, EXPIRED or not
    yet due) and every other chunk array is left as it was, and so are
    the image table and the bucket. *)
Theorem cleanupExpiredSessions_expires_due_sessions w x st :
  x Db_uploadSession_findMany = None ->
  fault w Db_uploadSession_update = None ->
  exists st',
    cleanupExpiredSessions w x st = (Ok tt, st') /\
    Prisma.images (db st') = Prisma.images (db st) /\
    s3 st' = s3 st /\
    forall sid,
      Prisma.uploadSessions (db st') !! sid =
        (fun c => if sweepable (Date_now w) c
                  then US.set_status Prisma.EXPIRED c else c)
          <$> Prisma.uploadSessions (db st) !! sid /\
      chunkStorage st' !! sid =
        match Prisma.uploadSessions (db st) !! sid with
        | Some c => if sweepable (Date_now w) c then None
                    else chunkStorage st !! sid
        | None => chunkStorage st !! sid
        end.
Proof.
  intros Hx Hf.
  pose proof (cleanupExpiredSessions_swept w x st) as [Hok (Hi & Hs & _)].
  pose proof (cleanupExpiredSessions_healthy w x st Hx Hf) as Hall.
  destruct (cleanupExpiredSessions w x st) as [o st']. cbn in *. subst o.
  exists st'. auto.
Qed.

Lemma cleanupExpiredSessions_expires_due_sessions_witness :
  exists st',
    cleanupExpiredSessions healthy noFaults stateWithSessions = (Ok tt, st') /\
    US.status <$> Prisma.uploadSessions (db st') !! "old"%string
      = Some Prisma.EXPIRED /\
    US.status <$> Prisma.uploadSessions (db st') !! "new"%string
      = Some Prisma.IN_PROGRESS /\
    US.status <$> Prisma.uploadSessions (db st') !! "done"%string
      = Some Prisma.COMPLETED /\
    chunkStorage st' !! "old"%string = None /\
    is_Some (chunkStorage st' !! "new"%string).
Proof.
  destruct (cleanupExpiredSessions_expires_due_sessions healthy noFaults
              stateWithSessions eq_refl eq_refl)
    as (st' & Hrun & _ & _ & Hall).
  exists st'. split; [exact Hrun|].
  destruct (Hall "old"%string) as [-> ->].
  destruct (Hall "new"%string) as [-> ->].
  destruct (Hall "done"%string) as [-> _].
  vm_compute. repeat split; eauto.
Defined.

(** X16: whatever fails, the sweep never throws and never touches the
    image table, the bucket or the cache; a session row is either as
    before or was due and is now EXPIRED, and a chunk array is either as
    before or dropped from a session that was due. *)
Theorem cleanupExpiredSessions_only_expires_due w x st :
  exists st',
    cleanupExpiredSessions w x st = (Ok tt, st') /\
    Prisma.images (db st') = Prisma.images (db st) /\
    s3 st' = s3 st /\
    cache st' = cache st /\
    (forall sid,
       Prisma.uploadSessions (db st') !! sid
         = Prisma.uploadSessions (db st) !! sid \/
       exists c,
         Prisma.uploadSessions (db st) !! sid = Some c /\
         (US.expiresAt c <? Date_now w) = true /\
         (US.status c = Prisma.IN_PROGRESS \/ US.status c = Prisma.FAILED) /\
         Prisma.uploadSessions (db st') !! sid
           = Some (US.set_status Prisma.EXPIRED c)) /\
    (forall sid,
       chunkStorage st' !! sid = chunkStorage st !! sid \/
       (chunkStorage st' !! sid = None /\
        exists c,
          Prisma.uploadSessions (db st) !! sid = Some c /\
          (US.expiresAt c <? Date_now w) = true /\
          (US.status c = Prisma.IN_PROGRESS \/ US.status c = Prisma.FAILED))).
Proof.
  pose proof (cleanupExpiredSessions_swept w x st)
    as [Hok (Hi & Hs & Hk & Hrow & Hch)].
  destruct (cleanupExpiredSessions w x st) as [o st']. cbn in *. subst o.
  assert (Hdue : forall c, sweepable (Date_now w) c = true ->
            (US.expiresAt c <? Date_now w) = true /\
            (US.status c = Prisma.IN_PROGRESS \/ US.status c = Prisma.FAILED)).
  { intros c Hsw. unfold sweepable in Hsw.
    apply andb_true_iff in Hsw as [H1 H2]. split; [exact H1|].
    destruct (US.status c); try discriminate; auto. }
  exists st'. repeat split; auto.
  - intros sid. destruct (Hrow sid) as [H|(c & Hc & Hsw & H)]; [now left|].
    right. exists c. destruct (Hdue c Hsw). auto.
  - intros sid. destruct (Hch sid) as [H|(H & c & Hc & Hsw)]; [now left|].
    right. split; [exact H|]. exists c. destruct (Hdue c Hsw). auto.
Qed.

(** X17: when the session table answers, a second sweep at the same
    instant finds nothing to do: it leaves the state of the first sweep
    exactly as it is. *)
Theorem cleanupExpiredSessions_twice w x st :
  x Db_uploadSession_findMany = None ->
  fault w Db_uploadSession_update = None ->
  let st' := snd (cleanupExpiredSessions w x st) in
  cleanupExpiredSessions w x st' = (Ok tt, st').
Proof.
  intros Hx Hf st'.
  pose proof (cleanupExpiredSessions_healthy w x st Hx Hf) as Hall.
  fold st' in Hall. rewrite cleanupExpiredSessions_eq, Hx.
  assert (Hnone : filter (fun kc : string * US.columns =>
                            sweepable (Date_now w) kc.2 = true)
                    (Prisma.uploadSessions (db st')) = ∅).
  { apply map_eq. intros k. rewrite lookup_empty.
    apply map_lookup_filter_None. right. intros c Hc. cbn.
    destruct (Hall k) as [Hrow _]. rewrite Hc in Hrow.
    destruct (Prisma.uploadSessions (db st) !! k) as [c0|]; [|discriminate].
    cbn in Hrow. injection Hrow as ->.
    destruct (sweepable (Date_now w) c0) eqn:Hsw.
    - rewrite expired_not_sweepable. discriminate.
    - rewrite Hsw. discriminate. }
  rewrite Hnone, map_to_list_empty. reflexivity.
Qed.

Lemma cleanupExpiredSessions_twice_witness :
  let st' := snd (cleanupExpiredSessions healthy noFaults stateWithSessions) in
  cleanupExpiredSessions healthy noFaults st' = (Ok tt, st').
Proof.
  exact (cleanupExpiredSessions_twice healthy noFaults stateWithSessions
           eq_refl eq_refl).
Defined.
End Sweep.

(** ** What every sequence of requests keeps true *)

Section AllRequests.
Import Js Config External Types Handler Logic Infra.
Import ChunkedUpload ImageController SessionAdmin ImageAdmin.
Import Invariants Scenario Scenario2.

Lemma omap_filter_sublist {A B} (f : A -> option B) (p : A -> bool) l :
  omap f (List.filter p l) `sublist_of` omap f l.
Proof.
  induction l as [|a l IH]; [constructor|]. cbn.
  destruct (p a); cbn; destruct (f a); try constructor; exact IH.
Qed.

(** The requests other than a deletion leave the image table and the
    bucket alone or commit one row. *)
Lemma handle_commitsAtMostOne w cfg r st :
  isDelete r = false -> commitsAtMostOne w st (handle w cfg r st).
Proof.
  destruct r as [req|req|x id|sid|sid|x]; intros Hr; cbn [handle].
  - apply uploadRoute_commitsAtMostOne.
  - apply chunkedUploadRoute_commitsAtMostOne.
  - discriminate Hr.
  - destruct (cancelSession_cases w sid st) as (r & st' & -> & Hi & Hs & _).
    apply sameView_commits. split; assumption.
  - destruct (getSessionStatus_run w sid st) as (r & ->).
    apply commitsAtMostOne_refl.
  - destruct (cleanupExpiredSessions_swept w x st) as [_ (Hi & Hs & _)].
    apply sameView_commits. split; assumption.
Qed.

Lemma handle_hashesDistinct w cfg r st :
  fault w Db_image_findFirst = None ->
  hashesDistinct st -> hashesDistinct (handle w cfg r st).
Proof.
  intros Hf Hd. destruct (isDelete r) eqn:Hr.
  - destruct r as [| |x id| | |]; try discriminate Hr. cbn [handle].
    destruct (deleteImage_cases x id st)
      as (r & st' & -> & _ & _ & _ & Hcases). cbn [snd].
    unfold hashesDistinct in *.
    destruct Hcases as [(_ & i & _ & -> & _)|[(_ & _ & ->)|(_ & -> & _)]];
      [|exact Hd|exact Hd].
    eapply sublist_NoDup; [exact Hd|apply omap_filter_sublist].
  - eapply commitsAtMostOne_hashes;
      [exact Hf|now apply handle_commitsAtMostOne|exact Hd].
Qed.

Lemma grownBy_trans n1 n2 st st1 st2 :
  grownBy n1 st st1 -> grownBy n2 st1 st2 -> grownBy (n1 ++ n2) st st2.
Proof.
  intros (Hi1 & Hv1 & Hs1 & Hk1) (Hi2 & Hv2 & Hs2 & Hk2).
  split; [now rewrite Hi2, Hi1, app_assoc|].
  split; [now apply Forall_app|]. split; [|auto].
  apply Forall_app. split; [|exact Hs2].
  eapply Forall_impl; [exact Hs1|]. intros r [H1 H2]. split; auto.
Qed.

Lemma commitsAtMostOne_grownBy w st st' :
  commitsAtMostOne w st st' ->
  exists new, (List.length new <= 1)%nat /\ grownBy new st st'.
Proof.
  intros [Hkeep [Hsame|(row & Himgs & Hst & Hv & _)]].
  - exists []. split; [cbn; lia|].
    split; [now rewrite app_nil_r|]. repeat split; auto.
  - exists [row]. split; [cbn; lia|]. repeat split; auto; apply Hst.
Qed.

(** X18: in any sequence of requests to the upload, chunk, delete,
    cancel, status and sweep handlers, handled one after the other, each
    at its own time and with the duplicate lookup answering, no two image
    rows ever share a non-empty hash, provided none did at the start. *)
Theorem handleAll_keeps_hashes_distinct cfg (reqs : list (World * Request)) st :
  Forall (fun wr => fault wr.1 Db_image_findFirst = None) reqs ->
  hashesDistinct st ->
  hashesDistinct (handleAll cfg reqs st).
Proof.
  intros Hf. revert st. unfold handleAll.
  induction Hf as [|[w r] reqs Hw _ IH]; intros st Hd; [exact Hd|].
  cbn [fold_left]. apply IH. now apply handle_hashesDistinct.
Qed.

Lemma handleAll_keeps_hashes_distinct_witness :
  hashesDistinct
    (handleAll (imageConfig smallEnv)
       [(healthy, Upload jpegUpload); (healthy, Chunk (chunk None 0 1));
        (healthy, Upload jpegUpload); (healthy, Delete noFaults "img1");
        (healthy, Sweep noFaults)]
       stateWithImage).
Proof.
  apply handleAll_keeps_hashes_distinct.
  - repeat constructor.
  - unfold hashesDistinct. vm_compute. apply NoDup_singleton.
Defined.

(** X19: in any sequence of requests without a deletion, handled one
    after the other, each at its own time, image rows are only appended,
    at most one for each request, and never changed or removed; every
    appended row is VALIDATED and its key, ["images/" + filename], is a
    key of the bucket at the end; no key of the bucket is removed; so if
    the key of every row was in the bucket at the start, the key of every
    row is in the bucket at the end.  This is about keys only: nothing is
    said of the bytes held under a key. *)
Theorem handleAll_only_appends_stored_rows cfg (reqs : list (World * Request)) st :
  forallb (fun wr => negb (isDelete wr.2)) reqs = true ->
  exists new,
    (List.length new <= List.length reqs)%nat /\
    Prisma.images (db (handleAll cfg reqs st))
      = Prisma.images (db st) ++ new /\
    Forall (fun r => Prisma.Image.status (Prisma.Image.columns r)
                     = Prisma.VALIDATED) new /\
    Forall (rowStored (handleAll cfg reqs st)) new /\
    (forall k, is_Some (s3 st !! k) ->
               is_Some (s3 (handleAll cfg reqs st) !! k)) /\
    (allStored st -> allStored (handleAll cfg reqs st)).
Proof.
  intros Hreqs.
  assert (H : exists new, (List.length new <= List.length reqs)%nat /\
                          grownBy new st (handleAll cfg reqs st)).
  { revert st. unfold handleAll.
    induction reqs as [|[w r] reqs IH]; intros st; cbn [fold_left].
    - exists []. split; [cbn; lia|]. split; [now rewrite app_nil_r|].
      repeat split; auto.
    - cbn [forallb] in Hreqs. apply andb_true_iff in Hreqs as [Hr Hreqs].
      apply negb_true_iff in Hr. cbn [fst snd] in *.
      destruct (commitsAtMostOne_grownBy w st (handle w cfg r st))
        as (n1 & Hlen1 & H1); [now apply handle_commitsAtMostOne|].
      destruct (IH Hreqs (handle w cfg r st)) as (n2 & Hlen2 & H2).
      exists (n1 ++ n2). split; [rewrite length_app; cbn; lia|].
      eapply grownBy_trans; eassumption. }
  destruct H as (new & Hlen & Hi & Hv & Hs & Hk).
  exists new. repeat split; auto.
  intros Hall. unfold allStored. rewrite Hi. apply Forall_app. split; [|exact Hs].
  eapply Forall_impl; [exact Hall|]. intros r [H1 H2]. split; auto.
Qed.

Lemma handleAll_only_appends_stored_rows_witness :
  exists new,
    Prisma.images
      (db (handleAll (imageConfig smallEnv)
             [(healthy, Upload jpegUpload); (healthy, Cancel "0"%string);
              (providerDown, Upload jpegUpload); (healthy, Sweep noFaults)]
             emptyState))
      = new /\
    (List.length new <= 4)%nat /\
    Forall (rowStored
              (handleAll (imageConfig smallEnv)
                 [(healthy, Upload jpegUpload); (healthy, Cancel "0"%string);
                  (providerDown, Upload jpegUpload); (healthy, Sweep noFaults)]
                 emptyState))
      new.
Proof.
  destruct (handleAll_only_appends_stored_rows (imageConfig smallEnv)
              [(healthy, Upload jpegUpload); (healthy, Cancel "0"%string);
               (providerDown, Upload jpegUpload); (healthy, Sweep noFaults)]
              emptyState eq_refl)
    as (new & Hlen & Hi & _ & Hs & _).
  exists new. split; [exact Hi|]. split; [exact Hlen|exact Hs].
Defined.
End AllRequests.

(** ** The bucket and the chunk cache *)

Section Stores.
Import Js Config External Types Handler Infra.
Import Services S3Service RedisService Scenario Scenario2.

(** X21: with the bucket answering, [fileExists] follows [uploadFile] and
    [deleteFile]: a key just uploaded exists, a key just deleted does
    not, and neither call changes the answer for any other key. *)
Theorem fileExists_follows_upload_and_delete w x key body contentType st :
  fault w S3_putObject = None ->
  x S3_deleteObject = None ->
  x S3_getObject = None ->
  fst (fileExists x key (snd (uploadFile w key body contentType st))) = Ok true /\
  fst (fileExists x key (snd (deleteFile x key st))) = Ok false /\
  (forall k, k <> key ->
     fst (fileExists x k (snd (uploadFile w key body contentType st)))
       = fst (fileExists x k st) /\
     fst (fileExists x k (snd (deleteFile x key st)))
       = fst (fileExists x k st)).
Proof.
  intros Hput Hdel Hget. unfold fileExists, uploadFile, deleteFile, gets, modify.
  rewrite Hput, Hdel, Hget. cbn. repeat split.
  - rewrite lookup_insert_eq. rewrite bool_decide_eq_true_2; eauto.
  - rewrite lookup_delete_eq. rewrite bool_decide_eq_false_2; [reflexivity|].
    intros [v Hv]. discriminate.
  - now rewrite lookup_insert_ne.
  - now rewrite lookup_delete_ne.
Qed.

Lemma fileExists_follows_upload_and_delete_witness :
  fst (fileExists noFaults "images/1-a.jpg"
         (snd (uploadFile healthy "images/1-a.jpg" someBuffer "image/jpeg"
                 emptyState))) = Ok true /\
  fst (fileExists noFaults "images/1-a.jpg"
         (snd (deleteFile noFaults "images/1-a.jpg" stateWithImage))) = Ok false.
Proof.
  split.
  - apply (fileExists_follows_upload_and_delete healthy noFaults
             "images/1-a.jpg" someBuffer "image/jpeg" emptyState
             eq_refl eq_refl eq_refl).
  - apply (fileExists_follows_upload_and_delete healthy noFaults
             "images/1-a.jpg" someBuffer "image/jpeg" stateWithImage
             eq_refl eq_refl eq_refl).
Defined.

(** X22: with the cache answering, [getChunk] after [setChunk] returns
    the buffer written for the same key and index, and what it returned
    before for any other index or key: the field names [String(i)] of two
    different indices never collide. *)
Theorem getChunk_after_setChunk x key key' (i j : Z) buffer s :
  x Redis_hset = None ->
  x Redis_hget = None ->
  getChunk x key' j (snd (setChunk x key i buffer s)) =
    if bool_decide (key' = key /\ j = i) then Ok (Some buffer)
    else getChunk x key' j s.
Proof.
  intros Hset Hget. unfold getChunk, setChunk. rewrite Hset, Hget. cbn.
  unfold Hashes in *.
  destruct (decide (key' = key)) as [->|Hk].
  - rewrite lookup_insert_eq. cbn.
    destruct (decide (j = i)) as [->|Hj].
    + rewrite bool_decide_eq_true_2 by auto. now rewrite lookup_insert_eq.
    + rewrite bool_decide_eq_false_2 by tauto.
      rewrite lookup_insert_ne.
      2: { unfold fieldOf. intros H. apply Hj. symmetry.
           now apply (inj pretty). }
      destruct (s !! key); [reflexivity|]. cbn. now rewrite lookup_empty.
  - rewrite bool_decide_eq_false_2 by tauto. now rewrite lookup_insert_ne.
Qed.

Lemma getChunk_after_setChunk_witness :
  getChunk noFaults "s1" 10 (snd (setChunk noFaults "s1" 10 someBuffer ∅))
    = Ok (Some someBuffer) /\
  getChunk noFaults "s1" 1 (snd (setChunk noFaults "s1" 10 someBuffer ∅))
    = Ok None.
Proof.
  split.
  - exact (getChunk_after_setChunk noFaults "s1" "s1" 10 10 someBuffer ∅
             eq_refl eq_refl).
  - exact (getChunk_after_setChunk noFaults "s1" "s1" 10 1 someBuffer ∅
             eq_refl eq_refl).
Defined.

(** X23: with the cache answering, [deleteKey] removes every chunk of the
    key at once and no chunk of another key, and it returns 1 when the
    key held chunks and 0 when it did not. *)
Theorem deleteKey_drops_every_chunk x key s :
  x Redis_del = None ->
  x Redis_hget = None ->
  (forall j, getChunk x key j (snd (deleteKey x key s)) = Ok None) /\
  (forall key' j, key' <> key ->
     getChunk x key' j (snd (deleteKey x key s)) = getChunk x key' j s) /\
  fst (deleteKey x key s) = Ok (match s !! key with Some _ => 1 | None => 0 end).
Proof.
  intros Hdel Hget. unfold getChunk, deleteKey. rewrite Hdel, Hget. cbn.
  unfold Hashes in *. repeat split.
  - intros j. now rewrite lookup_delete_eq.
  - intros key' j Hne. now rewrite lookup_delete_ne.
  - destruct (s !! key) eqn:Hs.
    + rewrite bool_decide_eq_true_2; eauto.
    + rewrite bool_decide_eq_false_2; [reflexivity|]. intros [v Hv]. discriminate.
Qed.

Lemma deleteKey_drops_every_chunk_witness :
  getChunk noFaults "s1" 0
    (snd (deleteKey noFaults "s1" (snd (setChunk noFaults "s1" 0 someBuffer ∅))))
    = Ok None.
Proof.
  apply (deleteKey_drops_every_chunk noFaults "s1"
           (snd (setChunk noFaults "s1" 0 someBuffer ∅)) eq_refl eq_refl).
Defined.
End Stores.

(** ** [sanitizeInput] *)

Section SanitizeInput.
Import Js Sanitize.

Lemma sanitizeString_clean str :
  Forall (fun c => c <> 60 /\ c <> 62) (sanitizeString str) /\
  (List.length (sanitizeString str) <= 1000)%nat.
Proof.
  unfold sanitizeString. split.
  - apply Forall_take. unfold removeAngles. apply Forall_forall.
    intros c Hc. apply list_elem_of_In, filter_In in Hc as [_ Hc].
    unfold is_angle in Hc. apply negb_true_iff, orb_false_iff in Hc as [H1 H2].
    apply Z.eqb_neq in H1, H2. auto.
  - rewrite length_take. lia.
Qed.

(** The no-break spaces around a word are trimmed, the angle brackets
    inside it removed: [" <caf\u00e9> "], with U+00A0 for the spaces. *)
Example sanitizeString_nbsp :
  sanitizeString [160; 60; 99; 97; 102; 233; 62; 160] = [99; 97; 102; 233].
Proof. reflexivity. Qed.

(** X24: [sanitizeInput] keeps the keys of the object; every string
    value comes out as [sanitizeString] of it, which has no ['<'] and no
    ['>'] and at most 1000 UTF-16 code units; every value that is not a
    string comes out as it went in. *)
Theorem sanitizeFields_cleans_strings_only (fields : gmap string Field) :
  dom (sanitizeFields fields) = dom fields /\
  forall key,
    match fields !! key with
    | Some (FString s) =>
        exists s',
          sanitizeFields fields !! key = Some (FString s') /\
          s' = sanitizeString s /\
          Forall (fun c => c <> 60 /\ c <> 62) s' /\
          (List.length s' <= 1000)%nat
    | v => sanitizeFields fields !! key = v
    end.
Proof.
  unfold sanitizeFields. split; [apply dom_fmap_L|].
  intros key. rewrite lookup_fmap.
  destruct (fields !! key) as [[s|n|]|]; cbn; try reflexivity.
  exists (sanitizeString s). split; [reflexivity|]. split; [reflexivity|].
  apply sanitizeString_clean.
Qed.
End SanitizeInput.

(** ** What a chunk request leaves behind *)

Section ChunkRequests.
Import Js Config External Types Handler Logic Services ImageProcessing.
Import Invariants ChunkedUpload Scenario.

(** X25: whatever fails, a chunk request removes no key from the bucket,
    and it either leaves the image table as it is or appends exactly one
    row: VALIDATED, keyed ["images/" + filename], with an object under
    that key in the bucket; and if the row records a non-empty hash and
    the duplicate lookup answers, no row had that hash before.  Nothing is
    said of duplicates for a row that records no hash, nor of the bytes
    held under the key. *)
Theorem chunkedUploadRoute_commits_at_most_one_row w cfg req st :
  (forall k, is_Some (s3 st !! k) ->
             is_Some (s3 (snd (chunkedUploadRoute w cfg req st)) !! k)) /\
  (Prisma.images (db (snd (chunkedUploadRoute w cfg req st)))
     = Prisma.images (db st) \/
   exists row,
     Prisma.images (db (snd (chunkedUploadRoute w cfg req st)))
       = Prisma.images (db st) ++ [row] /\
     Prisma.Image.status (Prisma.Image.columns row) = Prisma.VALIDATED /\
     Prisma.Image.s3Key (Prisma.Image.columns row)
       = "images/" +:+ Prisma.Image.filename (Prisma.Image.columns row) /\
     is_Some (s3 (snd (chunkedUploadRoute w cfg req st))
                !! Prisma.Image.s3Key (Prisma.Image.columns row)) /\
     (forall h,
        Prisma.Image.hash (Prisma.Image.columns row) = Some h ->
        str_truthy h = true ->
        fault w Db_image_findFirst = None ->
        find (Prisma.hash_is h) (Prisma.images (db st)) = None)).
Proof.
  destruct (chunkedUploadRoute_commitsAtMostOne w cfg req st)
    as [Hkeep [Hsame|(row & Himgs & [Hkey Hblob] & Hv & Hnew)]].
  - split; [exact Hkeep|now left].
  - split; [exact Hkeep|]. right. exists row. repeat split; auto.
    intros h Hh Ht. apply Hnew. unfold indexedHash. now rewrite Hh, Ht.
Qed.

Lemma update_keeps_session w sid sid' f :
  stable (hasSession sid) (update w sid' f).
Proof.
  unfold update, db_update. apply stable_db_write.
  intros a d st Hd [c Hc].
  unfold Prisma.uploadSession_update in Hd.
  destruct (fault w Db_uploadSession_update); [discriminate|].
  destruct (Prisma.uploadSessions (db st) !! sid') as [c'|] eqn:Hc';
    [|discriminate].
  injection Hd as <- <-. unfold hasSession. cbn.
  destruct (decide (sid' = sid)) as [->|Hne].
  - rewrite lookup_insert_eq. eauto.
  - rewrite lookup_insert_ne by exact Hne. eauto.
Qed.

Lemma update_ends w sid f E :
  fault w Db_uploadSession_update = None ->
  (forall c, terminal (US.status (f c)) = true) ->
  triple (hasSession sid) (update w sid f) (fun _ => ended sid) E.
Proof.
  intros Hf Hterm st [c Hc]. unfold update, db_update, db_write,
    Prisma.uploadSession_update. rewrite Hf, Hc. cbn.
  exists (f c). split; [apply lookup_insert_eq|apply Hterm].
Qed.

Lemma deleteChunks_closes sid E :
  triple (ended sid) (deleteChunks sid) (fun _ => closed sid) E.
Proof.
  apply triple_modify. intros st H. split; [apply lookup_delete_eq|exact H].
Qed.

(** "Mark the session, drop its chunks, answer." *)
Lemma close_tail w sid f (r : Response) E :
  fault w Db_uploadSession_update = None ->
  (forall c, terminal (US.status (f c)) = true) ->
  triple (hasSession sid)
    (bind (update w sid f) (fun _ => bind (deleteChunks sid) (fun _ => ret r)))
    (fun _ => closed sid) E.
Proof.
  intros Hf Hterm.
  eapply triple_bind; [now apply update_ends|intros ?].
  eapply triple_bind; [apply deleteChunks_closes|intros ?].
  now apply triple_ret.
Qed.

Lemma processCompleted_closes w cfg req sid chunks :
  fault w Db_uploadSession_update = None ->
  triple (hasSession sid) (processCompleted w cfg req sid chunks)
    (fun _ => closed sid) (fun _ => hasSession sid).
Proof.
  intros Hf. unfold processCompleted. cbv zeta.
  eapply triple_bind with (R := fun _ => hasSession sid);
    [apply stable_await|intros completeBuffer].
  eapply triple_bind with (R := fun _ => hasSession sid).
  { destruct (is_heic_upload _ _); [|apply stable_ret].
    apply stable_bind; [apply stable_await|intros []; apply stable_ret]. }
  intros [processedBuffer finalMimeType].
  destruct (negb (isValid _)); [now apply close_tail|].
  eapply triple_bind with (R := fun _ => hasSession sid);
    [apply duplicateOf_stable|intros [|]]; [now apply close_tail|].
  eapply triple_bind with (R := fun _ => hasSession sid);
    [apply uploadFile_stable; auto|intros ?].
  eapply triple_bind with (R := fun _ => hasSession sid);
    [apply stable_await|intros imageInfo].
  eapply triple_bind with (R := fun _ => hasSession sid);
    [apply image_create_stable; auto|intros image].
  eapply triple_bind; [now apply update_ends|intros ?].
  eapply triple_bind; [apply deleteChunks_closes|intros ?].
  eapply triple_bind with (R := fun _ => closed sid).
  { eapply triple_conseq; [apply (getSignedDownloadUrl_stable (closed sid))| | |];
      cbv beta; auto.
    intros e st [_ (c & Hc & _)]. exists c. exact Hc. }
  intros url. now apply triple_ret.
Qed.

(** Under the hypotheses below a chunk request always ends its
    session. *)
Lemma uploadChunk_closes w cfg req st0 :
  sessionsHealthy w ->
  0 <= totalChunks req < 2 ^ 32 ->
  chunksDefined st0 ->
  exists r st',
    uploadChunk w cfg req st0 = (Ok r, st') /\
    closed (sessionFor st0 req) st'.
Proof.
  intros (Hfind & Hcreate & Hupd) Hn Hdef.
  set (sid := sessionFor st0 req).
  assert (T : triple (fun st => st = st0) (uploadChunk w cfg req)
                (fun _ => closed sid) (fun _ _ => False)).
  { unfold uploadChunk.
    apply triple_try_catch with (F := fun _ _ => False); [|intros e st []].
    eapply triple_bind; [now apply createOrGetSession_triple|].
    intros s. cbv zeta.
    eapply triple_conseq with
      (P' := fun st => US.id s = sid /\ hasSession (US.id s) st /\ chunksDefined st)
      (Q' := fun _ => closed sid) (E' := fun _ _ => False);
      [| |auto|auto].
    2: { intros st (H1 & H2 & H3). repeat split; auto.
         intros sid' arr Harr. rewrite H3 in Harr. eapply Hdef, Harr. }
    intros st (Hid & Hs & Hd). revert st Hs Hd. rewrite Hid. intros st Hs Hd.
    pose proof (storeChunk_defined w req sid st Hd) as H1.
    pose proof (storeChunk_triple w req sid
                  (fun d => is_Some (Prisma.uploadSessions d !! sid))
                  (fun _ _ => False) Hn st Hs) as H2.
    unfold bind at 1.
    destruct (storeChunk w req sid st) as [[chunks|e] st1]; [|exact H2].
    destruct H1 as [Hevery _]. cbv beta in H2.
    pose proof (update_records w sid (chunkIndex req + 1) (fun _ _ => False)
                  Hupd st1 H2) as H3.
    unfold bind at 1.
    destruct (update w sid (US.set_uploadedChunks (chunkIndex req + 1)) st1)
      as [[u|e] st2]; [|exact H3].
    rewrite Hevery.
    assert (Hs2 : hasSession sid st2).
    { destruct H3 as (c & Hc & _). exists c. exact Hc. }
    assert (T2 : triple (hasSession sid)
                   (try_catch (processCompleted w cfg req sid chunks)
                      (processFailed w sid))
                   (fun _ => closed sid) (fun _ _ => False)).
    { apply triple_try_catch with (F := fun _ => hasSession sid);
        [now apply processCompleted_closes|].
      intros e. unfold processFailed. now apply close_tail. }
    exact (T2 st2 Hs2). }
  specialize (T st0 eq_refl).
  destruct (uploadChunk w cfg req st0) as [[r|e] st']; [eauto|destruct T].
Qed.
(** X27: a chunk request that passes the validation chain, with the
    session table answering and the stored arrays holding buffers, always
    ends the session it is served under, whatever the index and the chunk
    count are and whatever else fails: the handler answers, the row of
    the session has a status other than IN_PROGRESS, and the chunk map
    holds no array for the session. *)
Theorem chunkedUploadRoute_closes_session w cfg req st :
  Middleware.chunkUploadErrors req = [] ->
  sessionsHealthy w ->
  chunksDefined st ->
  exists r st' c,
    chunkedUploadRoute w cfg req st = (Ok r, st') /\
    Prisma.uploadSessions (db st') !! sessionFor st req = Some c /\
    US.status c <> Prisma.IN_PROGRESS /\
    chunkStorage st' !! sessionFor st req = None.
Proof.
  intros Hv Hw Hdef. rewrite (chunkedUploadRoute_accepted _ _ _ Hv).
  apply chunkUploadErrors_nil in Hv.
  destruct (uploadChunk_closes w cfg req st Hw) as (r & st' & Hrun & Hch & c & Hc & Ht);
    [lia|exact Hdef|].
  exists r, st', c. repeat split; auto.
  intros Hs. rewrite Hs in Ht. discriminate.
Qed.

Lemma chunkedUploadRoute_closes_session_witness :
  exists r st' c,
    chunkedUploadRoute healthy (imageConfig smallEnv) (chunk None 0 3) emptyState
      = (Ok r, st') /\
    Prisma.uploadSessions (db st') !! "0"%string = Some c /\
    US.status c <> Prisma.IN_PROGRESS /\
    chunkStorage st' !! "0"%string = None.
Proof.
  assert (Hw : sessionsHealthy healthy) by (repeat split).
  apply (chunkedUploadRoute_closes_session healthy (imageConfig smallEnv)
           (chunk None 0 3) emptyState eq_refl Hw emptyState_chunksDefined).
Defined.

Lemma serve_never_progress_witness :
  Forall (fun o => exists r, o = Ok r /\ isProgress r = false)
    (fst (serve healthy (imageConfig smallEnv)
            [chunk None 1 3; chunk (Some "0"%string) 0 3] emptyState)) /\
  chunksDefined
    (snd (serve healthy (imageConfig smallEnv)
            [chunk None 1 3; chunk (Some "0"%string) 0 3] emptyState)).
Proof.
  apply serve_never_progress. apply emptyState_chunksDefined.
Defined.

Lemma reassembly_in_any_order_witness :
  Buffer_concat
    (storeAll (replicate 3 Hole)
       [(1, [Byte.x03; Byte.x04]); (0, [Byte.x01; Byte.x02]); (2, [Byte.x05])])
  = Ok [Byte.x01; Byte.x02; Byte.x03; Byte.x04; Byte.x05].
Proof.
  apply (reassembly_in_any_order
           [[Byte.x01; Byte.x02]; [Byte.x03; Byte.x04]; [Byte.x05]]
           [(1, [Byte.x03; Byte.x04]); (0, [Byte.x01; Byte.x02]);
            (2, [Byte.x05])]).
  cbn. apply perm_swap.
Defined.
End ChunkRequests.
